(** * nofx trader engine: decision validation, execution ordering,
      LLM response repair, OKX adapter caching and rounding, drawdown
      monitor and balance auto-sync.

    Shallow embedding of the Go sources
      - market/okx_client.go   (package decision: extractDecisions,
                                validateDecisions, the JSON repairs),
      - mcp/client.go          (AutoTrader: sortDecisionsByPriority,
                                executeOpen*WithRecord, checkPositionDrawdown,
                                autoSyncBalanceIfNeeded),
      - trader/okx_trader.go   (OKXTrader: read caches, Open/Close, FormatQuantity).

    Conventions.
      - Go [float64] amounts are modelled as exact rationals [Q]; rounding
        error of binary floating point is outside the model.
      - Go [int] is [Z]; [time.Time] and [time.Duration] are [Z] nanoseconds.
      - A Go [(value, error)] result is [res A]; a Go [error] alone is
        [option E] with [None] for [nil].
      - [map[string]T] is stdpp's [gmap string T].
      - A float division by zero gives an infinity or a NaN in Go and 0 in
        [Q]; the statements below are made where the divisors are not
        zero. *)

From Stdlib Require Import ZArith QArith Qround Qabs Lqa Lia String Ascii List Permutation.
From stdpp Require Import base option list gmap strings.

Local Open Scope Z_scope.

(** ** Results *)

Inductive res (E A : Type) : Type :=
| Ok (a : A)
| Err (e : E).
Arguments Ok {E A} a.
Arguments Err {E A} e.

Definition is_ok {E A} (r : res E A) : bool :=
  match r with Ok _ => true | Err _ => false end.

(** Rational comparisons as the booleans the Go conditions compute. *)
Definition Qltb (x y : Q) : bool := negb (Qle_bool y x).
Definition Qleb (x y : Q) : bool := Qle_bool x y.
Definition Qeqb (x y : Q) : bool := Qeq_bool x y.

(** ** Errors and the state-and-error monad of the stateful code *)

(** Go [error] values of the adapter and of the trader engine: one
    constructor per kind of message, carrying what the message prints.
    [Transport] is an error of [makeRequest], with the text that
    [err.Error()] gives; [Wrapped] is [fmt.Errorf("context: %w", err)]. *)
Inductive Error : Type :=
| Transport (msg : string)
| Wrapped (context : string) (cause : Error)
| Failure (message : string)
| InsufficientMargin (required available lotSz minValue minMargin : Q)
| StopLossVsPrice (side : string) (stopLoss price : Q)
| StopLossVsLiquidation (side : string) (stopLoss liquidation : Q)
| TakeProfitVsPrice (side : string) (takeProfit price : Q)
| StopLossVsTakeProfit (side : string) (stopLoss takeProfit : Q)
| OrderRejected (context sCode sMsg : string)
| NoPosition (symbol side : string)
| AlreadyOpen (symbol side : string)
| UnknownSide (side : string)
| Panic (what : string).

(** A computation on a state [S] that returns a value or an error; the
    state changes made before an error stay, as in Go. *)
Definition M (S A : Type) : Type := S -> res Error A * S.

#[global] Instance M_ret {S} : MRet (M S) := fun A a s => (Ok a, s).

#[global] Instance M_bind {S} : MBind (M S) := fun A B f m s =>
  match m s with
  | (Ok a, s') => f a s'
  | (Err e, s') => (Err e, s')
  end.

Definition fail {S A} (e : Error) : M S A := fun s => (Err e, s).

(** [v, err := f()]: the result is inspected instead of propagated. *)
Definition attempt {S A} (m : M S A) : M S (res Error A) := fun s =>
  let '(r, s') := m s in (Ok r, s').

(** [for _, x := range l { f(x) }] *)
Fixpoint forEach {S A} (l : list A) (f : A -> M S unit) : M S unit :=
  match l with
  | [] => mret tt
  | x :: l' => f x ;; forEach l' f
  end.

(** ** Decisions (package decision, market/okx_client.go) *)

Module Decisions.

(** [type Decision struct] *)
Record Decision : Type := mkDecision {
  Symbol : string;
  Action : string;
  Leverage : Z;
  PositionSizeUSD : Q;
  StopLoss : Q;
  TakeProfit : Q;
  NewStopLoss : Q;
  NewTakeProfit : Q;
  ClosePercentage : Q;
  Confidence : Z;
  RiskUSD : Q;
  Reasoning : string
}.

(** The errors [validateDecision] builds with [fmt.Errorf], one
    constructor per message, carrying the values the message prints. *)
Inductive ValidationError : Type :=
| InvalidAction (action : string)
| LeverageOutOfRange (maxLeverage : Z) (symbol : string) (leverage : Z)
| NewStopLossNotPositive (v : Q)
| NewTakeProfitNotPositive (v : Q)
| ClosePercentageOutOfRange (v : Q)
| DecisionFailed (index : Z) (cause : ValidationError).

(** [validActions := map[string]bool{...}] inside [validateDecision]. *)
Definition validActions : gmap string bool :=
  list_to_map
    [("open_long", true); ("open_short", true);
     ("close_long", true); ("close_short", true);
     ("update_stop_loss", true); ("update_take_profit", true);
     ("partial_close", true); ("hold", true); ("wait", true)]%string.

(** Indexing a Go map with a missing key yields the zero value. *)
Definition map_get_bool (m : gmap string bool) (k : string) : bool :=
  default false (m !! k).

Definition is_open_action (a : string) : bool :=
  (String.eqb a "open_long" || String.eqb a "open_short")%bool.

(** [maxLeverage] of [validateDecision]: the ceiling for the symbol. *)
Definition leverageCeiling (symbol : string) (btcEthLeverage altcoinLeverage : Z)
  : Z :=
  if (String.eqb symbol "BTCUSDT" || String.eqb symbol "ETHUSDT")%bool
  then btcEthLeverage else altcoinLeverage.

(** [validateDecision]: [accountEquity] and [currentPrice] are received
    and, as in the source, take no part in the verdict. *)
Definition validateDecision (d : Decision) (accountEquity : Q)
    (btcEthLeverage altcoinLeverage : Z) (currentPrice : Q)
  : option ValidationError :=
  if negb (map_get_bool validActions (Action d)) then
    Some (InvalidAction (Action d))
  else
    let maxLeverage := leverageCeiling (Symbol d) btcEthLeverage altcoinLeverage in
    if (is_open_action (Action d)
        && ((Leverage d <=? 0) || (maxLeverage <? Leverage d)))%bool then
      Some (LeverageOutOfRange maxLeverage (Symbol d) (Leverage d))
    else if (String.eqb (Action d) "update_stop_loss"
             && Qleb (NewStopLoss d) 0)%bool then
      Some (NewStopLossNotPositive (NewStopLoss d))
    else if (String.eqb (Action d) "update_take_profit"
             && Qleb (NewTakeProfit d) 0)%bool then
      Some (NewTakeProfitNotPositive (NewTakeProfit d))
    else if (String.eqb (Action d) "partial_close"
             && (Qleb (ClosePercentage d) 0
                 || Qltb 100 (ClosePercentage d)))%bool then
      Some (ClosePercentageOutOfRange (ClosePercentage d))
    else None.

Section ValidateDecisions.
(** [marketDataMap] gives the current price of a symbol when known
    ([nil] map: [None]); [marketGet] stands for the network call
    [market.Get(symbol)] and returns the price when the call succeeds. *)
Variable marketGet : string -> option Q.

Definition lookupPrice (marketDataMap : option (gmap string Q))
    (d : Decision) : Q :=
  let currentPrice :=
    match marketDataMap with
    | Some m => default 0%Q (m !! Symbol d)
    | None => 0%Q
    end in
  if (Qleb currentPrice 0 && is_open_action (Action d))%bool then
    match marketGet (Symbol d) with
    | Some p => p
    | None => currentPrice
    end
  else currentPrice.

(** The loop of [validateDecisions], [i] being the 0-based index. *)
Fixpoint validateFrom (i : Z) (decisions : list Decision) (accountEquity : Q)
    (btcEthLeverage altcoinLeverage : Z)
    (marketDataMap : option (gmap string Q)) : option ValidationError :=
  match decisions with
  | [] => None
  | d :: rest =>
      match validateDecision d accountEquity btcEthLeverage altcoinLeverage
              (lookupPrice marketDataMap d) with
      | Some e => Some (DecisionFailed (i + 1) e)
      | None => validateFrom (i + 1) rest accountEquity btcEthLeverage
                  altcoinLeverage marketDataMap
      end
  end.

Definition validateDecisions := validateFrom 0.
End ValidateDecisions.

(** *** Execution order (mcp/client.go) *)

(** [getActionPriority], the closure inside [sortDecisionsByPriority]. *)
Definition getActionPriority (action : string) : Z :=
  if (String.eqb action "close_long" || String.eqb action "close_short"
      || String.eqb action "partial_close")%bool then 1
  else if (String.eqb action "update_stop_loss"
           || String.eqb action "update_take_profit")%bool then 2
  else if (String.eqb action "open_long" || String.eqb action "open_short")%bool then 3
  else if (String.eqb action "hold" || String.eqb action "wait")%bool then 4
  else 999.

Definition prio (d : Decision) : Z := getActionPriority (Action d).

(** [sorted[i], sorted[j] = sorted[j], sorted[i]] *)
Definition swap (sorted : list Decision) (i j : nat) : list Decision :=
  match sorted !! i, sorted !! j with
  | Some a, Some b => <[i := b]> (<[j := a]> sorted)
  | _, _ => sorted
  end.

(** Body of the inner loop: compare positions [i] and [j], exchange them
    when the earlier one has the larger priority number. *)
Definition compareSwap (i : nat) (sorted : list Decision) (j : nat)
  : list Decision :=
  match sorted !! i, sorted !! j with
  | Some a, Some b => if prio b <? prio a then swap sorted i j else sorted
  | _, _ => sorted
  end.

(** [for j := i + 1; j < len(sorted); j++] *)
Definition innerLoop (sorted : list Decision) (i : nat) : list Decision :=
  fold_left (compareSwap i) (seq (S i) (length sorted - S i)) sorted.

(** [sortDecisionsByPriority]: lists of length at most one are returned
    as they are, otherwise a copy is sorted by the two nested loops. *)
Definition sortDecisionsByPriority (decisions : list Decision) : list Decision :=
  if (length decisions <=? 1)%nat then decisions
  else fold_left innerLoop (seq 0 (length decisions - 1)) decisions.

(** The decision with another notional, for statements about what the
    validator looks at. *)
Definition withPositionSize (size : Q) (d : Decision) : Decision :=
  {| Symbol := Symbol d; Action := Action d; Leverage := Leverage d;
     PositionSizeUSD := size; StopLoss := StopLoss d;
     TakeProfit := TakeProfit d; NewStopLoss := NewStopLoss d;
     NewTakeProfit := NewTakeProfit d; ClosePercentage := ClosePercentage d;
     Confidence := Confidence d; RiskUSD := RiskUSD d;
     Reasoning := Reasoning d |}.

(** The invariants of the exchange sort in [sortDecisionsByPriority]. *)

(** Positions before [i] hold priorities no larger than any later one. *)
Definition prefixSettled (l : list Decision) (i : nat) : Prop :=
  forall a b x y, (a < i)%nat -> (a < b)%nat ->
    l !! a = Some x -> l !! b = Some y -> prio x <= prio y.

(** Position [i] holds a priority no larger than those strictly between
    [i] and [j]. *)
Definition pivotLeast (l : list Decision) (i j : nat) : Prop :=
  forall k x y, (i < k)%nat -> (k < j)%nat ->
    l !! i = Some x -> l !! k = Some y -> prio x <= prio y.

End Decisions.

(** ** LLM response text and its repairs (market/okx_client.go) *)

Module Text.
Import Decisions.

(** The response text reaches [extractDecisions] out of [encoding/json],
    hence as valid UTF-8; it is modelled by its sequence of code points
    (Go's [rune]), the unit on which [regexp] works.  Byte length and byte
    slicing ([len], [s[:n]]) go through [utf8]. *)
Definition rune := Z.
Definition text := list rune.

(** ASCII literals of the source as code points. *)
Definition runes (s : string) : text :=
  map (fun a => Z.of_nat (nat_of_ascii a)) (list_ascii_of_string s).

Definition quote : rune := 34.
Definition colon : rune := 58.
Definition comma : rune := 44.
Definition lbracket : rune := 91.
Definition rbracket : rune := 93.




(** *** Character classes *)

(** [\s] of Go's regexp (RE2): tab, newline, form feed, carriage return, space. *)
Definition is_ws (r : rune) : bool :=
  (r =? 9) || (r =? 10) || (r =? 12) || (r =? 13) || (r =? 32).

(** [\d] of Go's regexp: ASCII digits. *)
Definition is_digit (r : rune) : bool := (48 <=? r) && (r <=? 57).

(** [unicode.IsSpace], the class [strings.TrimSpace] trims. *)
Definition isSpace (r : rune) : bool :=
  ((9 <=? r) && (r <=? 13)) || (r =? 32) || (r =? 133) || (r =? 160)
  || (r =? 5760) || ((8192 <=? r) && (r <=? 8202)) || (r =? 8232)
  || (r =? 8233) || (r =? 8239) || (r =? 8287) || (r =? 12288).

(** [reInvisibleRunes]: the class of U+200B, U+200C, U+200D and U+FEFF. *)
Definition is_invisible (r : rune) : bool :=
  (r =? 8203) || (r =? 8204) || (r =? 8205) || (r =? 65279).

(** *** Matching primitives *)

Fixpoint strip_prefix (p s : text) : option text :=
  match p with
  | [] => Some s
  | a :: p' =>
      match s with
      | [] => None
      | b :: s' => if a =? b then strip_prefix p' s' else None
      end
  end.

(** Greedy [\s*]: the whitespace consumed and what follows. *)
Fixpoint span_ws (s : text) : text * text :=
  match s with
  | c :: s' =>
      if is_ws c then let '(w, r) := span_ws s' in (c :: w, r) else ([], s)
  | [] => ([], [])
  end.

Definition skip_ws (s : text) : text := snd (span_ws s).

(** Greedy [\d*]. *)
Fixpoint span_digits (s : text) : text * text :=
  match s with
  | c :: s' =>
      if is_digit c then let '(d, r) := span_digits s' in (c :: d, r)
      else ([], s)
  | [] => ([], [])
  end.



(** [ReplaceAll]: a matcher gives, at the head of the remaining input,
    the replacement and the input left after the match; matches are
    taken leftmost and do not overlap.  The matched texts of all patterns
    below are non-empty, so [length s] steps exhaust the input. *)
Section ReplaceAll.
Context {A : Type}.
Variable matcher : list A -> option (list A * list A).

Fixpoint rewriteFuel (fuel : nat) (s : list A) : list A :=
  match fuel with
  | O => s
  | S f =>
      match s with
      | [] => []
      | c :: s' =>
          match matcher s with
          | Some (out, rest) => out ++ rewriteFuel f rest
          | None => c :: rewriteFuel f s'
          end
      end
  end.

Definition rewriteAll (s : list A) : list A := rewriteFuel (length s) s.
End ReplaceAll.

Section MatchFree.
Context {A : Type}.
Variable m : list A -> option (list A * list A).

(** No match of [m] starts anywhere in [s]. *)
Fixpoint matchFree (s : list A) : Prop :=
  m s = None /\ match s with [] => True | _ :: s' => matchFree s' end.
End MatchFree.



(** [strings.TrimSpace] *)
Fixpoint trimLeft (s : text) : text :=
  match s with
  | c :: s' => if isSpace c then trimLeft s' else s
  | [] => []
  end.

Definition TrimSpace (s : text) : text := rev (trimLeft (rev (trimLeft s))).

(** *** The repairs *)

(** [removeInvisibleRunes]: every rune of the class is replaced by nothing. *)
Definition removeInvisibleRunes (s : text) : text :=
  filter (fun r => is_invisible r = false) s.

(** [strings.ReplaceAll] of one rune by one rune. *)
Definition replaceRune (old new : rune) (s : text) : text :=
  map (fun r => if r =? old then new else r) s.

(** The replacements of [fixMissingQuotes], in source order. *)
Definition quoteTable : list (rune * rune) :=
  [(8220, 34); (8221, 34); (8216, 39); (8217, 39);
   (65339, 91); (65341, 93); (65371, 123); (65373, 125);
   (65306, 58); (65292, 44);
   (12304, 91); (12305, 93); (12308, 91); (12309, 93); (12289, 44);
   (12288, 32)].

Definition fixMissingQuotes (jsonStr : text) : text :=
  fold_left (fun s p => replaceRune (fst p) (snd p) s) quoteTable jsonStr.

(** The numeric fields of [fixEmptyStringFields], in source order. *)
Definition numericFields : list text :=
  map runes ["leverage"; "position_size_usd"; "stop_loss"; "take_profit";
             "confidence"; "risk_usd"; "new_stop_loss"; "new_take_profit";
             "close_percentage"]%string.

(** The replacement for a field: ["name":null]. *)
Definition field_null (name : text) : text :=
  quote :: name ++ quote :: colon :: runes "null".

(** The pattern ["name"\s*:\s*""] at the head of [s]; the input left
    after the match.  Whitespace cannot be a colon or a quote, so the
    greedy reading of [\s*] is the only one. *)
Definition match_empty_field (name : text) (s : text) : option text :=
  match strip_prefix (quote :: name ++ [quote]) s with
  | Some s1 =>
      match strip_prefix [colon] (skip_ws s1) with
      | Some s2 => strip_prefix [quote; quote] (skip_ws s2)
      | None => None
      end
  | None => None
  end.

Definition empty_field_matcher (name : text) (s : text) : option (text * text) :=
  match match_empty_field name s with
  | Some rest => Some (field_null name, rest)
  | None => None
  end.

(** [p.pattern.ReplaceAllString(jsonStr, p.replacement)] *)
Definition replaceEmptyField (name : text) (s : text) : text :=
  rewriteAll (empty_field_matcher name) s.

Definition fixEmptyStringFields (jsonStr : text) : text :=
  fold_left (fun s name => replaceEmptyField name s) numericFields jsonStr.

(** The pattern [(\d+),(\d{3})] at the head of [s], replaced by [$1$2].
    [\d+] must take the whole run of digits: a shorter run is followed
    by a digit, not by the comma. *)
Definition match_thousands (s : text) : option (text * text) :=
  match span_digits s with
  | (d :: ds, c :: x :: y :: z :: rest) =>
      if (c =? comma) && is_digit x && is_digit y && is_digit z
      then Some ((d :: ds) ++ [x; y; z], rest)
      else None
  | _ => None
  end.

Definition thousandsPass (s : text) : text := rewriteAll match_thousands s.

(** The [for] loop of [fixThousandSeparators]: replace until nothing
    changes.  A pass that changes the text shortens it, so [length s + 1]
    rounds are enough. *)
Fixpoint thousandsLoop (fuel : nat) (jsonStr : text) : text :=
  match fuel with
  | O => jsonStr
  | S f =>
      let newStr := thousandsPass jsonStr in
      if bool_decide (newStr = jsonStr) then jsonStr
      else thousandsLoop f newStr
  end.

Definition fixThousandSeparators (jsonStr : text) : text :=
  thousandsLoop (S (length jsonStr)) jsonStr.

(** The repair pipeline of the specification, made of the four repairs
    in the order [extractDecisions] applies them. *)
Definition repair (s : text) : text :=
  fixThousandSeparators
    (fixEmptyStringFields (fixMissingQuotes (removeInvisibleRunes s))).

(** *** Locating the decision array *)



















Section Extract.
(** [json.Unmarshal([]byte(jsonContent), &decisions)], from the standard
    library: [None] when it returns an error. *)
Variable jsonUnmarshal : text -> option (list Decision).



End Extract.

(** *** Classes of runes and of field names, for the statements about
    the repairs *)

(** What the argument needs of a field name: ASCII letters and
    underscores, so no quote, no digit, and a first rune that is neither
    whitespace nor a colon. *)
Definition plainRune (c : rune) : bool :=
  (0 <=? c) && (c <? 128) && negb (c =? quote) && negb (is_digit c).

Definition nameOk (X : text) : bool :=
  forallb plainRune X
  && match X with
     | c :: _ => negb (is_ws c) && negb (c =? colon)
     | [] => false
     end.

Definition isQuote (c : rune) : bool := c =? quote.

(** What [fixMissingQuotes] does to one rune, and the runes it
    replaces. *)
Definition quoteMap (c : rune) : rune :=
  fold_left (fun c p => if c =? fst p then snd p else c) quoteTable c.

Definition isSource (c : rune) : bool :=
  existsb (fun p => c =? fst p) quoteTable.

(** What the later repairs write is ASCII. *)
Definition asciiRune (c : rune) : Prop := 0 <= c < 128.

End Text.

(** ** The functions of Go's [strings] package the adapter uses *)

Module GoStrings.

Definition chars (s : string) : list ascii := list_ascii_of_string s.

Fixpoint strip_prefix (p s : list ascii) : option (list ascii) :=
  match p with
  | [] => Some s
  | a :: p' =>
      match s with
      | [] => None
      | b :: s' => if Ascii.eqb a b then strip_prefix p' s' else None
      end
  end.

Fixpoint contains_chars (sub s : list ascii) : bool :=
  match strip_prefix sub s with
  | Some _ => true
  | None => match s with [] => false | _ :: s' => contains_chars sub s' end
  end.

(** [strings.Contains(s, substr)] *)
Definition Contains (s substr : string) : bool :=
  contains_chars (chars substr) (chars s).

(** [strings.ReplaceAll(s, old, new)] for a non-empty [old]. *)
Definition ReplaceAll (s old new : string) : string :=
  string_of_list_ascii
    (Text.rewriteAll
       (fun t => match strip_prefix (chars old) t with
                 | Some rest => Some (chars new, rest)
                 | None => None
                 end)
       (chars s)).

(** [strings.TrimSuffix(s, suffix)] *)
Definition TrimSuffix (s suffix : string) : string :=
  match strip_prefix (rev (chars suffix)) (rev (chars s)) with
  | Some r => string_of_list_ascii (rev r)
  | None => s
  end.

Fixpoint dropWhileEq (c : ascii) (s : list ascii) : list ascii :=
  match s with
  | a :: s' => if Ascii.eqb a c then dropWhileEq c s' else s
  | [] => []
  end.

(** [strings.TrimRight(s, cutset)] for a cutset of one character. *)
Definition TrimRight (s : string) (c : ascii) : string :=
  string_of_list_ascii (rev (dropWhileEq c (rev (chars s)))).

Fixpoint index_from (i : Z) (c : ascii) (s : list ascii) : Z :=
  match s with
  | a :: s' => if Ascii.eqb a c then i else index_from (i + 1) c s'
  | [] => -1
  end.

(** [strings.Index(s, substr)] for a substring of one character. *)
Definition Index (s : string) (c : ascii) : Z := index_from 0 c (chars s).

Definition len (s : string) : Z := Z.of_nat (String.length s).

End GoStrings.

(** ** The OKX adapter (trader/okx_trader.go) *)

Module OKX.

(** Values held under [interface{}] in the maps the adapter returns. *)
Inductive value : Type :=
| VFloat (q : Q)
| VString (s : string)
| VInt (z : Z).

(** [v, ok := m[k].(float64)] and [m[k] == "text"] *)
Definition asFloat (v : option value) : option Q :=
  match v with Some (VFloat q) => Some q | _ => None end.

Definition asString (v : option value) : option string :=
  match v with Some (VString s) => Some s | _ => None end.

Definition asInt (v : option value) : option Z :=
  match v with Some (VInt z) => Some z | _ => None end.

Definition isString (v : option value) (s : string) : bool :=
  match v with Some (VString x) => String.eqb x s | _ => false end.

(** A decimal numeral with [scale] digits after the point, as printed by
    [fmt.Sprintf("%.<scale>f", x)]: the text is kept as the integer
    [unscaled], its value is [unscaled / 10^scale]. *)
Record Decimal : Type := mkDecimal { unscaled : Z; scale : Z }.

Definition decimalValue (d : Decimal) : Q :=
  (inject_Z (unscaled d) / inject_Z (10 ^ scale d))%Q.

(** Rounding to the nearest integer, ties to even, the rounding of
    [strconv.FormatFloat]. *)
Definition roundHalfEven (x : Q) : Z :=
  let f := Qfloor x in
  let r := (x - inject_Z f)%Q in
  if Qltb r (1 # 2) then f
  else if Qltb (1 # 2) r then f + 1
  else if Z.even f then f else f + 1.

(** [fmt.Sprintf("%.<precision>f", x)] *)
Definition formatFixed (precision : Z) (x : Q) : Decimal :=
  {| unscaled := roundHalfEven (x * inject_Z (10 ^ precision))%Q;
     scale := precision |}.

(** *** What the venue is asked and what it answers *)

(** The body of [POST /api/v5/trade/order]. *)
Record OrderBody : Type := mkOrderBody {
  instId : string;
  side : string;
  ordType : string;
  sz : Decimal;
  posSide : string;
  reduceOnly : bool;
  slTriggerPx : option Q;
  tpTriggerPx : option Q;
  attachStopLoss : option Q;
  attachTakeProfit : option Q
}.

Inductive Request : Type :=
| GetAccountBalance
| GetAccountPositions
| SetPositionMode (instId mgnMode : string)
| SetLeverageReq (instId : string) (lever : Z) (posSide : string)
| PlaceOrder (body : OrderBody)
| CancelAllAfter (instId : string)
| OrdersPending (instId : string)
| CancelOrder (instId ordId : string)
| Ticker (instId : string)
| Instruments (instId : string).

(** The decoded [data] of a response.  Numeric fields that the adapter
    reads with [strconv.ParseFloat] while dropping the error are given as
    the number read (0 when the text does not parse); the texts whose
    spelling or parse error matters ([lotSz], [last]) stay texts. *)
Record BalanceDetail : Type := mkBalanceDetail {
  ccy : string;
  availEq : Q
}.

Record BalanceEntry : Type := mkBalanceEntry {
  details : list BalanceDetail;
  totalEq : Q;
  isoEq : string;
  adjEq : Q;
  mgnRatio : Q;
  notionalUsd : Q
}.

Record RawPosition : Type := mkRawPosition {
  rp_instId : string;
  rp_pos : Q;
  rp_avgPx : Q;
  rp_markPx : Q;
  rp_upl : Q;
  rp_uplRatio : Q;
  rp_lever : Q;
  rp_liqPx : Q;
  rp_posSide : string;
  rp_mgnMode : string;
  rp_margin : Q;
  rp_notionalUsd : Q;
  rp_imr : Q;
  rp_mmr : Q
}.

Record OrderAck : Type := mkOrderAck {
  ordId : string;
  sCode : string;
  sMsg : string
}.

Record PendingOrder : Type := mkPendingOrder {
  po_ordId : string;
  po_ordType : string;
  po_posSide : string
}.

Inductive Response : Type :=
| BalanceData (l : list BalanceEntry)
| PositionsData (l : list RawPosition)
| OrderData (l : list OrderAck)
| PendingData (l : list PendingOrder)
| TickerData (last : list string)
| InstrumentData (lotSz : list string)
| NoData.

(** The venue behind [makeRequest], the clock and [time.Sleep]. *)
Class Venue (V : Type) : Type := {
  makeRequest : Request -> V -> res string Response * V;
  timeNow : V -> Z;
  timeSleep : Z -> V -> V
}.

(** [strconv.ParseFloat(s, 64)], [None] for an error. *)
Class Strconv : Type := { ParseFloat : string -> option Q }.

(** *** The adapter *)

Definition Balance : Type := gmap string value.
Definition Position : Type := gmap string value.
Definition Order : Type := gmap string value.

(** [type OKXTrader struct], without the credentials and the locks. *)
Record OKXTrader : Type := mkOKXTrader {
  cachedBalance : option Balance;
  balanceCacheTime : Z;
  cachedPositions : option (list Position);
  positionsCacheTime : Z;
  cacheDuration : Z;
  symbolPrecision : gmap string Z;
  symbolLotSz : gmap string Q
}.

Definition second : Z := 1000000000.

(** [NewOKXTrader] *)
Definition NewOKXTrader : OKXTrader :=
  {| cachedBalance := None; balanceCacheTime := 0;
     cachedPositions := None; positionsCacheTime := 0;
     cacheDuration := 10 * second;
     symbolPrecision := ∅; symbolLotSz := ∅ |}.

Definition setBalanceCache (b : Balance) (now : Z) (t : OKXTrader) : OKXTrader :=
  {| cachedBalance := Some b; balanceCacheTime := now;
     cachedPositions := cachedPositions t;
     positionsCacheTime := positionsCacheTime t;
     cacheDuration := cacheDuration t;
     symbolPrecision := symbolPrecision t; symbolLotSz := symbolLotSz t |}.

(** [t.cachedPositions = result]: a [result] to which nothing was
    appended is the [nil] slice. *)
Definition setPositionsCache (ps : list Position) (now : Z) (t : OKXTrader)
  : OKXTrader :=
  {| cachedBalance := cachedBalance t; balanceCacheTime := balanceCacheTime t;
     cachedPositions := match ps with [] => None | _ :: _ => Some ps end;
     positionsCacheTime := now;
     cacheDuration := cacheDuration t;
     symbolPrecision := symbolPrecision t; symbolLotSz := symbolLotSz t |}.

Definition setPrecision (symbol : string) (p : Z) (t : OKXTrader) : OKXTrader :=
  {| cachedBalance := cachedBalance t; balanceCacheTime := balanceCacheTime t;
     cachedPositions := cachedPositions t;
     positionsCacheTime := positionsCacheTime t;
     cacheDuration := cacheDuration t;
     symbolPrecision := <[symbol := p]> (symbolPrecision t);
     symbolLotSz := symbolLotSz t |}.

Definition setLotSz (symbol : string) (l : Q) (t : OKXTrader) : OKXTrader :=
  {| cachedBalance := cachedBalance t; balanceCacheTime := balanceCacheTime t;
     cachedPositions := cachedPositions t;
     positionsCacheTime := positionsCacheTime t;
     cacheDuration := cacheDuration t;
     symbolPrecision := symbolPrecision t;
     symbolLotSz := <[symbol := l]> (symbolLotSz t) |}.

(** [convertSymbolToInstID] *)
Definition convertSymbolToInstID (symbol : string) : string :=
  (GoStrings.TrimSuffix symbol "USDT" ++ "-USDT-SWAP")%string.

(** [calculatePrecisionFromStepSize] *)
Definition calculatePrecisionFromStepSize (stepSize : string) : Z :=
  let stepSize := GoStrings.TrimRight stepSize "0"%char in
  let stepSize := GoStrings.TrimRight stepSize "."%char in
  let dotIndex := GoStrings.Index stepSize "."%char in
  if dotIndex =? -1 then 0
  else GoStrings.len stepSize - dotIndex - 1.

Section Adapter.
Context {V : Type} `{Venue V} `{Strconv}.

(** The adapter together with the venue it talks to. *)
Definition World : Type := (OKXTrader * V)%type.

Definition request (r : Request) : M World Response := fun w =>
  match makeRequest r (snd w) with
  | (Ok d, v') => (Ok d, (fst w, v'))
  | (Err msg, v') => (Err (Transport msg), (fst w, v'))
  end.

Definition now : M World Z := fun w => (Ok (timeNow (snd w)), w).

Definition sleep (d : Z) : M World unit := fun w =>
  (Ok tt, (fst w, timeSleep d (snd w))).

Definition adapter : M World OKXTrader := fun w => (Ok (fst w), w).

Definition update (f : OKXTrader -> OKXTrader) : M World unit := fun w =>
  (Ok tt, (f (fst w), snd w)).

(** The part of [GetBalance] after a cache miss. *)
Definition fetchBalance : M World Balance :=
  r ← attempt (request GetAccountBalance);
  match r with
  | Err e => fail (Wrapped "获取账户信息失败" e)
  | Ok (BalanceData balanceList) =>
      match balanceList with
      | [] => fail (Failure "未找到余额信息")
      | balance :: _ =>
          let availableEq :=
            match List.find (fun d => String.eqb (ccy d) "USDT") (details balance) with
            | Some d => availEq d
            | None => 0%Q
            end in
          let result : Balance :=
            <["isoEq" := VString (isoEq balance)]>
            (<["notionalUsd" := VFloat (notionalUsd balance)]>
            (<["mgnRatio" := VFloat (mgnRatio balance)]>
            (<["totalUnrealizedProfit" := VFloat 0]>
            (<["availableBalance" := VFloat availableEq]>
            (<["totalEquity" := VFloat (adjEq balance)]>
            (<["totalWalletBalance" := VFloat (totalEq balance)]> ∅)))))) in
          t ← now;
          update (setBalanceCache result t);;
          mret result
      end
  | Ok _ => fail (Wrapped "解析余额数据失败" (Failure "json"))
  end.

(** [GetBalance]: the cached map while it is younger than
    [cacheDuration], otherwise a fetch that refills the cache. *)
Definition GetBalance : M World Balance :=
  t ← adapter;
  n ← now;
  match cachedBalance t with
  | Some b =>
      if n - balanceCacheTime t <? cacheDuration t then mret b
      else fetchBalance
  | None => fetchBalance
  end.

(** One entry of the position list, from one venue record. *)
Definition positionOfRaw (pos : RawPosition) : Position :=
  let symbol :=
    GoStrings.ReplaceAll
      (GoStrings.ReplaceAll (rp_instId pos) "-USDT-SWAP" "USDT") "-" EmptyString in
  let posAmt := rp_pos pos in
  let posAmt := if Qltb posAmt 0 then (- posAmt)%Q else posAmt in
  let sideText :=
    if String.eqb (rp_posSide pos) "long" then "long"
    else if String.eqb (rp_posSide pos) "short" then "short"
    else if Qltb 0 (rp_pos pos) then "long" else "short" in
  <["side" := VString sideText]>
  (<["mmr" := VFloat (rp_mmr pos)]>
  (<["imr" := VFloat (rp_imr pos)]>
  (<["marginMode" := VString (rp_mgnMode pos)]>
  (<["notionalUsd" := VFloat (rp_notionalUsd pos)]>
  (<["margin" := VFloat (rp_margin pos)]>
  (<["liquidationPrice" := VFloat (rp_liqPx pos)]>
  (<["leverage" := VFloat (rp_lever pos)]>
  (<["unRealizedProfitRatio" := VFloat (rp_uplRatio pos)]>
  (<["unRealizedProfit" := VFloat (rp_upl pos)]>
  (<["markPrice" := VFloat (rp_markPx pos)]>
  (<["entryPrice" := VFloat (rp_avgPx pos)]>
  (<["positionAmt" := VFloat posAmt]>
  (<["symbol" := VString symbol]> ∅))))))))))))).

(** The loop of [GetPositions]: records with [pos == 0] are skipped. *)
Definition positionsOfRaw (positions : list RawPosition) : list Position :=
  map positionOfRaw (List.filter (fun p => negb (Qeqb (rp_pos p) 0)) positions).

Definition fetchPositions : M World (list Position) :=
  r ← attempt (request GetAccountPositions);
  match r with
  | Err e => fail (Wrapped "获取持仓失败" e)
  | Ok (PositionsData positions) =>
      let result := positionsOfRaw positions in
      t ← now;
      update (setPositionsCache result t);;
      mret result
  | Ok _ => fail (Wrapped "解析持仓数据失败" (Failure "json"))
  end.

(** [GetPositions], cached like [GetBalance]. *)
Definition GetPositions : M World (list Position) :=
  t ← adapter;
  n ← now;
  match cachedPositions t with
  | Some ps =>
      if n - positionsCacheTime t <? cacheDuration t then mret ps
      else fetchPositions
  | None => fetchPositions
  end.

(** [SetMarginMode]: every outcome of the request is reported as success. *)
Definition SetMarginMode (symbol : string) (isCrossMargin : bool) : M World unit :=
  let instID := convertSymbolToInstID symbol in
  let mgnMode := if isCrossMargin then "cross" else "isolated" in
  _ ← attempt (request (SetPositionMode instID mgnMode));
  mret tt.

Definition alreadySet (e : Error) : bool :=
  match e with
  | Transport msg => GoStrings.Contains msg "already" || GoStrings.Contains msg "No need"
  | _ => false
  end.

(** [SetLeverageWithPosSide]: after a change of leverage the adapter
    sleeps five seconds; "already set" answers return at once. *)
Definition SetLeverageWithPosSide (symbol : string) (leverage : Z)
    (posSide : string) : M World unit :=
  let instID := convertSymbolToInstID symbol in
  if String.eqb posSide EmptyString then
    _ ← attempt (request (SetLeverageReq instID leverage "long"));
    r2 ← attempt (request (SetLeverageReq instID leverage "short"));
    match r2 with
    | Err e =>
        if alreadySet e then mret tt else fail (Wrapped "设置杠杆失败" e)
    | Ok _ => sleep (5 * second)
    end
  else
    r ← attempt (request (SetLeverageReq instID leverage posSide));
    match r with
    | Err e =>
        if alreadySet e then mret tt else fail (Wrapped "设置杠杆失败" e)
    | Ok _ => sleep (5 * second)
    end.

(** [SetLeverage] *)
Definition SetLeverage (symbol : string) (leverage : Z) : M World unit :=
  SetLeverageWithPosSide symbol leverage EmptyString.

(** [cancelAllOrdersOneByOne] *)
Definition cancelAllOrdersOneByOne (instID : string) : M World unit :=
  r ← attempt (request (OrdersPending instID));
  match r with
  | Err e => fail (Wrapped "获取未完成订单失败" e)
  | Ok (PendingData orders) =>
      forEach orders (fun order =>
        _ ← attempt (request (CancelOrder instID (po_ordId order)));
        mret tt)
  | Ok _ => fail (Wrapped "解析订单列表失败" (Failure "json"))
  end.

(** [CancelAllOrders] *)
Definition CancelAllOrders (symbol : string) : M World unit :=
  let instID := convertSymbolToInstID symbol in
  r ← attempt (request (CancelAllAfter instID));
  match r with
  | Err _ => cancelAllOrdersOneByOne instID
  | Ok _ => mret tt
  end.

(** The shared body of [CancelStopLossOrders], [CancelTakeProfitOrders]
    and [CancelStopOrders]: the pending orders whose type is in [kinds]
    are cancelled one by one, failures being skipped. *)
Definition cancelOrdersOfType (kinds : list string) (symbol : string)
  : M World unit :=
  let instID := convertSymbolToInstID symbol in
  r ← attempt (request (OrdersPending instID));
  match r with
  | Err e => fail (Wrapped "获取未完成订单失败" e)
  | Ok (PendingData orders) =>
      forEach orders (fun order =>
        if existsb (String.eqb (po_ordType order)) kinds then
          _ ← attempt (request (CancelOrder instID (po_ordId order)));
          mret tt
        else mret tt)
  | Ok _ => fail (Wrapped "解析订单列表失败" (Failure "json"))
  end.

Definition CancelStopLossOrders : string -> M World unit :=
  cancelOrdersOfType ["stop_market"; "stop"]%string.

Definition CancelTakeProfitOrders : string -> M World unit :=
  cancelOrdersOfType ["take_profit_market"; "take_profit"]%string.

Definition CancelStopOrders : string -> M World unit :=
  cancelOrdersOfType ["stop_market"; "take_profit_market"; "stop"; "take_profit"]%string.

(** [GetMarketPrice] *)
Definition GetMarketPrice (symbol : string) : M World Q :=
  let instID := convertSymbolToInstID symbol in
  r ← attempt (request (Ticker instID));
  match r with
  | Err e => fail (Wrapped "获取价格失败" e)
  | Ok (TickerData tickers) =>
      match tickers with
      | [] => fail (Failure "未找到价格")
      | last :: _ =>
          match ParseFloat last with
          | Some price => mret price
          | None => fail (Failure "strconv.ParseFloat")
          end
      end
  | Ok _ => fail (Wrapped "解析价格数据失败" (Failure "json"))
  end.

(** [GetSymbolPrecision]: cached per symbol; every failure gives the
    default 3, which is not cached. *)
Definition GetSymbolPrecision (symbol : string) : M World Z :=
  t ← adapter;
  match symbolPrecision t !! symbol with
  | Some precision => mret precision
  | None =>
      let instID := convertSymbolToInstID symbol in
      r ← attempt (request (Instruments instID));
      match r with
      | Ok (InstrumentData (lotSz :: _)) =>
          let precision := calculatePrecisionFromStepSize lotSz in
          update (setPrecision symbol precision);;
          mret precision
      | _ => mret 3
      end
  end.

(** [GetSymbolLotSz]: cached per symbol; every failure gives, and
    caches, the default 0.0001. *)
Definition GetSymbolLotSz (symbol : string) : M World Q :=
  t ← adapter;
  match symbolLotSz t !! symbol with
  | Some lotSz => mret lotSz
  | None =>
      let instID := convertSymbolToInstID symbol in
      r ← attempt (request (Instruments instID));
      let lotSz :=
        match r with
        | Ok (InstrumentData (text :: _)) =>
            match ParseFloat text with
            | Some l => l
            | None => (1 # 10000)%Q
            end
        | _ => (1 # 10000)%Q
        end in
      update (setLotSz symbol lotSz);;
      mret lotSz
  end.

(** The rounding inside [FormatQuantity]: a positive quantity below one
    lot becomes one lot, a quantity of at least one lot becomes
    [math.Ceil(quantity / lotSz) * lotSz]; other quantities are kept. *)
Definition roundToLot (lotSz quantity : Q) : Q :=
  if Qltb 0 quantity then
    if Qltb quantity lotSz then lotSz
    else (inject_Z (Qceiling (quantity / lotSz)) * lotSz)%Q
  else quantity.

(** [FormatQuantity] *)
Definition FormatQuantity (symbol : string) (quantity : Q) : M World Decimal :=
  p ← attempt (GetSymbolPrecision symbol);
  match p with
  | Err _ => mret (formatFixed 8 quantity)
  | Ok precision =>
      l ← attempt (GetSymbolLotSz symbol);
      let lotSz := match l with Ok lotSz => lotSz | Err _ => (1 # 10000)%Q end in
      mret (formatFixed precision (roundToLot lotSz quantity))
  end.

Definition positive (x : Q) : option Q := if Qltb 0 x then Some x else None.

Definition availableOf (balance : Balance) : Q :=
  default 0%Q (asFloat (balance !! "availableBalance")).

Definition orderResult (symbol : string) (order : OrderAck) : Order :=
  <["status" := VString "filled"]>
  (<["symbol" := VString symbol]>
  (<["orderId" := VString (ordId order)]> ∅)).

(** The checks of stop-loss and take-profit against the current price,
    [OpenLong] for [isLong], [OpenShort] otherwise. *)
Definition priceSanity (isLong : bool) (currentPrice : Q) (leverage : Z)
    (stopLoss takeProfit : Q) : option Error :=
  let lev := inject_Z leverage in
  if isLong then
    let liquidationPrice := (currentPrice * (1 - 1 / lev))%Q in
    if Qltb 0 stopLoss && Qleb currentPrice stopLoss then
      Some (StopLossVsPrice "long" stopLoss currentPrice)
    else if Qltb 0 stopLoss && Qleb stopLoss liquidationPrice then
      Some (StopLossVsLiquidation "long" stopLoss liquidationPrice)
    else if Qltb 0 takeProfit && Qleb takeProfit currentPrice then
      Some (TakeProfitVsPrice "long" takeProfit currentPrice)
    else if Qltb 0 takeProfit && Qltb 0 stopLoss && Qleb takeProfit stopLoss then
      Some (StopLossVsTakeProfit "long" stopLoss takeProfit)
    else None
  else
    let liquidationPrice := (currentPrice * (1 + 1 / lev))%Q in
    if Qltb 0 stopLoss && Qleb stopLoss currentPrice then
      Some (StopLossVsPrice "short" stopLoss currentPrice)
    else if Qltb 0 stopLoss && Qleb liquidationPrice stopLoss then
      Some (StopLossVsLiquidation "short" stopLoss liquidationPrice)
    else if Qltb 0 takeProfit && Qleb currentPrice takeProfit then
      Some (TakeProfitVsPrice "short" takeProfit currentPrice)
    else if Qltb 0 takeProfit && Qltb 0 stopLoss && Qleb stopLoss takeProfit then
      Some (StopLossVsTakeProfit "short" stopLoss takeProfit)
    else None.

(** The second half of [OpenLong] and [OpenShort], after the margin
    check: price sanity, the market order with its attached stop orders,
    and the reading of the venue's answer.  The failure paths look at the
    price and the balance again for their log lines. *)
Definition submitOpen (isLong : bool) (symbol : string) (quantityStr : Decimal)
    (leverage : Z) (stopLoss takeProfit currentPrice : Q) : M World Order :=
  match priceSanity isLong currentPrice leverage stopLoss takeProfit with
  | Some e => fail e
  | None =>
      let context := if isLong then "开多仓失败" else "开空仓失败" in
      let reqBody :=
        {| instId := convertSymbolToInstID symbol;
           side := if isLong then "buy" else "sell";
           ordType := "market";
           sz := quantityStr;
           posSide := if isLong then "long" else "short";
           reduceOnly := false;
           slTriggerPx := None; tpTriggerPx := None;
           attachStopLoss := positive stopLoss;
           attachTakeProfit := positive takeProfit |} in
      r ← attempt (request (PlaceOrder reqBody));
      match r with
      | Err e =>
          _ ← attempt GetBalance;
          fail (Wrapped context e)
      | Ok (OrderData orderResp) =>
          match orderResp with
          | [] => fail (Failure "订单响应为空")
          | order :: _ =>
              if negb (String.eqb (sCode order) "0") then
                _ ← attempt (GetMarketPrice symbol);
                _ ← attempt GetBalance;
                fail (OrderRejected context (sCode order) (sMsg order))
              else mret (orderResult symbol order)
          end
      | Ok _ => fail (Wrapped "解析订单响应失败" (Failure "json"))
      end
  end.

(** The first steps of [OpenLong] and [OpenShort]: old orders are
    cancelled, leverage is set, price and balance are read, and the
    quantity is rounded and formatted.  They give the current price, the
    balance map and the formatted quantity. *)
Definition prepareOpen (isLong : bool) (symbol : string) (quantity : Q)
    (leverage : Z) : M World (Q * Balance * Decimal) :=
  _ ← attempt (CancelAllOrders symbol);
  SetLeverageWithPosSide symbol leverage (if isLong then "long" else "short");;
  p ← attempt (GetMarketPrice symbol);
  match p with
  | Err e => fail (Wrapped "获取当前价格失败" e)
  | Ok currentPrice =>
      b ← attempt GetBalance;
      match b with
      | Err e => fail (Wrapped "获取账户余额失败" e)
      | Ok balance =>
          quantityStr ← FormatQuantity symbol quantity;
          mret (currentPrice, balance, quantityStr)
      end
  end.

(** [formattedMarginRequired] *)
Definition marginRequired (quantityStr : Decimal) (currentPrice : Q)
    (leverage : Z) : Q :=
  (decimalValue quantityStr * currentPrice / inject_Z leverage)%Q.

(** The error of the margin check, built after one more look at the lot
    size. *)
Definition rejectForMargin (symbol : string) (quantityStr : Decimal)
    (currentPrice : Q) (leverage : Z) (availableBalance : Q) : M World Order :=
  l ← attempt (GetSymbolLotSz symbol);
  let lotSz := match l with Ok x => x | Err _ => 0%Q end in
  let minPositionValue := (lotSz * currentPrice)%Q in
  let minMarginRequired := (minPositionValue / inject_Z leverage)%Q in
  fail (InsufficientMargin (marginRequired quantityStr currentPrice leverage)
          availableBalance lotSz minPositionValue minMarginRequired).

(** [OpenLong] for [isLong], [OpenShort] otherwise: after the first
    steps, the margin that the formatted quantity needs is compared with
    the available balance.  The test [formattedQuantity > quantity*1.1]
    that follows in the source only writes a log line, to which nothing
    corresponds here. *)
Definition openPosition (isLong : bool) (symbol : string) (quantity : Q)
    (leverage : Z) (stopLoss takeProfit : Q) : M World Order :=
  prepared ← prepareOpen isLong symbol quantity leverage;
  let '(currentPrice, balance, quantityStr) := prepared in
  let availableBalance := availableOf balance in
  if Qltb availableBalance (marginRequired quantityStr currentPrice leverage) then
    rejectForMargin symbol quantityStr currentPrice leverage availableBalance
  else
    submitOpen isLong symbol quantityStr leverage stopLoss takeProfit currentPrice.

(** [OpenLong] *)
Definition OpenLong (symbol : string) (quantity : Q) (leverage : Z)
    (stopLoss takeProfit : Q) : M World Order :=
  openPosition true symbol quantity leverage stopLoss takeProfit.

(** [OpenShort] *)
Definition OpenShort (symbol : string) (quantity : Q) (leverage : Z)
    (stopLoss takeProfit : Q) : M World Order :=
  openPosition false symbol quantity leverage stopLoss takeProfit.

(** The quantity a close of "everything" uses: that of the first
    position of the symbol and side in the list, 0 when there is none.
    [CloseShort] negates the amount it finds.  The type assertion
    [pos["positionAmt"].(float64)] panics on a missing or non-float entry. *)
Fixpoint heldQuantity (isLong : bool) (symbol : string)
    (positions : list Position) : res Error Q :=
  match positions with
  | [] => Ok 0%Q
  | pos :: rest =>
      if isString (pos !! "symbol") symbol
         && isString (pos !! "side") (if isLong then "long" else "short") then
        match asFloat (pos !! "positionAmt") with
        | Some amt => Ok (if isLong then amt else (- amt)%Q)
        | None => Err (Panic "positionAmt")
        end
      else heldQuantity isLong symbol rest
  end.

(** [CloseLong] for [isLong], [CloseShort] otherwise. *)
Definition closePosition (isLong : bool) (symbol : string) (quantity : Q)
  : M World Order :=
  quantity ←
    (if Qeqb quantity 0 then
       positions ← GetPositions;
       match heldQuantity isLong symbol positions with
       | Err e => fail e
       | Ok q =>
           if Qeqb q 0
           then fail (NoPosition symbol (if isLong then "long" else "short"))
           else mret q
       end
     else mret quantity);
  let context := if isLong then "平多仓失败" else "平空仓失败" in
  quantityStr ← FormatQuantity symbol quantity;
  let reqBody :=
    {| instId := convertSymbolToInstID symbol;
       side := if isLong then "sell" else "buy";
       ordType := "market";
       sz := quantityStr;
       posSide := if isLong then "long" else "short";
       reduceOnly := true;
       slTriggerPx := None; tpTriggerPx := None;
       attachStopLoss := None; attachTakeProfit := None |} in
  r ← attempt (request (PlaceOrder reqBody));
  match r with
  | Err e => fail (Wrapped context e)
  | Ok (OrderData orderResp) =>
      match orderResp with
      | [] => fail (Failure "订单响应为空")
      | order :: _ =>
          if negb (String.eqb (sCode order) "0") then
            fail (OrderRejected context (sCode order) (sMsg order))
          else
            _ ← attempt (CancelAllOrders symbol);
            mret (orderResult symbol order)
      end
  | Ok _ => fail (Wrapped "解析订单响应失败" (Failure "json"))
  end.

Definition CloseLong : string -> Q -> M World Order := closePosition true.
Definition CloseShort : string -> Q -> M World Order := closePosition false.

(** [SetStopLoss] for [isStop], [SetTakeProfit] otherwise. *)
Definition setProtection (isStop : bool) (symbol positionSide : string)
    (quantity price : Q) : M World unit :=
  quantityStr ← FormatQuantity symbol quantity;
  let reqBody :=
    {| instId := convertSymbolToInstID symbol;
       side := if String.eqb positionSide "SHORT" then "buy" else "sell";
       ordType := if isStop then "stop_market" else "take_profit_market";
       sz := quantityStr;
       posSide := positionSide;
       reduceOnly := true;
       slTriggerPx := if isStop then Some price else None;
       tpTriggerPx := if isStop then None else Some price;
       attachStopLoss := None; attachTakeProfit := None |} in
  r ← attempt (request (PlaceOrder reqBody));
  match r with
  | Err e => fail (Wrapped (if isStop then "设置止损失败" else "设置止盈失败") e)
  | Ok _ => mret tt
  end.

Definition SetStopLoss : string -> string -> Q -> Q -> M World unit :=
  setProtection true.
Definition SetTakeProfit : string -> string -> Q -> Q -> M World unit :=
  setProtection false.

(** The mutations of the adapter, for statements about all of them. *)
Inductive Mutation : Type :=
| MOpenLong (symbol : string) (quantity : Q) (leverage : Z) (stopLoss takeProfit : Q)
| MOpenShort (symbol : string) (quantity : Q) (leverage : Z) (stopLoss takeProfit : Q)
| MCloseLong (symbol : string) (quantity : Q)
| MCloseShort (symbol : string) (quantity : Q)
| MSetStopLoss (symbol positionSide : string) (quantity stopPrice : Q)
| MSetTakeProfit (symbol positionSide : string) (quantity takeProfitPrice : Q)
| MCancelStopLossOrders (symbol : string)
| MCancelTakeProfitOrders (symbol : string)
| MCancelAllOrders (symbol : string)
| MCancelStopOrders (symbol : string).

(** Running a mutation; only success or failure is kept of the result. *)
Definition forget {A} (m : M World A) : M World unit := _ ← m; mret tt.

Definition mutate (m : Mutation) : M World unit :=
  match m with
  | MOpenLong s q l sl tp => forget (OpenLong s q l sl tp)
  | MOpenShort s q l sl tp => forget (OpenShort s q l sl tp)
  | MCloseLong s q => forget (CloseLong s q)
  | MCloseShort s q => forget (CloseShort s q)
  | MSetStopLoss s ps q p => SetStopLoss s ps q p
  | MSetTakeProfit s ps q p => SetTakeProfit s ps q p
  | MCancelStopLossOrders s => CancelStopLossOrders s
  | MCancelTakeProfitOrders s => CancelTakeProfitOrders s
  | MCancelAllOrders s => CancelAllOrders s
  | MCancelStopOrders s => CancelStopOrders s
  end.

(** The mutations that read a cache themselves: an open reads the
    balance, a close of "everything" reads the positions. *)
Definition readsBalance (m : Mutation) : bool :=
  match m with MOpenLong _ _ _ _ _ | MOpenShort _ _ _ _ _ => true | _ => false end.

Definition readsPositions (m : Mutation) : bool :=
  match m with
  | MCloseLong _ q | MCloseShort _ q => Qeqb q 0
  | _ => false
  end.
End Adapter.

(** What a read of the positions, and of the balance, looks at in the
    adapter: the cached value, its time stamp and the cache duration. *)
Definition positionsView (t : OKXTrader) : option (list Position) * Z * Z :=
  (cachedPositions t, positionsCacheTime t, cacheDuration t).

Definition balanceView (t : OKXTrader) : option Balance * Z * Z :=
  (cachedBalance t, balanceCacheTime t, cacheDuration t).

(** A computation leaves a view of the adapter as it found it, on every
    path, failing or not. *)
Definition keeps {V X A : Type} (view : OKXTrader -> X) (m : M (@World V) A)
  : Prop :=
  forall w, view (fst (snd (m w))) = view (fst w).

End OKX.

(** ** The trader engine (AutoTrader, mcp/client.go) *)

Module Engine.
Import Decisions.
Export OKX.

(** The methods of the [Trader] interface the engine calls in the code
    below; [OKXTrader] is the implementation at hand. *)
Class Trader (T : Type) : Type := {
  GetBalance : M T Balance;
  GetPositions : M T (list Position);
  OpenLong : string -> Q -> Z -> Q -> Q -> M T Order;
  OpenShort : string -> Q -> Z -> Q -> Q -> M T Order;
  CloseLong : string -> Q -> M T Order;
  CloseShort : string -> Q -> M T Order;
  SetMarginMode : string -> bool -> M T unit
}.

(** What surrounds an [AutoTrader]: its trader, the wall clock,
    [market.Get] (of which the engine reads [CurrentPrice]) and the
    database method [UpdateTraderInitialBalance]. *)
Class Host (E : Type) : Type := {
  hostTrader :: Trader E;
  clock : E -> Z;
  marketGet : string -> M E Q;
  UpdateTraderInitialBalance : string -> string -> Q -> M E unit
}.

(** [OKXTrader] implements [Trader]. *)
#[global] Instance okxTrader {V : Type} `{Venue V} `{Strconv}
  : Trader (@World V) :=
  {| GetBalance := OKX.GetBalance;
     GetPositions := OKX.GetPositions;
     OpenLong := OKX.OpenLong;
     OpenShort := OKX.OpenShort;
     CloseLong := OKX.CloseLong;
     CloseShort := OKX.CloseShort;
     SetMarginMode := OKX.SetMarginMode |}.

(** An engine whose trader is the OKX adapter, with some [market.Get]
    and some database around it. *)
Definition okxHost {V : Type} `{Venue V} `{Strconv}
    (market : string -> M (@World V) Q)
    (updateInitialBalance : string -> string -> Q -> M (@World V) unit)
  : Host (@World V) :=
  {| hostTrader := okxTrader;
     clock := fun w => timeNow (snd w);
     marketGet := market;
     UpdateTraderInitialBalance := updateInitialBalance |}.

(** [at.database]: [nil], a value without the update method, or one
    with it. *)
Inductive Database : Type :=
| NoDatabase
| OtherDatabase
| UpdaterDatabase.

(** The fields of [type AutoTrader struct] the code below reads or
    writes. *)
Record AutoTrader : Type := mkAutoTrader {
  id : string;
  name : string;
  userID : string;
  isCrossMargin : bool;
  initialBalance : Q;
  lastBalanceSyncTime : Z;
  positionFirstSeenTime : gmap string Z;
  peakPnLCache : gmap string Q;
  database : Database
}.

Definition withInitialBalance (b : Q) (a : AutoTrader) : AutoTrader :=
  {| id := id a; name := name a; userID := userID a;
     isCrossMargin := isCrossMargin a;
     initialBalance := b;
     lastBalanceSyncTime := lastBalanceSyncTime a;
     positionFirstSeenTime := positionFirstSeenTime a;
     peakPnLCache := peakPnLCache a; database := database a |}.

Definition withLastBalanceSyncTime (t : Z) (a : AutoTrader) : AutoTrader :=
  {| id := id a; name := name a; userID := userID a;
     isCrossMargin := isCrossMargin a;
     initialBalance := initialBalance a;
     lastBalanceSyncTime := t;
     positionFirstSeenTime := positionFirstSeenTime a;
     peakPnLCache := peakPnLCache a; database := database a |}.

Definition withPositionFirstSeenTime (m : gmap string Z) (a : AutoTrader)
  : AutoTrader :=
  {| id := id a; name := name a; userID := userID a;
     isCrossMargin := isCrossMargin a;
     initialBalance := initialBalance a;
     lastBalanceSyncTime := lastBalanceSyncTime a;
     positionFirstSeenTime := m;
     peakPnLCache := peakPnLCache a; database := database a |}.

Definition withPeakPnLCache (m : gmap string Q) (a : AutoTrader) : AutoTrader :=
  {| id := id a; name := name a; userID := userID a;
     isCrossMargin := isCrossMargin a;
     initialBalance := initialBalance a;
     lastBalanceSyncTime := lastBalanceSyncTime a;
     positionFirstSeenTime := positionFirstSeenTime a;
     peakPnLCache := m; database := database a |}.

(** [logger.DecisionAction], the fields the executors fill. *)
Record DecisionAction : Type := mkDecisionAction {
  Quantity : Q;
  Price : Q;
  OrderID : Z
}.

Definition minute : Z := 60 * second.
Definition millisecond : Z := 1000000.

Section AutoTraderMethods.
Context {E : Type} `{Host E}.

(** An [AutoTrader] with its surroundings. *)
Definition State : Type := (AutoTrader * E)%type.

(** A call through [at.trader], [market.Get] or the database. *)
Definition outside {A} (m : M E A) : M State A := fun s =>
  let '(r, e') := m (snd s) in (r, (fst s, e')).

Definition self : M State AutoTrader := fun s => (Ok (fst s), s).

Definition modify (f : AutoTrader -> AutoTrader) : M State unit := fun s =>
  (Ok tt, (f (fst s), snd s)).

Definition timeNowE : M State Z := fun s => (Ok (clock (snd s)), s).

(** The block that follows each assignment to [at.initialBalance]: the
    new value is written to the database when there is one with the
    update method; a failure there is logged only. *)
Definition persistInitialBalance (actualBalance : Q) : M State unit :=
  a ← self;
  match database a with
  | UpdaterDatabase =>
      _ ← attempt (outside (UpdateTraderInitialBalance (userID a) (id a) actualBalance));
      mret tt
  | _ => mret tt
  end.

(** [v, ok := m[k].(float64); ok && v > 0] *)
Definition positiveFloat (v : option value) : option Q :=
  match asFloat v with
  | Some x => if Qltb 0 x then Some x else None
  | None => None
  end.

(** The balance [autoSyncBalanceIfNeeded] extracts: the first of the
    three entries that is a positive float. *)
Definition usableBalance (balanceInfo : Balance) : option Q :=
  match positiveFloat (balanceInfo !! "available_balance") with
  | Some availableBalance => Some availableBalance
  | None =>
      match positiveFloat (balanceInfo !! "availableBalance") with
      | Some availableBalance => Some availableBalance
      | None => positiveFloat (balanceInfo !! "balance")
      end
  end.

Definition stampSync : M State unit :=
  t ← timeNowE; modify (withLastBalanceSyncTime t).

(** [autoSyncBalanceIfNeeded] *)
Definition autoSyncBalanceIfNeeded : M State unit :=
  a ← self;
  n ← timeNowE;
  if n - lastBalanceSyncTime a <? 10 * minute then mret tt
  else
    r ← attempt (outside GetBalance);
    match r with
    | Err _ => stampSync
    | Ok balanceInfo =>
        match usableBalance balanceInfo with
        | None => stampSync
        | Some actualBalance =>
            a ← self;
            let oldBalance := initialBalance a in
            if Qleb oldBalance 0 then
              modify (withInitialBalance actualBalance);;
              persistInitialBalance actualBalance;;
              stampSync
            else
              let changePercent :=
                ((actualBalance - oldBalance) / oldBalance * 100)%Q in
              (if Qltb 5 (Qabs changePercent) then
                 modify (withInitialBalance actualBalance);;
                 persistInitialBalance actualBalance
               else mret tt);;
              stampSync
        end
    end.

(** The duplicate check of the open executors: a position of the list
    with this symbol and side. *)
Definition holds (symbol sideText : string) (positions : list Position) : bool :=
  existsb (fun pos => isString (pos !! "symbol") symbol
                      && isString (pos !! "side") sideText) positions.

Definition recordOrderID (order : Order) (r : DecisionAction) : DecisionAction :=
  match asInt (order !! "orderId") with
  | Some n => {| Quantity := Quantity r; Price := Price r; OrderID := n |}
  | None => r
  end.

(** The part the two open executors share once the duplicate check has
    passed: price, quantity, margin mode, the adapter's open, and the
    first-seen time.  The executor returns its error next to the action
    record it has filled so far. *)
Definition openAfterCheck (isLong : bool) (wrap : bool) (decision : Decision)
    (actionRecord : DecisionAction) : M State (option Error * DecisionAction) :=
  p ← attempt (outside (marketGet (Symbol decision)));
  match p with
  | Err e =>
      mret (Some (if wrap then Wrapped "获取市场数据失败" e else e), actionRecord)
  | Ok currentPrice =>
      let quantity := (PositionSizeUSD decision / currentPrice)%Q in
      let actionRecord :=
        {| Quantity := quantity; Price := currentPrice;
           OrderID := OrderID actionRecord |} in
      a ← self;
      _ ← attempt (outside (SetMarginMode (Symbol decision) (isCrossMargin a)));
      o ← attempt (outside
             ((if isLong then OpenLong else OpenShort)
                (Symbol decision) quantity (Leverage decision)
                (StopLoss decision) (TakeProfit decision)));
      match o with
      | Err e =>
          mret (Some (if wrap then Wrapped "开多仓失败" e else e), actionRecord)
      | Ok order =>
          let actionRecord := recordOrderID order actionRecord in
          t ← timeNowE;
          let posKey :=
            (Symbol decision ++ (if isLong then "_long" else "_short"))%string in
          a ← self;
          modify (withPositionFirstSeenTime
                    (<[posKey := t / millisecond]> (positionFirstSeenTime a)));;
          mret (None, actionRecord)
      end
  end.

(** [executeOpenLongWithRecord]: a failed read of the positions fails
    the action. *)
Definition executeOpenLongWithRecord (decision : Decision)
    (actionRecord : DecisionAction) : M State (option Error * DecisionAction) :=
  r ← attempt (outside GetPositions);
  match r with
  | Err e => mret (Some (Wrapped "获取持仓列表失败" e), actionRecord)
  | Ok positions =>
      if holds (Symbol decision) "long" positions then
        mret (Some (AlreadyOpen (Symbol decision) "long"), actionRecord)
      else openAfterCheck true true decision actionRecord
  end.

(** [executeOpenShortWithRecord]: the duplicate check runs only when the
    read of the positions succeeds. *)
Definition executeOpenShortWithRecord (decision : Decision)
    (actionRecord : DecisionAction) : M State (option Error * DecisionAction) :=
  r ← attempt (outside GetPositions);
  match r with
  | Err _ => openAfterCheck false false decision actionRecord
  | Ok positions =>
      if holds (Symbol decision) "short" positions then
        mret (Some (AlreadyOpen (Symbol decision) "short"), actionRecord)
      else openAfterCheck false false decision actionRecord
  end.

(** *** The drawdown monitor *)

(** [int(lev)]: truncation toward zero. *)
Definition truncate (x : Q) : Z :=
  if Qltb x 0 then Qceiling x else Qfloor x.

(** The leverage [checkPositionDrawdown] uses: 10 unless the position
    carries a float. *)
Definition leverageOf (pos : Position) : Z :=
  match asFloat (pos !! "leverage") with
  | Some lev => truncate lev
  | None => 10
  end.

(** [currentPnLPct] of [checkPositionDrawdown]. *)
Definition pnlPct (sideText : string) (entryPrice markPrice : Q) (leverage : Z) : Q :=
  if String.eqb sideText "long" then
    ((markPrice - entryPrice) / entryPrice * inject_Z leverage * 100)%Q
  else
    ((entryPrice - markPrice) / entryPrice * inject_Z leverage * 100)%Q.

(** [drawdownPct] of [checkPositionDrawdown]. *)
Definition drawdownPct (peakPnLPct currentPnLPct : Q) : Q :=
  if Qltb 0 peakPnLPct && Qltb currentPnLPct peakPnLPct then
    ((peakPnLPct - currentPnLPct) / peakPnLPct * 100)%Q
  else 0%Q.

(** The condition of the emergency close. *)
Definition shouldClose (peakPnLPct currentPnLPct : Q) : bool :=
  Qltb 5 currentPnLPct && Qleb 40 (drawdownPct peakPnLPct currentPnLPct).

(** [UpdatePeakPnL] *)
Definition UpdatePeakPnL (symbol : string) (currentPnLPct : Q) : M State unit :=
  a ← self;
  match peakPnLCache a !! symbol with
  | Some peak =>
      if Qltb peak currentPnLPct then
        modify (withPeakPnLCache (<[symbol := currentPnLPct]> (peakPnLCache a)))
      else mret tt
  | None =>
      modify (withPeakPnLCache (<[symbol := currentPnLPct]> (peakPnLCache a)))
  end.

(** [ClearPeakPnLCache] *)
Definition ClearPeakPnLCache (symbol : string) : M State unit :=
  a ← self;
  modify (withPeakPnLCache (delete symbol (peakPnLCache a))).

(** What [emergencyClosePosition] asks of the trader: a close of the
    whole side (quantity 0), or nothing for a side it does not know. *)
Definition closeSide (symbol sideText : string) : M E unit :=
  if String.eqb sideText "long" then
    _ ← CloseLong symbol 0; mret tt
  else if String.eqb sideText "short" then
    _ ← CloseShort symbol 0; mret tt
  else fail (UnknownSide sideText).

(** [emergencyClosePosition] *)
Definition emergencyClosePosition (symbol sideText : string) : M State unit :=
  outside (closeSide symbol sideText).

(** What the loop of [checkPositionDrawdown] reads of a position; the
    unchecked type assertions panic when an entry is missing. *)
Record Held : Type := mkHeld {
  h_symbol : string;
  h_side : string;
  h_entryPrice : Q;
  h_markPrice : Q;
  h_leverage : Z
}.

Definition heldOf (pos : Position) : option Held :=
  match asString (pos !! "symbol"), asString (pos !! "side"),
        asFloat (pos !! "entryPrice"), asFloat (pos !! "markPrice"),
        asFloat (pos !! "positionAmt") with
  | Some symbol, Some sideText, Some entryPrice, Some markPrice, Some _ =>
      Some {| h_symbol := symbol; h_side := sideText;
              h_entryPrice := entryPrice; h_markPrice := markPrice;
              h_leverage := leverageOf pos |}
  | _, _, _, _, _ => None
  end.

Definition currentOf (h : Held) : Q :=
  pnlPct (h_side h) (h_entryPrice h) (h_markPrice h) (h_leverage h).

(** The body of the loop of [checkPositionDrawdown], for one position. *)
Definition checkOne (pos : Position) : M State unit :=
  match heldOf pos with
  | None => fail (Panic "interface conversion")
  | Some h =>
      let symbol := h_symbol h in
      let currentPnLPct := currentOf h in
      a ← self;
      let peakPnLPct := default currentPnLPct (peakPnLCache a !! symbol) in
      UpdatePeakPnL symbol currentPnLPct;;
      if shouldClose peakPnLPct currentPnLPct then
        r ← attempt (emergencyClosePosition symbol (h_side h));
        match r with
        | Err _ => mret tt
        | Ok _ => ClearPeakPnLCache symbol
        end
      else mret tt
  end.

End AutoTraderMethods.

(** The calls that reach the trader, for statements about what an
    engine method asks of it. *)
Inductive Call : Type :=
| CallGetBalance
| CallGetPositions
| CallOpenLong (symbol : string) (quantity : Q) (leverage : Z) (stopLoss takeProfit : Q)
| CallOpenShort (symbol : string) (quantity : Q) (leverage : Z) (stopLoss takeProfit : Q)
| CallCloseLong (symbol : string) (quantity : Q)
| CallCloseShort (symbol : string) (quantity : Q)
| CallSetMarginMode (symbol : string) (isCrossMargin : bool).

(** The same call on the trader, noted at the end of the trace. *)
Definition traced {E A} (c : Call) (m : M E A) : M (E * list Call) A := fun s =>
  let '(r, e') := m (fst s) in (r, (e', snd s ++ [c])).

Definition untraced {E A} (m : M E A) : M (E * list Call) A := fun s =>
  let '(r, e') := m (fst s) in (r, (e', snd s)).

(** A trader that keeps the trace of the calls it receives. *)
#[global] Instance tracedTrader {E : Type} `{Trader E} : Trader (E * list Call) :=
  {| GetBalance := traced CallGetBalance GetBalance;
     GetPositions := traced CallGetPositions GetPositions;
     OpenLong := fun s q l sl tp => traced (CallOpenLong s q l sl tp) (OpenLong s q l sl tp);
     OpenShort := fun s q l sl tp => traced (CallOpenShort s q l sl tp) (OpenShort s q l sl tp);
     CloseLong := fun s q => traced (CallCloseLong s q) (CloseLong s q);
     CloseShort := fun s q => traced (CallCloseShort s q) (CloseShort s q);
     SetMarginMode := fun s c => traced (CallSetMarginMode s c) (SetMarginMode s c) |}.

#[global] Instance tracedHost {E : Type} `{Host E} : Host (E * list Call) :=
  {| hostTrader := tracedTrader;
     clock := fun s => clock (fst s);
     marketGet := fun symbol => untraced (marketGet symbol);
     UpdateTraderInitialBalance := fun u i b =>
       untraced (UpdateTraderInitialBalance u i b) |}.

(** The close [emergencyClosePosition] asks for, by side. *)
Definition closeCall (symbol sideText : string) : list Call :=
  if String.eqb sideText "long" then [CallCloseLong symbol 0]
  else if String.eqb sideText "short" then [CallCloseShort symbol 0]
  else [].

(** The peak the monitor keeps for a symbol after seeing a return. *)
Definition maintainedPeak (peak : option Q) (currentPnLPct : Q) : Q :=
  match peak with
  | Some p => if Qltb p currentPnLPct then currentPnLPct else p
  | None => currentPnLPct
  end.


End Engine.

(** ** A small venue for the worked examples

    A venue that keeps one list of positions and one balance, answers
    every request unless it is switched to fail, and advances its clock
    by one millisecond per request.  It only serves to run the adapter
    and the engine on concrete inputs. *)

Module Fixture.
Import Decisions.
Import Engine.

Record Exchange : Type := mkExchange {
  time : Z;
  held : list RawPosition;
  available : Q;
  lastPrice : string;
  lotSize : string;
  balanceDown : bool;
  ordersDown : bool
}.

Definition tick (d : Z) (x : Exchange) : Exchange :=
  {| time := time x + d; held := held x; available := available x;
     lastPrice := lastPrice x; lotSize := lotSize x;
     balanceDown := balanceDown x; ordersDown := ordersDown x |}.

Definition withHeld (l : list RawPosition) (x : Exchange) : Exchange :=
  {| time := time x; held := l; available := available x;
     lastPrice := lastPrice x; lotSize := lotSize x;
     balanceDown := balanceDown x; ordersDown := ordersDown x |}.

Definition rawPosition (inst sideText : string) (amount entry mark lever : Q)
  : RawPosition :=
  {| rp_instId := inst; rp_pos := amount; rp_avgPx := entry; rp_markPx := mark;
     rp_upl := 0; rp_uplRatio := 0; rp_lever := lever; rp_liqPx := 0;
     rp_posSide := sideText; rp_mgnMode := "isolated"; rp_margin := 0;
     rp_notionalUsd := 0; rp_imr := 0; rp_mmr := 0 |}.

(** A plain decimal numeral, digits with at most one point. *)
Fixpoint digitsValue (acc scale : Z) (seenDot : bool) (s : list ascii)
  : option Q :=
  match s with
  | [] => Some (inject_Z acc / inject_Z scale)%Q
  | c :: s' =>
      let n := Z.of_nat (nat_of_ascii c) in
      if (48 <=? n) && (n <=? 57) then
        digitsValue (10 * acc + (n - 48)) (if seenDot then 10 * scale else scale)
          seenDot s'
      else if (n =? 46) && negb seenDot then digitsValue acc scale true s'
      else None
  end.

Definition parseDecimal (s : string) : option Q :=
  match list_ascii_of_string s with
  | [] => None
  | l => digitsValue 0 1 false l
  end.

#[global] Instance decimalStrconv : Strconv := {| ParseFloat := parseDecimal |}.

Definition executeOrder (body : OrderBody) (x : Exchange) : Exchange :=
  if reduceOnly body then
    if String.eqb (ordType body) "market" then
      withHeld
        (List.filter
           (fun p => negb (String.eqb (rp_instId p) (instId body)
                           && String.eqb (rp_posSide p) (posSide body)))
           (held x)) x
    else x
  else
    withHeld
      (held x ++
       [rawPosition (instId body) (posSide body) (decimalValue (sz body))
          (default 0%Q (parseDecimal (lastPrice x)))
          (default 0%Q (parseDecimal (lastPrice x))) 10]) x.

Definition answer (r : Request) (x : Exchange) : res string Response * Exchange :=
  let x := tick millisecond x in
  match r with
  | GetAccountBalance =>
      if balanceDown x then (Err "i/o timeout", x)
      else
        (Ok (BalanceData
               [{| details := [{| ccy := "USDT"; availEq := available x |}];
                   totalEq := available x; isoEq := "0";
                   adjEq := available x; mgnRatio := 0; notionalUsd := 0 |}]), x)
  | GetAccountPositions => (Ok (PositionsData (held x)), x)
  | SetLeverageReq _ _ _ => (Err "leverage already set", x)
  | PlaceOrder body =>
      if ordersDown x then (Err "connection reset", x)
      else
        (Ok (OrderData [{| ordId := "1001"; sCode := "0"; sMsg := EmptyString |}]),
         executeOrder body x)
  | OrdersPending _ => (Ok (PendingData []), x)
  | Ticker _ => (Ok (TickerData [lastPrice x]), x)
  | Instruments _ => (Ok (InstrumentData [lotSize x]), x)
  | SetPositionMode _ _ | CancelAllAfter _ | CancelOrder _ _ => (Ok NoData, x)
  end.

#[global] Instance exchangeVenue : Venue Exchange :=
  {| makeRequest := answer; timeNow := time; timeSleep := tick |}.

(** The engine on the OKX adapter and the small venue: [market.Get]
    reads the venue's last price, the database accepts every update. *)
#[global] Instance exchangeHost : Host (@World Exchange) :=
  okxHost (fun symbol => OKX.GetMarketPrice symbol) (fun _ _ _ => mret tt).

Definition btcLong : RawPosition :=
  rawPosition "BTC-USDT-SWAP" "long" (1 # 100) 60000 60000 10.

Definition ethLong : RawPosition :=
  rawPosition "ETH-USDT-SWAP" "long" 1 3000 3000 10.

Definition exchange0 : Exchange :=
  {| time := 0; held := [btcLong]; available := 1000;
     lastPrice := "60000"; lotSize := "0.01";
     balanceDown := false; ordersDown := false |}.

Definition trader0 : AutoTrader :=
  {| id := "t1"; name := "demo"; userID := "u1"; isCrossMargin := false;
     initialBalance := 100; lastBalanceSyncTime := 0;
     positionFirstSeenTime := ∅; peakPnLCache := ∅;
     database := UpdaterDatabase |}.

Definition decision (action symbol : string) (leverage : Z) (size : Q) : Decision :=
  {| Symbol := symbol; Action := action; Leverage := leverage;
     PositionSizeUSD := size; StopLoss := 0; TakeProfit := 0;
     NewStopLoss := 0; NewTakeProfit := 0; ClosePercentage := 0;
     Confidence := 0; RiskUSD := 0; Reasoning := EmptyString |}.

(** A fresh adapter in front of the venue, and the same once a first
    read has filled its positions cache. *)
Definition world0 : @World Exchange := (NewOKXTrader, exchange0).

Definition world1 : @World Exchange := snd (OKX.GetPositions world0).


Definition noAction : DecisionAction :=
  {| Quantity := 0; Price := 0; OrderID := 0 |}.


(** The venue ten minutes later with its balance endpoint down, and the
    venue refusing every order. *)
Definition exchangeDown : Exchange :=
  {| time := 10 * minute; held := [btcLong]; available := 1000;
     lastPrice := "60000"; lotSize := "0.01";
     balanceDown := true; ordersDown := false |}.

Definition worldDown : @World Exchange := (NewOKXTrader, exchangeDown).

(** A long bought at 60000 and marked at 60360 under leverage 10, a
    return of 6%, for a trader that has seen it at 10%. *)
Definition fallenRaw : RawPosition :=
  rawPosition "BTC-USDT-SWAP" "long" (1 # 100) 60000 60360 10.

Definition fallenBtc : Position := positionOfRaw fallenRaw.

Definition fallenHeld : Held :=
  {| h_symbol := "BTCUSDT"; h_side := "long"; h_entryPrice := 60000;
     h_markPrice := 60360; h_leverage := 10 |}.

Definition peakedTrader : AutoTrader :=
  withPeakPnLCache (<["BTCUSDT" := 10%Q]> ∅) trader0.


Definition worldStuck : @World Exchange :=
  (NewOKXTrader,
   {| time := 0; held := [fallenRaw]; available := 1000;
      lastPrice := "60360"; lotSize := "0.01";
      balanceDown := false; ordersDown := true |}).

End Fixture.

(** ** Helpers of package decision (market/okx_client.go) *)

Module DecisionTools.
Import Decisions Text.

(** [findMatchingBracket]: [s] is the string as its bytes; the loop from
    [start] on, [i] being the index of the head of [rest]. *)
Fixpoint scanBrackets (depth i : Z) (rest : list Z) : Z :=
  match rest with
  | [] => -1
  | c :: rest' =>
      if c =? lbracket then scanBrackets (depth + 1) (i + 1) rest'
      else if c =? rbracket then
        if depth - 1 =? 0 then i else scanBrackets (depth - 1) (i + 1) rest'
      else scanBrackets depth (i + 1) rest'
  end.

(** A negative [start] below the length makes [s[start]] panic. *)
Definition findMatchingBracket (s : list Z) (start : Z) : res Error Z :=
  if Z.of_nat (length s) <=? start then Ok (-1)
  else if start <? 0 then Err (Panic "index out of range")
  else
    match s !! Z.to_nat start with
    | Some c =>
        if c =? lbracket then Ok (scanBrackets 0 start (drop (Z.to_nat start) s))
        else Ok (-1)
    | None => Ok (-1)
    end.

(** Opening minus closing square brackets. *)
Fixpoint excess (l : list Z) : Z :=
  match l with
  | [] => 0
  | c :: l' =>
      (if c =? lbracket then 1 else if c =? rbracket then -1 else 0) + excess l'
  end.


(** [calculateMaxCandidates], of [len(ctx.Positions)] and
    [len(ctx.CandidateCoins)]. *)
Definition calculateMaxCandidates (positionCount candidateCount : Z) : Z :=
  let maxCandidates :=
    if positionCount =? 0 then 30
    else if positionCount =? 1 then 25
    else if positionCount =? 2 then 20
    else 15 in
  Z.min candidateCount maxCandidates.

(** The text before the first [c], when there is one. *)
Fixpoint before (c : rune) (s : text) : option text :=
  match s with
  | [] => None
  | a :: s' =>
      if a =? c then Some []
      else match before c s' with
           | Some p => Some (a :: p)
           | None => None
           end
  end.

(** [extractCoTTrace]: [strings.Index(response, "[") > 0] says that a
    bracket is found and that the text before it is not empty. *)
Definition extractCoTTrace (response : text) : text :=
  match before lbracket response with
  | Some (a :: p) => TrimSpace (a :: p)
  | _ => TrimSpace response
  end.

(** A list in which no decision comes before one of a lower rank. *)
Definition inRankOrder (l : list Decision) : Prop :=
  forall (i j : nat) (x y : Decision),
    (i < j)%nat -> l !! i = Some x -> l !! j = Some y ->
    getActionPriority (Action x) <= getActionPriority (Action y).

End DecisionTools.

(** ** Texts the repairs leave alone *)

Module TextTools.
Import Decisions Text.

(** A text in which none of the four repairs finds anything to do: no
    invisible rune, no rune of the quote table, no empty numeric field
    and no thousands separator between digits. *)
Definition clean (s : text) : Prop :=
  Forall (fun c => is_invisible c = false) s
  /\ Forall (fun c => isSource c = false) s
  /\ (forall name, In name numericFields ->
        matchFree (empty_field_matcher name) s)
  /\ matchFree match_thousands s.

End TextTools.

(** ** More of the OKX adapter (trader/okx_trader.go) *)

Module AdapterTools.
Import OKX.

(** The errors of [CheckMinNotional]. *)
Inductive NotionalError : Type :=
| PriceUnavailable (cause : Error)
| BelowMinNotional (notionalValue minNotional quantity price : Q).

(** [GetMinNotional] *)
Definition GetMinNotional (symbol : string) : Q := 5.

(** The equity [CheckMinNotional] reads off the balance map. *)
Definition equityOf (balance : Balance) : Q :=
  match asFloat (balance !! "totalEquity") with
  | Some equity =>
      if Qltb 0 equity then equity
      else match asFloat (balance !! "totalWalletBalance") with
           | Some wallet => wallet
           | None => 0%Q
           end
  | None =>
      match asFloat (balance !! "totalWalletBalance") with
      | Some wallet => wallet
      | None => 0%Q
      end
  end.

(** The threshold of the small-account mode. *)
Definition smallAccountMinimum (symbol : string) (totalEquity : Q) : Q :=
  if (String.eqb symbol "BTCUSDT" || String.eqb symbol "ETHUSDT")%bool then
    let m := (totalEquity * (8 # 10))%Q in
    if Qltb m 5 then 5%Q else m
  else
    let m := (totalEquity * (5 # 10))%Q in
    if Qltb m 2 then 2%Q else m.

(** The verdict of [CheckMinNotional] once price and balance are read;
    [balance] is [None] when [GetBalance] failed. *)
Definition notionalVerdict (symbol : string) (quantity price : Q)
    (balance : option Balance) : option NotionalError :=
  let notionalValue := (quantity * price)%Q in
  let small :=
    match balance with
    | Some b =>
        let totalEquity := equityOf b in
        Qltb 0 totalEquity && Qltb totalEquity 10
        && Qleb (smallAccountMinimum symbol totalEquity) notionalValue
    | None => false
    end in
  if small then None
  else
    let minNotional := GetMinNotional symbol in
    if Qltb notionalValue minNotional
    then Some (BelowMinNotional notionalValue minNotional quantity price)
    else None.

Section Checks.
Context {V : Type} `{Venue V} `{Strconv}.

(** [CheckMinNotional] *)
Definition CheckMinNotional (symbol : string) (quantity : Q) (w : @World V)
  : option NotionalError * @World V :=
  match GetMarketPrice symbol w with
  | (Err e, w1) => (Some (PriceUnavailable e), w1)
  | (Ok price, w1) =>
      match GetBalance w1 with
      | (Ok balance, w2) => (notionalVerdict symbol quantity price (Some balance), w2)
      | (Err _, w2) => (notionalVerdict symbol quantity price None, w2)
      end
  end.
End Checks.

(** A position as the adapter lists it: a positive amount under
    [positionAmt] and a side that is long or short. *)
Definition wellListed (p : Position) : Prop :=
  (exists q, asFloat (p !! "positionAmt") = Some q /\ (0 < q)%Q)
  /\ (asString (p !! "side") = Some "long"%string
      \/ asString (p !! "side") = Some "short"%string)
  /\ is_Some (Engine.heldOf p).

End AdapterTools.

(** ** The requests the adapter sends *)

Module Logged.
Import OKX.

(** A venue that keeps the list of the requests it has received. *)
Definition loggedVenue {V : Type} `{Venue V} : Venue (V * list Request) :=
  {| makeRequest := fun r s =>
       let '(a, v) := makeRequest r (fst s) in (a, (v, snd s ++ [r]));
     timeNow := fun s => timeNow (fst s);
     timeSleep := fun d s => (timeSleep d (fst s), snd s) |}.

(** The requests sent so far, and the orders among them. *)
Definition sent {V : Type} (w : @World (V * list Request)) : list Request :=
  snd (snd w).

Definition placed (l : list Request) : list OrderBody :=
  omap (fun r => match r with PlaceOrder body => Some body | _ => None end) l.

Definition isOrder (r : Request) : bool :=
  match r with PlaceOrder _ => true | _ => false end.

(** A computation sends only requests of a class, on every path. *)
Definition emits {V A : Type} (P : Request -> Prop)
    (m : M (@World (V * list Request)) A) : Prop :=
  forall w, exists l, sent (snd (m w)) = sent w ++ l /\ Forall P l.

(** The order [OpenLong] and [OpenShort] submit, and the order
    [CloseLong] and [CloseShort] submit. *)
Definition openOrder (isLong : bool) (symbol : string) (quantityStr : Decimal)
    (stopLoss takeProfit : Q) : OrderBody :=
  {| instId := convertSymbolToInstID symbol;
     side := if isLong then "buy" else "sell";
     ordType := "market";
     sz := quantityStr;
     posSide := if isLong then "long" else "short";
     reduceOnly := false;
     slTriggerPx := None; tpTriggerPx := None;
     attachStopLoss := positive stopLoss;
     attachTakeProfit := positive takeProfit |}.

Definition closeOrder (isLong : bool) (symbol : string) (quantityStr : Decimal)
  : OrderBody :=
  {| instId := convertSymbolToInstID symbol;
     side := if isLong then "sell" else "buy";
     ordType := "market";
     sz := quantityStr;
     posSide := if isLong then "long" else "short";
     reduceOnly := true;
     slTriggerPx := None; tpTriggerPx := None;
     attachStopLoss := None; attachTakeProfit := None |}.

(** The cancel requests [cancelOrdersOfType] sends for a list of pending
    orders: one for each order whose type is among [kinds]. *)
Definition cancelled (kinds : list string) (instID : string)
    (orders : list PendingOrder) : list Request :=
  map (fun order => CancelOrder instID (po_ordId order))
    (List.filter (fun order => existsb (String.eqb (po_ordType order)) kinds)
       orders).

(** The mutations that open a position, and those that cancel orders. *)
Definition opens (m : Mutation) : bool :=
  match m with MOpenLong _ _ _ _ _ | MOpenShort _ _ _ _ _ => true | _ => false end.

Definition cancels (m : Mutation) : bool :=
  match m with
  | MCancelStopLossOrders _ | MCancelTakeProfitOrders _
  | MCancelAllOrders _ | MCancelStopOrders _ => true
  | _ => false
  end.

(** The cached list of positions, when there is one, holds positions as
    the adapter lists them. *)
Definition listed (t : OKXTrader) : Prop :=
  forall positions,
    cachedPositions t = Some positions ->
    Forall AdapterTools.wellListed positions.

(** The errors by which an open is refused before any order is sent. *)
Definition refusedBeforeOrder (e : Error) : bool :=
  match e with
  | InsufficientMargin _ _ _ _ _
  | StopLossVsPrice _ _ _ | StopLossVsLiquidation _ _ _
  | TakeProfitVsPrice _ _ _ | StopLossVsTakeProfit _ _ _ => true
  | _ => false
  end.

End Logged.

(** ** A venue that holds a short *)

Module ShortFixture.
Import Engine Fixture Logged.

Definition btcShort : RawPosition :=
  rawPosition "BTC-USDT-SWAP" "short" (1 # 100) 60000 60000 10.

(** A fresh adapter in front of the venue that holds the short and
    logs what it is asked. *)
Definition worldShort : @World (Exchange * list Request) :=
  (NewOKXTrader, (withHeld [btcShort] exchange0, [])).

End ShortFixture.

(** ** The venue ten minutes later *)

Module LaterFixture.
Import Engine Fixture.



End LaterFixture.

(** ** The executors of the engine (mcp/client.go) *)

Module Executors.
Import Decisions Engine.

(** The methods of the [Trader] interface that the executors below call
    besides those of [Trader] above. *)
Class Protections (T : Type) : Type := {
  cancelStopLossOrders : string -> M T unit;
  cancelTakeProfitOrders : string -> M T unit;
  setStopLoss : string -> string -> Q -> Q -> M T unit;
  setTakeProfit : string -> string -> Q -> Q -> M T unit
}.

(** [OKXTrader] implements them. *)
#[global] Instance okxProtections {V : Type} `{Venue V} `{Strconv}
  : Protections (@World V) :=
  {| cancelStopLossOrders := OKX.CancelStopLossOrders;
     cancelTakeProfitOrders := OKX.CancelTakeProfitOrders;
     setStopLoss := OKX.SetStopLoss;
     setTakeProfit := OKX.SetTakeProfit |}.

(** [strings.ToUpper]. *)
Class Strings : Type := { ToUpper : string -> string }.

(** The errors of the executors: those of the trader and of
    [market.Get], passed on or wrapped, and their own. *)
Inductive ExecError : Type :=
| Passed (e : Error)
| Context (context : string) (cause : Error)
| PositionMissing (symbol : string)
| LongStopNotBelow (currentPrice newStopLoss : Q)
| ShortStopNotAbove (currentPrice newStopLoss : Q)
| LongTargetNotAbove (currentPrice newTakeProfit : Q)
| ShortTargetNotBelow (currentPrice newTakeProfit : Q)
| PercentageOutOfRange (closePercentage : Q)
| UnknownAction (action : string).

Definition withPrice (price : Q) (r : DecisionAction) : DecisionAction :=
  {| Quantity := Quantity r; Price := price; OrderID := OrderID r |}.

Definition withQuantity (quantity : Q) (r : DecisionAction) : DecisionAction :=
  {| Quantity := quantity; Price := Price r; OrderID := OrderID r |}.

(** [symbol, _ := pos["symbol"].(string)] and the like: the zero value
    when the entry is missing or of another type. *)
Definition stringOr (v : option value) : string := default EmptyString (asString v).
Definition floatOr (v : option value) : Q := default 0%Q (asFloat v).

(** The loop that looks for the target position: the first position of
    the symbol whose amount is not zero. *)
Definition targetPosition (symbol : string) (positions : list Position)
  : option Position :=
  List.find
    (fun pos => String.eqb (stringOr (pos !! "symbol")) symbol
                && negb (Qeqb (floatOr (pos !! "positionAmt")) 0))
    positions.

Section ExecutorMethods.
Context {E : Type} `{Host E} `{Protections E} `{Strings}.

(** [v, err := f(); if err != nil]: a panic is no error value, it goes
    up through the executor. *)
Definition try {A} (m : M E A) : M (@State E) (res Error A) := fun s =>
  match m (snd s) with
  | (Err (Panic what), e') => (Err (Panic what), (fst s, e'))
  | (r, e') => (Ok r, (fst s, e'))
  end.

Definition Result : Type := (option ExecError * DecisionAction)%type.

(** [executeCloseLongWithRecord] for [isLong], [executeCloseShortWithRecord]
    otherwise. *)
Definition executeCloseWithRecord (isLong : bool) (decision : Decision)
    (actionRecord : DecisionAction) : M (@State E) Result :=
  p ← try (marketGet (Symbol decision));
  match p with
  | Err e => mret (Some (Passed e), actionRecord)
  | Ok currentPrice =>
      let actionRecord := withPrice currentPrice actionRecord in
      o ← try ((if isLong then CloseLong else CloseShort) (Symbol decision) 0%Q);
      match o with
      | Err e => mret (Some (Passed e), actionRecord)
      | Ok order => mret (None, recordOrderID order actionRecord)
      end
  end.

Definition executeCloseLongWithRecord := executeCloseWithRecord true.
Definition executeCloseShortWithRecord := executeCloseWithRecord false.

(** The checks of the new price against the current one. *)
Definition stopLossCheck (positionSide : string) (currentPrice newStopLoss : Q)
  : option ExecError :=
  if String.eqb positionSide "LONG" && Qleb currentPrice newStopLoss then
    Some (LongStopNotBelow currentPrice newStopLoss)
  else if String.eqb positionSide "SHORT" && Qleb newStopLoss currentPrice then
    Some (ShortStopNotAbove currentPrice newStopLoss)
  else None.

Definition takeProfitCheck (positionSide : string) (currentPrice newTakeProfit : Q)
  : option ExecError :=
  if String.eqb positionSide "LONG" && Qleb newTakeProfit currentPrice then
    Some (LongTargetNotAbove currentPrice newTakeProfit)
  else if String.eqb positionSide "SHORT" && Qleb currentPrice newTakeProfit then
    Some (ShortTargetNotBelow currentPrice newTakeProfit)
  else None.

(** [executeUpdateStopLossWithRecord] for [isStop],
    [executeUpdateTakeProfitWithRecord] otherwise.  The search for a
    position of the other side only writes log lines, to which nothing
    corresponds here. *)
Definition executeUpdateWithRecord (isStop : bool) (decision : Decision)
    (actionRecord : DecisionAction) : M (@State E) Result :=
  let newPrice := if isStop then NewStopLoss decision else NewTakeProfit decision in
  p ← try (marketGet (Symbol decision));
  match p with
  | Err e => mret (Some (Passed e), actionRecord)
  | Ok currentPrice =>
      let actionRecord := withPrice currentPrice actionRecord in
      r ← try GetPositions;
      match r with
      | Err e => mret (Some (Context "获取持仓失败" e), actionRecord)
      | Ok positions =>
          match targetPosition (Symbol decision) positions with
          | None => mret (Some (PositionMissing (Symbol decision)), actionRecord)
          | Some target =>
              let side := stringOr (target !! "side") in
              let positionSide := ToUpper side in
              let positionAmt := floatOr (target !! "positionAmt") in
              match (if isStop then stopLossCheck else takeProfitCheck)
                      positionSide currentPrice newPrice with
              | Some e => mret (Some e, actionRecord)
              | None =>
                  _ ← try ((if isStop then cancelStopLossOrders
                            else cancelTakeProfitOrders) (Symbol decision));
                  let quantity := Qabs positionAmt in
                  s ← try ((if isStop then setStopLoss else setTakeProfit)
                             (Symbol decision) positionSide quantity newPrice);
                  match s with
                  | Err e =>
                      mret (Some (Context (if isStop then "修改止损失败"
                                           else "修改止盈失败") e),
                            actionRecord)
                  | Ok _ => mret (None, actionRecord)
                  end
              end
          end
      end
  end.

Definition executeUpdateStopLossWithRecord := executeUpdateWithRecord true.
Definition executeUpdateTakeProfitWithRecord := executeUpdateWithRecord false.

(** [executePartialCloseWithRecord] *)
Definition executePartialCloseWithRecord (decision : Decision)
    (actionRecord : DecisionAction) : M (@State E) Result :=
  if Qleb (ClosePercentage decision) 0 || Qltb 100 (ClosePercentage decision) then
    mret (Some (PercentageOutOfRange (ClosePercentage decision)), actionRecord)
  else
    p ← try (marketGet (Symbol decision));
    match p with
    | Err e => mret (Some (Passed e), actionRecord)
    | Ok currentPrice =>
        let actionRecord := withPrice currentPrice actionRecord in
        r ← try GetPositions;
        match r with
        | Err e => mret (Some (Context "获取持仓失败" e), actionRecord)
        | Ok positions =>
            match targetPosition (Symbol decision) positions with
            | None => mret (Some (PositionMissing (Symbol decision)), actionRecord)
            | Some target =>
                let side := stringOr (target !! "side") in
                let positionSide := ToUpper side in
                let positionAmt := floatOr (target !! "positionAmt") in
                let totalQuantity := Qabs positionAmt in
                let closeQuantity :=
                  (totalQuantity * (ClosePercentage decision / 100))%Q in
                let actionRecord := withQuantity closeQuantity actionRecord in
                o ← try ((if String.eqb positionSide "LONG" then CloseLong
                          else CloseShort) (Symbol decision) closeQuantity);
                match o with
                | Err e => mret (Some (Context "部分平仓失败" e), actionRecord)
                | Ok order => mret (None, recordOrderID order actionRecord)
                end
            end
        end
    end.

(** The open executors, with their errors among those of this module. *)
Definition passed (m : M (@State E) (option Error * DecisionAction)) : M (@State E) Result :=
  r ← m; mret (option_map Passed (fst r), snd r).

(** [executeDecisionWithRecord] *)
Definition executeDecisionWithRecord (decision : Decision)
    (actionRecord : DecisionAction) : M (@State E) Result :=
  let action := Action decision in
  if String.eqb action "open_long" then
    passed (executeOpenLongWithRecord decision actionRecord)
  else if String.eqb action "open_short" then
    passed (executeOpenShortWithRecord decision actionRecord)
  else if String.eqb action "close_long" then
    executeCloseLongWithRecord decision actionRecord
  else if String.eqb action "close_short" then
    executeCloseShortWithRecord decision actionRecord
  else if String.eqb action "update_stop_loss" then
    executeUpdateStopLossWithRecord decision actionRecord
  else if String.eqb action "update_take_profit" then
    executeUpdateTakeProfitWithRecord decision actionRecord
  else if String.eqb action "partial_close" then
    executePartialCloseWithRecord decision actionRecord
  else if String.eqb action "hold" || String.eqb action "wait" then
    mret (None, actionRecord)
  else mret (Some (UnknownAction action), actionRecord).

End ExecutorMethods.

(** The calls that reach the trader from the executors. *)
Inductive Step : Type :=
| Asked (c : Call)
| AskedCancelStopLoss (symbol : string)
| AskedCancelTakeProfit (symbol : string)
| AskedSetStopLoss (symbol positionSide : string) (quantity stopPrice : Q)
| AskedSetTakeProfit (symbol positionSide : string) (quantity takeProfitPrice : Q).

Definition noted {E A} (c : Step) (m : M E A) : M (E * list Step) A := fun s =>
  let '(r, e') := m (fst s) in (r, (e', snd s ++ [c])).

Definition unnoted {E A} (m : M E A) : M (E * list Step) A := fun s =>
  let '(r, e') := m (fst s) in (r, (e', snd s)).

(** A trader that notes the calls it receives, in order. *)
Definition notingTrader {E : Type} `{Trader E} : Trader (E * list Step) :=
  {| GetBalance := noted (Asked CallGetBalance) GetBalance;
     GetPositions := noted (Asked CallGetPositions) GetPositions;
     OpenLong := fun s q l sl tp =>
       noted (Asked (CallOpenLong s q l sl tp)) (OpenLong s q l sl tp);
     OpenShort := fun s q l sl tp =>
       noted (Asked (CallOpenShort s q l sl tp)) (OpenShort s q l sl tp);
     CloseLong := fun s q => noted (Asked (CallCloseLong s q)) (CloseLong s q);
     CloseShort := fun s q => noted (Asked (CallCloseShort s q)) (CloseShort s q);
     SetMarginMode := fun s c =>
       noted (Asked (CallSetMarginMode s c)) (SetMarginMode s c) |}.

Definition notingHost {E : Type} `{Host E} : Host (E * list Step) :=
  {| hostTrader := notingTrader;
     clock := fun s => clock (fst s);
     marketGet := fun symbol => unnoted (marketGet symbol);
     UpdateTraderInitialBalance := fun u i b =>
       unnoted (UpdateTraderInitialBalance u i b) |}.

Definition notingProtections {E : Type} `{Protections E}
  : Protections (E * list Step) :=
  {| cancelStopLossOrders := fun s =>
       noted (AskedCancelStopLoss s) (cancelStopLossOrders s);
     cancelTakeProfitOrders := fun s =>
       noted (AskedCancelTakeProfit s) (cancelTakeProfitOrders s);
     setStopLoss := fun s ps q p =>
       noted (AskedSetStopLoss s ps q p) (setStopLoss s ps q p);
     setTakeProfit := fun s ps q p =>
       noted (AskedSetTakeProfit s ps q p) (setTakeProfit s ps q p) |}.


(** The calls noted so far. *)
Definition steps {E : Type} (s : @State (E * list Step)) : list Step :=
  snd (snd s).

End Executors.

(** ** The engine on the venue that logs *)

Module ExecFixture.
Import Decisions Engine Fixture Logged Executors.

(** [strings.ToUpper] on ASCII letters, which is all the sides of the
    adapter are made of. *)
Definition upperChar (c : ascii) : ascii :=
  let n := nat_of_ascii c in
  if ((97 <=? n) && (n <=? 122))%nat then ascii_of_nat (n - 32) else c.

#[global] Instance asciiStrings : Strings :=
  {| ToUpper := fun s =>
       string_of_list_ascii (map upperChar (list_ascii_of_string s)) |}.

(** The engine on the OKX adapter in front of the venue that logs what
    it is asked. *)
Definition loggedHost : Host (@World (Exchange * list Request)) :=
  @okxHost _ loggedVenue _
    (fun symbol => @OKX.GetMarketPrice _ loggedVenue _ symbol)
    (fun _ _ _ => mret tt).

Definition loggedProtections : Protections (@World (Exchange * list Request)) :=
  @okxProtections _ loggedVenue _.

(** The fresh adapter in front of the venue of [exchange0], which holds
    0.01 BTC long, and in front of the venue that refuses every order. *)
Definition worldLogged : @World (Exchange * list Request) :=
  (NewOKXTrader, (exchange0, [])).

Definition worldRefusing : @World (Exchange * list Request) :=
  (NewOKXTrader,
   ({| time := 0; held := [btcLong]; available := 1000;
       lastPrice := "60000"; lotSize := "0.01";
       balanceDown := false; ordersDown := true |}, [])).

Definition updateStop (symbol : string) (newStopLoss : Q) : Decision :=
  {| Symbol := symbol; Action := "update_stop_loss"; Leverage := 0;
     PositionSizeUSD := 0; StopLoss := 0; TakeProfit := 0;
     NewStopLoss := newStopLoss; NewTakeProfit := 0; ClosePercentage := 0;
     Confidence := 0; RiskUSD := 0; Reasoning := EmptyString |}.

Definition partialClose (symbol : string) (closePercentage : Q) : Decision :=
  {| Symbol := symbol; Action := "partial_close"; Leverage := 0;
     PositionSizeUSD := 0; StopLoss := 0; TakeProfit := 0;
     NewStopLoss := 0; NewTakeProfit := 0; ClosePercentage := closePercentage;
     Confidence := 0; RiskUSD := 0; Reasoning := EmptyString |}.

End ExecFixture.

(** ** The AI client (mcp/client.go) *)

Module MCP.
Import GoStrings.

(** [strings.ToLower]. *)
Class Lowering : Type := { ToLower : string -> string }.

(** What is behind a [Client]: [callOnce], which answers with a text or
    fails with an error of some text, and [time.Sleep]. *)
Class Provider (C : Type) : Type := {
  callOnce : string -> string -> C -> res string string * C;
  providerSleep : Z -> C -> C
}.

(** The errors of [CallWithMessages]: the key is missing, the error of
    [callOnce] passed on, or the error after the last retry, which wraps
    the last error of [callOnce]. *)
Inductive CallError : Type :=
| KeyMissing
| Once (err : string)
| GaveUp (maxRetries : Z) (lastErr : string).

Definition retryableErrors : list string :=
  ["eof"; "timeout"; "connection reset"; "connection refused";
   "connection closed"; "broken pipe"; "temporary failure"; "no such host";
   "stream error"; "internal_error"; "network is unreachable"; "i/o timeout";
   "context deadline exceeded"; "read: connection reset";
   "write: broken pipe"]%string.

(** The list without its last three entries and without [i/o timeout]. *)
Definition shortRetryableErrors : list string :=
  ["eof"; "timeout"; "connection reset"; "connection refused";
   "connection closed"; "broken pipe"; "temporary failure"; "no such host";
   "stream error"; "internal_error"; "network is unreachable";
   "context deadline exceeded"]%string.

(** [isRetryableError], of the text of the error. *)
Definition isRetryableError `{Lowering} (err : string) : bool :=
  let errStr := ToLower err in
  existsb (fun retryable => Contains errStr retryable) retryableErrors.

Definition maxRetries : Z := 5.

(** [time.Duration(1<<uint(attempt-1)) * 2 * time.Second], capped at 30
    seconds. *)
Definition waitTime (attempt : Z) : Z :=
  let waitTime := 2 ^ (attempt - 1) * 2 * OKX.second in
  if 30 * OKX.second <? waitTime then 30 * OKX.second else waitTime.

Section Client.
Context {C : Type} `{Provider C} `{Lowering}.

(** The loop of [CallWithMessages] from [attempt] on, [n] being the
    number of attempts left, [maxRetries - attempt + 1]. *)
Fixpoint attemptsFrom (n : nat) (attempt : Z) (lastErr : string)
    (systemPrompt userPrompt : string) (c : C) : res CallError string * C :=
  match n with
  | O => (Err (GaveUp maxRetries lastErr), c)
  | S n' =>
      match callOnce systemPrompt userPrompt c with
      | (Ok result, c1) => (Ok result, c1)
      | (Err err, c1) =>
          if negb (isRetryableError err) then (Err (Once err), c1)
          else
            let c2 :=
              if attempt <? maxRetries then providerSleep (waitTime attempt) c1
              else c1 in
            attemptsFrom n' (attempt + 1) err systemPrompt userPrompt c2
      end
  end.

(** [CallWithMessages], of a client with the key [apiKey]. *)
Definition CallWithMessages (apiKey systemPrompt userPrompt : string) (c : C)
  : res CallError string * C :=
  if String.eqb apiKey EmptyString then (Err KeyMissing, c)
  else attemptsFrom (Z.to_nat maxRetries) 1 EmptyString systemPrompt userPrompt c.

End Client.

(** What reaches the provider. *)
Inductive Event : Type :=
| Called (systemPrompt userPrompt : string)
| Slept (d : Z).

(** A provider that keeps the list of what reaches it. *)
Definition loggedProvider {C : Type} `{Provider C} : Provider (C * list Event) :=
  {| callOnce := fun sp up s =>
       let '(r, c) := callOnce sp up (fst s) in (r, (c, snd s ++ [Called sp up]));
     providerSleep := fun d s => (providerSleep d (fst s), snd s ++ [Slept d]) |}.

(** [k] calls with the waits between them, the first being the call
    number [attempt]. *)
Fixpoint schedule (k : nat) (attempt : Z) (systemPrompt userPrompt : string)
  : list Event :=
  match k with
  | O => []
  | S O => [Called systemPrompt userPrompt]
  | S k' =>
      Called systemPrompt userPrompt
      :: Slept (2 ^ (attempt - 1) * 2 * OKX.second)
      :: schedule k' (attempt + 1) systemPrompt userPrompt
  end.

(** The time slept in a list of events. *)
Definition slept (l : list Event) : Z :=
  fold_right (fun ev acc => match ev with Slept d => d + acc | _ => acc end) 0 l.

End MCP.

(** ** Indicators (market/data.go) *)

Module Indicators.

(** [type Kline struct], the prices and the volume; the times and the
    counts are not read by the indicators. *)
Record Kline : Type := mkKline {
  Open : Q;
  High : Q;
  Low : Q;
  Close : Q;
  Volume : Q
}.


(** [klines[i].Close - klines[i-1].Close] for [i] from 1 on. *)
Definition changes (klines : list Kline) : list Q :=
  zip_with (fun previous current => (Close current - Close previous)%Q)
    klines (tail klines).

(** The first loop of [calculateRSI]. *)
Definition sumChange (acc : Q * Q) (change : Q) : Q * Q :=
  let '(gains, losses) := acc in
  if Qltb 0 change then ((gains + change)%Q, losses)
  else (gains, (losses + - change)%Q).

(** The second loop, the smoothing of Wilder. *)
Definition smoothChange (period : Z) (acc : Q * Q) (change : Q) : Q * Q :=
  let '(avgGain, avgLoss) := acc in
  let p := inject_Z period in
  let p1 := inject_Z (period - 1) in
  if Qltb 0 change then
    (((avgGain * p1 + change) / p)%Q, ((avgLoss * p1) / p)%Q)
  else
    (((avgGain * p1) / p)%Q, ((avgLoss * p1 + - change) / p)%Q).

(** [calculateRSI].  With a negative [period] the second loop reads
    [klines[i-1]] at a negative index and panics, unless it does not run
    at all. *)
Definition calculateRSI (klines : list Kline) (period : Z) : res Error Q :=
  if Z.of_nat (length klines) <=? period then Ok 0%Q
  else if (period <? 0) && (period + 1 <? Z.of_nat (length klines)) then
    Err (Panic "index out of range")
  else
    let n := Z.to_nat period in
    let '(gains, losses) := fold_left sumChange (take n (changes klines)) (0%Q, 0%Q) in
    let avgGain := (gains / inject_Z period)%Q in
    let avgLoss := (losses / inject_Z period)%Q in
    let '(avgGain, avgLoss) :=
      fold_left (smoothChange period) (drop n (changes klines)) (avgGain, avgLoss) in
    if Qeqb avgLoss 0 then Ok 100%Q
    else
      let rs := (avgGain / avgLoss)%Q in
      Ok (100 - 100 / (1 + rs))%Q.

End Indicators.

(** * Properties *)

(** ** Rational comparisons *)

Lemma Qltb_lt x y : Qltb x y = true <-> (x < y)%Q.
Proof.
  unfold Qltb. rewrite negb_true_iff. split.
  - intros Hb. apply Qnot_le_lt. intros Hle.
    apply Qle_bool_iff in Hle. congruence.
  - intros Hlt. destruct (Qle_bool y x) eqn:Eb; [|reflexivity].
    apply Qle_bool_iff in Eb. exfalso. exact (Qlt_not_le _ _ Hlt Eb).
Qed.

Lemma Qleb_le x y : Qleb x y = true <-> (x <= y)%Q.
Proof. apply Qle_bool_iff. Qed.

Lemma Qltb_ge x y : Qltb x y = false <-> (y <= x)%Q.
Proof. unfold Qltb. rewrite negb_false_iff. apply Qle_bool_iff. Qed.


(** ** The Decision Validator *)

Module DecisionsFacts.
Import Decisions.

Lemma open_action_valid a :
  is_open_action a = true -> map_get_bool validActions a = true.
Proof.
  unfold is_open_action. intros Ho. apply orb_true_iff in Ho.
  destruct Ho as [Ho | Ho]; apply String.eqb_eq in Ho; subst a; reflexivity.
Qed.

Lemma validateDecision_leverage d eq be alt price :
  is_open_action (Action d) = true ->
  Leverage d <= 0 \/ leverageCeiling (Symbol d) be alt < Leverage d ->
  validateDecision d eq be alt price
  = Some (LeverageOutOfRange (leverageCeiling (Symbol d) be alt)
            (Symbol d) (Leverage d)).
Proof.
  intros Ho Hl. unfold validateDecision.
  rewrite (open_action_valid _ Ho), Ho. simpl.
  assert (Hb : ((Leverage d <=? 0)
                || (leverageCeiling (Symbol d) be alt <? Leverage d))%bool = true).
  { apply orb_true_iff. destruct Hl as [Hl | Hl];
      [left; apply Z.leb_le | right; apply Z.ltb_lt]; exact Hl. }
  rewrite Hb. reflexivity.
Qed.

Lemma validateDecision_size_blind d size eq be alt price :
  validateDecision (withPositionSize size d) eq be alt price
  = validateDecision d eq be alt price.
Proof. reflexivity. Qed.

Section Lists.
Variable marketGet : string -> option Q.

Lemma validateFrom_rejects ds : forall i d eq be alt mdm,
  In d ds ->
  is_open_action (Action d) = true ->
  Leverage d <= 0 \/ leverageCeiling (Symbol d) be alt < Leverage d ->
  exists k e, validateFrom marketGet i ds eq be alt mdm = Some (DecisionFailed k e).
Proof.
  induction ds as [|x ds IH]; intros i d eq be alt mdm Hin Ho Hl.
  - destruct Hin.
  - simpl.
    destruct (validateDecision x eq be alt (lookupPrice marketGet mdm x)) as [e|] eqn:Ev.
    + eauto.
    + destruct Hin as [-> | Hin].
      * rewrite (validateDecision_leverage d eq be alt _ Ho Hl) in Ev. discriminate.
      * eapply IH; eauto.
Qed.

Lemma lookupPrice_size_blind size mdm d :
  lookupPrice marketGet mdm (withPositionSize size d) = lookupPrice marketGet mdm d.
Proof. reflexivity. Qed.

Lemma validateFrom_size_blind (f : Decision -> Q) ds : forall i eq be alt mdm,
  validateFrom marketGet i (map (fun d => withPositionSize (f d) d) ds) eq be alt mdm
  = validateFrom marketGet i ds eq be alt mdm.
Proof.
  induction ds as [|x ds IH]; intros i eq be alt mdm; simpl; [reflexivity|].
  rewrite lookupPrice_size_blind, validateDecision_size_blind.
  destruct (validateDecision x eq be alt (lookupPrice marketGet mdm x));
    [reflexivity | apply IH].
Qed.

(** C5, as the code has it: a list that holds an open-long or open-short
    decision whose leverage lies outside 1..ceiling is rejected as a
    whole, with the index and the reason of the first failing decision;
    [position_size_usd] is not examined, so replacing the notional of any
    decision by any value leaves the verdict as it is. *)
Theorem validateDecisions_checks_leverage_not_notional :
  forall (ds : list Decision) (eq : Q) (be alt : Z) (mdm : option (gmap string Q)),
    (forall d, In d ds ->
       is_open_action (Action d) = true ->
       Leverage d <= 0 \/ leverageCeiling (Symbol d) be alt < Leverage d ->
       exists k e, validateDecisions marketGet ds eq be alt mdm
                   = Some (DecisionFailed k e))
    /\ (forall f : Decision -> Q,
          validateDecisions marketGet
            (map (fun d => withPositionSize (f d) d) ds) eq be alt mdm
          = validateDecisions marketGet ds eq be alt mdm).
Proof.
  intros ds eq be alt mdm. split.
  - intros d Hin Ho Hl. unfold validateDecisions.
    eapply validateFrom_rejects; eauto.
  - intros f. apply validateFrom_size_blind.
Qed.
End Lists.

(** C5 as stated fails: an open-long with notional 0 and a leverage
    within the ceiling passes the validator. *)
Lemma validator_accepts_zero_notional :
  let d := Fixture.decision "open_long" "BTCUSDT" 5 0 in
  is_open_action (Action d) = true
  /\ ~ (0 < PositionSizeUSD d)%Q
  /\ validateDecisions (fun _ => None) [d] 1000 10 5 None = None.
Proof.
  cbv zeta. split; [reflexivity|]. split.
  - intros Hlt. apply Qlt_not_le in Hlt. apply Hlt. apply Qle_refl.
  - vm_compute. reflexivity.
Qed.

(** The theorem above at a list with a leverage of 0, and at a notional
    replaced by 0. *)
Lemma validateDecisions_checks_leverage_not_notional_witness :
  (exists k e,
     validateDecisions (fun _ => None)
       [Fixture.decision "wait" "ALL" 0 0;
        Fixture.decision "open_long" "ETHUSDT" 0 100] 1000 10 5 None
     = Some (DecisionFailed k e))
  /\ validateDecisions (fun _ => None)
       (map (fun d => withPositionSize 0 d)
          [Fixture.decision "open_short" "SOLUSDT" 3 250]) 1000 10 5 None
     = validateDecisions (fun _ => None)
         [Fixture.decision "open_short" "SOLUSDT" 3 250] 1000 10 5 None.
Proof.
  pose proof (validateDecisions_checks_leverage_not_notional (fun _ => None)
                [Fixture.decision "wait" "ALL" 0 0;
                 Fixture.decision "open_long" "ETHUSDT" 0 100] 1000 10 5 None)
    as [Hreject _].
  pose proof (validateDecisions_checks_leverage_not_notional (fun _ => None)
                [Fixture.decision "open_short" "SOLUSDT" 3 250] 1000 10 5 None)
    as [_ Hblind].
  split.
  - apply (Hreject (Fixture.decision "open_long" "ETHUSDT" 0 100)).
    + right. left. reflexivity.
    + reflexivity.
    + left. simpl. lia.
  - apply (Hblind (fun _ => 0%Q)).
Defined.

(** *** The execution order *)

Lemma swap_lookup l i j a b k :
  i <> j -> l !! i = Some a -> l !! j = Some b ->
  swap l i j !! k
  = if decide (k = i) then Some b else if decide (k = j) then Some a else l !! k.
Proof.
  intros Hij Hi Hj. unfold swap. rewrite Hi, Hj.
  pose proof (lookup_lt_Some _ _ _ Hi) as Hli.
  pose proof (lookup_lt_Some _ _ _ Hj) as Hlj.
  destruct (decide (k = i)) as [-> | Hki].
  - apply list_lookup_insert_eq. rewrite length_insert. exact Hli.
  - rewrite list_lookup_insert_ne by congruence.
    destruct (decide (k = j)) as [-> | Hkj].
    + apply list_lookup_insert_eq. exact Hlj.
    + apply list_lookup_insert_ne. congruence.
Qed.

Lemma swap_length l i j : length (swap l i j) = length l.
Proof.
  unfold swap. destruct (l !! i), (l !! j); try reflexivity.
  rewrite !length_insert. reflexivity.
Qed.

Lemma swap_perm l i j : Permutation (swap l i j) l.
Proof.
  unfold swap. destruct (l !! i) as [a|] eqn:Hi; [|reflexivity].
  destruct (l !! j) as [b|] eqn:Hj; [|reflexivity].
  exact (Permutation_insert_swap l j i b a Hj Hi).
Qed.

Lemma compareSwap_length i l j : length (compareSwap i l j) = length l.
Proof.
  unfold compareSwap. destruct (l !! i), (l !! j); try reflexivity.
  destruct (_ <? _); [apply swap_length | reflexivity].
Qed.

Lemma compareSwap_perm i l j : Permutation (compareSwap i l j) l.
Proof.
  unfold compareSwap. destruct (l !! i), (l !! j); try reflexivity.
  destruct (_ <? _); [apply swap_perm | reflexivity].
Qed.

Lemma compareSwap_step i j l :
  (i < j)%nat -> (j < length l)%nat ->
  prefixSettled l i -> pivotLeast l i j ->
  prefixSettled (compareSwap i l j) i /\ pivotLeast (compareSwap i l j) i (S j).
Proof.
  intros Hij Hj Hpre Hpiv.
  destruct (lookup_lt_is_Some_2 l i ltac:(lia)) as [a Ha].
  destruct (lookup_lt_is_Some_2 l j Hj) as [b Hb].
  unfold compareSwap. rewrite Ha, Hb.
  destruct (prio b <? prio a) eqn:Hlt.
  - apply Z.ltb_lt in Hlt.
    assert (Hne : i <> j) by lia.
    split.
    + intros p q x y Hp Hpq Hx Hy.
      rewrite (swap_lookup l i j a b p Hne Ha Hb) in Hx.
      rewrite (swap_lookup l i j a b q Hne Ha Hb) in Hy.
      destruct (decide (p = i)); [lia|]. destruct (decide (p = j)); [lia|].
      destruct (decide (q = i)) as [-> | ?].
      * inversion Hy; subst y. eapply (Hpre p j); eauto; lia.
      * destruct (decide (q = j)) as [-> | ?].
        -- inversion Hy; subst y. eapply (Hpre p i); eauto; lia.
        -- eapply (Hpre p q); eauto.
    + intros k x y Hik Hkj Hx Hy.
      rewrite (swap_lookup l i j a b i Hne Ha Hb) in Hx.
      rewrite (swap_lookup l i j a b k Hne Ha Hb) in Hy.
      destruct (decide (i = i)); [|congruence]. inversion Hx; subst x.
      destruct (decide (k = i)); [lia|].
      destruct (decide (k = j)) as [-> | ?].
      * inversion Hy; subst y. lia.
      * specialize (Hpiv k a y Hik ltac:(lia) Ha Hy). lia.
  - apply Z.ltb_ge in Hlt. split; [exact Hpre|].
    intros k x y Hik Hkj Hx Hy. rewrite Ha in Hx. inversion Hx; subst x.
    destruct (decide (k = j)) as [-> | ?].
    + rewrite Hb in Hy. inversion Hy; subst y. exact Hlt.
    + eapply (Hpiv k); eauto. lia.
Qed.

Lemma innerFold_spec i m : forall j l,
  (i < j)%nat -> (j + m = length l)%nat ->
  prefixSettled l i -> pivotLeast l i j ->
  let l' := fold_left (compareSwap i) (seq j m) l in
  length l' = length l /\ Permutation l' l
  /\ prefixSettled l' i /\ pivotLeast l' i (length l).
Proof.
  induction m as [|m IH]; intros j l Hij Hlen Hpre Hpiv; simpl.
  - repeat split; auto. replace (length l) with j by lia. exact Hpiv.
  - destruct (compareSwap_step i j l Hij ltac:(lia) Hpre Hpiv) as [Hpre' Hpiv'].
    pose proof (compareSwap_length i l j) as Hl'.
    destruct (IH (S j) (compareSwap i l j) ltac:(lia) ltac:(lia) Hpre' Hpiv')
      as (H1 & H2 & H3 & H4).
    rewrite Hl' in H1, H4.
    repeat split; auto.
    etransitivity; [exact H2 | apply compareSwap_perm].
Qed.

Lemma innerLoop_spec l i :
  (S i < length l)%nat -> prefixSettled l i ->
  length (innerLoop l i) = length l /\ Permutation (innerLoop l i) l
  /\ prefixSettled (innerLoop l i) (S i).
Proof.
  intros Hi Hpre. unfold innerLoop.
  destruct (innerFold_spec i (length l - S i) (S i) l ltac:(lia) ltac:(lia) Hpre)
    as (H1 & H2 & H3 & H4).
  { intros k x y ? ?. lia. }
  repeat split; auto.
  intros a b x y Ha Hab Hx Hy.
  destruct (decide (a = i)) as [-> | Hne].
  - eapply (H4 b); eauto.
    apply lookup_lt_Some in Hy. rewrite H1 in Hy. exact Hy.
  - eapply (H3 a b); eauto. lia.
Qed.

Lemma outerFold_spec m : forall i l,
  (i + m + 1 = length l)%nat -> prefixSettled l i ->
  let l' := fold_left innerLoop (seq i m) l in
  length l' = length l /\ Permutation l' l /\ prefixSettled l' (i + m).
Proof.
  induction m as [|m IH]; intros i l Hlen Hpre; simpl.
  - rewrite Nat.add_0_r. repeat split; auto.
  - destruct (innerLoop_spec l i ltac:(lia) Hpre) as (H1 & H2 & H3).
    destruct (IH (S i) (innerLoop l i) ltac:(lia) H3) as (H4 & H5 & H6).
    rewrite H1 in H4.
    replace (i + S m)%nat with (S i + m)%nat by lia.
    repeat split; auto. etransitivity; eauto.
Qed.

(** C2, as the code has it: [sortDecisionsByPriority] returns a
    permutation of its input in which the priority numbers never decrease
    from left to right, the numbers being 1 for close-long, close-short
    and partial-close, 2 for the two updates, 3 for the two opens and 4
    for hold and wait.  Nothing is said about the order inside a rank. *)
Theorem sortDecisionsByPriority_orders_by_rank :
  forall ds : list Decision,
    Permutation (sortDecisionsByPriority ds) ds
    /\ (forall (i j : nat) (x y : Decision), (i < j)%nat ->
          sortDecisionsByPriority ds !! i = Some x ->
          sortDecisionsByPriority ds !! j = Some y ->
          prio x <= prio y)
    /\ map getActionPriority
         ["close_long"; "close_short"; "partial_close";
          "update_stop_loss"; "update_take_profit";
          "open_long"; "open_short"; "hold"; "wait"]%string
       = [1; 1; 1; 2; 2; 3; 3; 4; 4].
Proof.
  intros ds. unfold sortDecisionsByPriority.
  destruct (length ds <=? 1)%nat eqn:Hlen.
  - apply Nat.leb_le in Hlen. split; [reflexivity|]. split; [|reflexivity].
    intros i j x y Hij Hx Hy.
    apply lookup_lt_Some in Hy. lia.
  - apply Nat.leb_gt in Hlen.
    destruct (outerFold_spec (length ds - 1) 0%nat ds ltac:(lia)) as (H1 & H2 & H3).
    { intros a b x y Ha. lia. }
    split; [exact H2|]. split; [|reflexivity].
    intros i j x y Hij Hx Hy.
    eapply (H3 i j); eauto.
    apply lookup_lt_Some in Hy. rewrite H1 in Hy. lia.
Qed.

(** C2 as stated fails: two open-long decisions followed by a close-long
    come out with the two opens exchanged. *)
Lemma sortDecisionsByPriority_not_stable :
  let a := Fixture.decision "open_long" "AUSDT" 2 100 in
  let b := Fixture.decision "open_long" "BUSDT" 2 100 in
  let c := Fixture.decision "close_long" "CUSDT" 0 0 in
  prio a = prio b
  /\ sortDecisionsByPriority [a; b; c] = [c; b; a].
Proof. cbv zeta. split; vm_compute; reflexivity. Qed.

End DecisionsFacts.

(** ** The repairs of the LLM response *)

Module TextFacts.
Import Decisions.
Import Text.

#[local] Arguments Z.eqb : simpl never.
#[local] Arguments Z.leb : simpl never.
#[local] Arguments Z.ltb : simpl never.

(** *** Matching primitives *)

Lemma strip_prefix_app p : forall s r,
  strip_prefix p s = Some r -> s = p ++ r.
Proof.
  induction p as [|a p IH]; intros s r Hs; simpl in *.
  - congruence.
  - destruct s as [|b s]; [discriminate|].
    destruct (Z.eqb_spec a b) as [-> | ?]; [|discriminate].
    f_equal. apply IH. exact Hs.
Qed.

Lemma strip_prefix_same p r : strip_prefix p (p ++ r) = Some r.
Proof.
  induction p as [|a p IH]; simpl; [reflexivity|].
  rewrite Z.eqb_refl. exact IH.
Qed.

Lemma strip_prefix_split p q s :
  strip_prefix (p ++ q) s
  = match strip_prefix p s with
    | Some r => strip_prefix q r
    | None => None
    end.
Proof.
  revert s. induction p as [|a p IH]; intros s; simpl; [reflexivity|].
  destruct s as [|b s]; [reflexivity|].
  destruct (a =? b); [apply IH | reflexivity].
Qed.

Lemma span_ws_app s : s = fst (span_ws s) ++ snd (span_ws s).
Proof.
  induction s as [|c s IH]; simpl; [reflexivity|].
  destruct (is_ws c); [|reflexivity].
  destruct (span_ws s) as [w r]. simpl in *. congruence.
Qed.

Lemma skip_ws_cons c s :
  skip_ws (c :: s) = if is_ws c then skip_ws s else c :: s.
Proof.
  unfold skip_ws. simpl. destruct (is_ws c); [|reflexivity].
  destruct (span_ws s); reflexivity.
Qed.

Lemma skip_ws_nil : skip_ws [] = [].
Proof. reflexivity. Qed.

Lemma skip_ws_suffix s : exists w, s = w ++ skip_ws s.
Proof. exists (fst (span_ws s)). apply span_ws_app. Qed.

Lemma span_digits_app s : s = fst (span_digits s) ++ snd (span_digits s).
Proof.
  induction s as [|c s IH]; simpl; [reflexivity|].
  destruct (is_digit c); [|reflexivity].
  destruct (span_digits s) as [w r]. simpl in *. congruence.
Qed.

Lemma span_digits_all s : Forall (fun c => is_digit c = true) (fst (span_digits s)).
Proof.
  induction s as [|c s IH]; simpl; [constructor|].
  destruct (is_digit c) eqn:Hd; [|constructor].
  destruct (span_digits s) as [w r]. simpl in *. constructor; assumption.
Qed.

(** *** ReplaceAll *)

Section RewriteFacts.
Context {A : Type}.
Variable m : list A -> option (list A * list A).

(** A match consumes a non-empty prefix of the input. *)
Hypothesis consumes : forall s out rest,
  m s = Some (out, rest) -> exists k, k <> [] /\ s = k ++ rest.

Lemma consumes_shorter s out rest :
  m s = Some (out, rest) -> (length rest < length s)%nat.
Proof.
  intros Hm. destruct (consumes _ _ _ Hm) as (k & Hk & ->).
  rewrite length_app. destruct k; [congruence | simpl; lia].
Qed.

Lemma rewriteFuel_any f1 : forall f2 s,
  (length s <= f1)%nat -> (length s <= f2)%nat ->
  rewriteFuel m f1 s = rewriteFuel m f2 s.
Proof.
  induction f1 as [|f1 IH]; intros f2 s H1 H2.
  - destruct s; [|simpl in H1; lia]. destruct f2; reflexivity.
  - destruct s as [|c s]; [destruct f2; reflexivity|].
    destruct f2 as [|f2]; [simpl in H2; lia|]. simpl in *.
    destruct (m (c :: s)) as [[out rest]|] eqn:Hm.
    + pose proof (consumes_shorter _ _ _ Hm) as Hlt. simpl in Hlt.
      f_equal. apply IH; lia.
    + f_equal. apply IH; lia.
Qed.

Lemma rewriteAll_nil : rewriteAll m [] = [].
Proof. reflexivity. Qed.

Lemma rewriteAll_cons c s :
  rewriteAll m (c :: s)
  = match m (c :: s) with
    | Some (out, rest) => out ++ rewriteAll m rest
    | None => c :: rewriteAll m s
    end.
Proof.
  unfold rewriteAll. simpl.
  destruct (m (c :: s)) as [[out rest]|] eqn:Hm.
  - pose proof (consumes_shorter _ _ _ Hm) as Hlt. simpl in Hlt.
    f_equal. apply rewriteFuel_any; lia.
  - reflexivity.
Qed.

Lemma matchFree_head s : matchFree m s -> m s = None.
Proof. destruct s; simpl; tauto. Qed.

Lemma matchFree_app_r k : forall s, matchFree m (k ++ s) -> matchFree m s.
Proof.
  induction k as [|c k IH]; intros s Hs; [exact Hs|].
  simpl in Hs. apply IH. tauto.
Qed.

Lemma rewriteAll_matchFree s : matchFree m s -> rewriteAll m s = s.
Proof.
  induction s as [|c s IH]; intros Hs; [reflexivity|].
  rewrite rewriteAll_cons. simpl in Hs. destruct Hs as [Hm Hs].
  rewrite Hm. f_equal. apply IH. exact Hs.
Qed.

(** Induction along the way [rewriteAll] walks its input. *)
Lemma rewrite_ind (P : list A -> Prop) :
  P [] ->
  (forall c s, m (c :: s) = None -> P s -> P (c :: s)) ->
  (forall s out rest, m s = Some (out, rest) -> P rest -> P s) ->
  forall s, P s.
Proof.
  intros Hnil Hcopy Hrepl s.
  remember (length s) as n eqn:Hn. revert s Hn.
  induction n as [n IH] using lt_wf_ind. intros s Hn.
  destruct s as [|c s]; [exact Hnil|].
  destruct (m (c :: s)) as [[out rest]|] eqn:Hm.
  - apply (Hrepl _ _ _ Hm).
    apply (IH (length rest)); [|reflexivity].
    pose proof (consumes_shorter _ _ _ Hm). lia.
  - apply Hcopy; [exact Hm|]. apply (IH (length s)); [|reflexivity].
    simpl in Hn. lia.
Qed.

Lemma rewriteAll_Forall (P : A -> Prop) :
  (forall s out rest, m s = Some (out, rest) -> Forall P out) ->
  forall s, Forall P s -> Forall P (rewriteAll m s).
Proof.
  intros Hout s. induction s as [| c s Hm IH | s out rest Hm IH] using rewrite_ind;
    intros Hs.
  - constructor.
  - rewrite rewriteAll_cons, Hm. inversion Hs; subst. constructor; auto.
  - destruct s as [|c s].
    + destruct (consumes _ _ _ Hm) as (k & Hk & Heq).
      destruct k; [congruence | discriminate].
    + rewrite rewriteAll_cons, Hm. apply Forall_app. split.
      * eapply Hout; eauto.
      * apply IH. destruct (consumes _ _ _ Hm) as (k & _ & Heq).
        rewrite Heq in Hs. apply Forall_app in Hs. tauto.
Qed.

(** Either nothing changes or the text gets shorter, when every
    replacement is shorter than what it replaces. *)
Lemma rewriteAll_shrinks :
  (forall s out rest, m s = Some (out, rest) ->
     (length out + length rest < length s)%nat) ->
  forall s, rewriteAll m s = s \/ (length (rewriteAll m s) < length s)%nat.
Proof.
  intros Hlen s.
  assert (Hle : forall s, (length (rewriteAll m s) <= length s)%nat).
  { clear s. intros s.
    induction s as [| c s Hm IH | s out rest Hm IH] using rewrite_ind.
    - simpl. lia.
    - rewrite rewriteAll_cons, Hm. simpl. lia.
    - destruct s as [|c s]; [simpl; lia|].
      rewrite rewriteAll_cons, Hm, length_app.
      pose proof (Hlen _ _ _ Hm). lia. }
  induction s as [|c s IH]; [left; reflexivity|].
  rewrite rewriteAll_cons.
  destruct (m (c :: s)) as [[out rest]|] eqn:Hm.
  - right. rewrite length_app. pose proof (Hlen _ _ _ Hm).
    pose proof (Hle rest). lia.
  - destruct IH as [-> | IH]; [left; reflexivity | right; simpl; lia].
Qed.
End RewriteFacts.

(** *** Patterns read through a rewritten text

    A rewriter whose every replacement begins with the rune that began
    the match, that rune being of a [special] class.  A pattern reading
    the rewritten text then reads, as long as it meets no special rune,
    the runes of the original text. *)

Section Through.
Variable m : text -> option (text * text).
Variable special : rune -> bool.

Hypothesis consumes : forall s out rest,
  m s = Some (out, rest) -> exists k, k <> [] /\ s = k ++ rest.

Hypothesis keeps_head : forall s out rest,
  m s = Some (out, rest) ->
  exists c s' out', s = c :: s' /\ out = c :: out' /\ special c = true.

Hypothesis ws_plain : forall c, is_ws c = true -> special c = false.

Lemma through_head s d o :
  rewriteAll m s = d :: o ->
  exists s', s = d :: s'
    /\ ((m s = None /\ o = rewriteAll m s')
        \/ (special d = true
            /\ exists out' rest, m s = Some (d :: out', rest)
                                /\ o = out' ++ rewriteAll m rest)).
Proof.
  destruct s as [|c s]; [discriminate|].
  rewrite (rewriteAll_cons m consumes).
  destruct (m (c :: s)) as [[out rest]|] eqn:Hm.
  - destruct (keeps_head _ _ _ Hm) as (c' & s' & out' & Hs & -> & Hsp).
    inversion Hs; subst c' s'. simpl. intros Heq. inversion Heq; subst d o.
    exists s. split; [reflexivity|]. right. split; [exact Hsp|].
    exists out', rest. split; reflexivity.
  - intros Heq. inversion Heq; subst d o.
    exists s. split; [reflexivity|]. left. split; reflexivity.
Qed.

Lemma through_plain s d o :
  rewriteAll m s = d :: o -> special d = false ->
  exists s', s = d :: s' /\ m s = None /\ o = rewriteAll m s'.
Proof.
  intros Hr Hd. destruct (through_head _ _ _ Hr) as (s' & -> & [[Hm Ho] | [Hsp _]]).
  - eauto.
  - congruence.
Qed.

Lemma through_prefix p : forall s o,
  Forall (fun c => special c = false) p ->
  strip_prefix p (rewriteAll m s) = Some o ->
  exists s', strip_prefix p s = Some s' /\ o = rewriteAll m s'.
Proof.
  induction p as [|a p IH]; intros s o Hp Hs; simpl in *.
  - inversion Hs; subst. eauto.
  - inversion Hp as [|? ? Ha Hp']; subst.
    destruct (rewriteAll m s) as [|d o'] eqn:Hr; [discriminate|].
    destruct (Z.eqb_spec a d) as [<- | ?]; [|discriminate].
    destruct (through_plain _ _ _ Hr Ha) as (s' & -> & _ & ->).
    rewrite Z.eqb_refl. apply IH; assumption.
Qed.

Lemma through_skip_ws s :
  skip_ws (rewriteAll m s) = rewriteAll m (skip_ws s).
Proof.
  induction s as [|c s IH]; [reflexivity|].
  rewrite skip_ws_cons. destruct (is_ws c) eqn:Hc.
  - destruct (m (c :: s)) as [[out rest]|] eqn:Hm.
    + destruct (keeps_head _ _ _ Hm) as (c' & s' & out' & Hs & _ & Hsp).
      inversion Hs; subst. rewrite (ws_plain _ Hc) in Hsp. discriminate.
    + rewrite (rewriteAll_cons m consumes), Hm, skip_ws_cons, Hc. exact IH.
  - destruct (rewriteAll m (c :: s)) as [|d o] eqn:Hr.
    + rewrite (rewriteAll_cons m consumes) in Hr.
      destruct (m (c :: s)) as [[out rest]|] eqn:Hm; [|discriminate].
      destruct (keeps_head _ _ _ Hm) as (? & ? & ? & _ & -> & _). discriminate.
    + destruct (through_head _ _ _ Hr) as (s' & Hs & _).
      inversion Hs; subst d s'. rewrite skip_ws_cons, Hc. reflexivity.
Qed.
End Through.

(** *** Empty numeric fields *)

Lemma numericFields_ok : forallb nameOk numericFields = true.
Proof. vm_compute. reflexivity. Qed.

Lemma nameOk_no_quote X :
  nameOk X = true -> Forall (fun c => isQuote c = false) X.
Proof.
  unfold nameOk. intros H. apply andb_true_iff in H. destruct H as [H _].
  rewrite forallb_forall in H. apply List.Forall_forall. intros c Hc.
  specialize (H c Hc). unfold plainRune in H.
  repeat (apply andb_true_iff in H; destruct H as [H ?]).
  unfold isQuote. apply negb_true_iff. assumption.
Qed.

Lemma nameOk_no_digit X :
  nameOk X = true -> Forall (fun c => is_digit c = false) X.
Proof.
  unfold nameOk. intros H. apply andb_true_iff in H. destruct H as [H _].
  rewrite forallb_forall in H. apply List.Forall_forall. intros c Hc.
  specialize (H c Hc). unfold plainRune in H.
  repeat (apply andb_true_iff in H; destruct H as [H ?]).
  apply negb_true_iff. assumption.
Qed.

Lemma nameOk_ascii X :
  nameOk X = true -> Forall (fun c => 0 <= c < 128) X.
Proof.
  unfold nameOk. intros H. apply andb_true_iff in H. destruct H as [H _].
  rewrite forallb_forall in H. apply List.Forall_forall. intros c Hc.
  specialize (H c Hc). unfold plainRune in H.
  repeat (apply andb_true_iff in H; destruct H as [H ?]).
  apply Z.leb_le in H. lia.
Qed.

Lemma nameOk_first X :
  nameOk X = true ->
  exists x X', X = x :: X' /\ is_ws x = false /\ x <> colon /\ x <> quote.
Proof.
  intros H. pose proof (nameOk_no_quote X H) as Hq.
  unfold nameOk in H. apply andb_true_iff in H. destruct H as [_ H].
  destruct X as [|x X']; [discriminate|].
  apply andb_true_iff in H. destruct H as [Hw Hc].
  apply negb_true_iff in Hw, Hc.
  exists x, X'. repeat split; auto.
  - intros ->. rewrite Z.eqb_refl in Hc. discriminate.
  - inversion Hq as [|? ? Hx _]; subst. unfold isQuote in Hx.
    intros ->. rewrite Z.eqb_refl in Hx. discriminate.
Qed.

Lemma ws_not_quote c : is_ws c = true -> isQuote c = false.
Proof.
  unfold is_ws, isQuote, quote. intros H.
  destruct (Z.eqb_spec c 34) as [-> | ?]; [discriminate | reflexivity].
Qed.

Lemma ws_not_digit c : is_ws c = true -> is_digit c = false.
Proof.
  unfold is_ws, is_digit. intros H.
  repeat (apply orb_true_iff in H; destruct H as [H | H]);
    apply Z.eqb_eq in H; subst; reflexivity.
Qed.

Lemma runes_null : runes "null" = [110; 117; 108; 108].
Proof. reflexivity. Qed.

Lemma match_empty_field_suffix X s rest :
  match_empty_field X s = Some rest -> exists k, s = quote :: k ++ rest.
Proof.
  unfold match_empty_field. intros H.
  destruct (strip_prefix (quote :: X ++ [quote]) s) as [s1|] eqn:H1; [|discriminate].
  apply strip_prefix_app in H1.
  destruct (strip_prefix [colon] (skip_ws s1)) as [s2|] eqn:H2; [|discriminate].
  apply strip_prefix_app in H2. apply strip_prefix_app in H.
  destruct (skip_ws_suffix s1) as [w1 Hw1]. destruct (skip_ws_suffix s2) as [w2 Hw2].
  rewrite H in Hw2. rewrite H2 in Hw1. subst s s1 s2.
  exists ((X ++ [quote]) ++ w1 ++ [colon] ++ w2 ++ [quote; quote]).
  simpl. rewrite <- !app_assoc. simpl. rewrite <- !app_assoc. reflexivity.
Qed.

Lemma field_consumes X s out rest :
  empty_field_matcher X s = Some (out, rest) ->
  exists k, k <> [] /\ s = k ++ rest.
Proof.
  unfold empty_field_matcher.
  destruct (match_empty_field X s) as [r|] eqn:Hm; [|discriminate].
  intros H. inversion H; subst.
  destruct (match_empty_field_suffix _ _ _ Hm) as [k ->].
  exists (quote :: k). split; [discriminate | reflexivity].
Qed.

Lemma field_keeps_head X s out rest :
  empty_field_matcher X s = Some (out, rest) ->
  exists c s' out', s = c :: s' /\ out = c :: out' /\ isQuote c = true.
Proof.
  unfold empty_field_matcher.
  destruct (match_empty_field X s) as [r|] eqn:Hm; [|discriminate].
  intros H. inversion H; subst.
  destruct (match_empty_field_suffix _ _ _ Hm) as [k ->].
  exists quote, (k ++ rest), (X ++ quote :: colon :: runes "null").
  repeat split.
Qed.

Lemma field_out X s out rest :
  empty_field_matcher X s = Some (quote :: out, rest) ->
  out = X ++ quote :: colon :: [110; 117; 108; 108].
Proof.
  unfold empty_field_matcher.
  destruct (match_empty_field X s) as [r|]; [|discriminate].
  intros H. inversion H; subst. reflexivity.
Qed.

Lemma strip_cons a p s r :
  strip_prefix (a :: p) s = Some r
  <-> exists s', s = a :: s' /\ strip_prefix p s' = Some r.
Proof.
  simpl. destruct s as [|b s].
  - split; [discriminate | intros (s' & Hs & _); discriminate].
  - destruct (Z.eqb_spec a b) as [-> | Hne].
    + split; [eauto | intros (s' & Hs & Hr); inversion Hs; subst; exact Hr].
    + split; [discriminate | intros (s' & Hs & _); inversion Hs; congruence].
Qed.

Lemma strip_one a s r : strip_prefix [a] s = Some r <-> s = a :: r.
Proof.
  rewrite strip_cons. simpl. split.
  - intros (s' & -> & Hr). inversion Hr. reflexivity.
  - intros ->. eauto.
Qed.

Lemma strip_two a b s r : strip_prefix [a; b] s = Some r <-> s = a :: b :: r.
Proof.
  rewrite strip_cons. split.
  - intros (s' & -> & Hr). apply strip_one in Hr. subst. reflexivity.
  - intros ->. exists (b :: r). split; [reflexivity | apply strip_one; reflexivity].
Qed.

(** The shape of a match of ["Y"\s*:\s*""]. *)
Lemma match_inv Y s o :
  match_empty_field Y s = Some o
  <-> exists s0 s1 s2,
        s = quote :: s0 /\ strip_prefix Y s0 = Some (quote :: s1)
        /\ skip_ws s1 = colon :: s2 /\ skip_ws s2 = quote :: quote :: o.
Proof.
  unfold match_empty_field. split.
  - intros H.
    destruct (strip_prefix (quote :: Y ++ [quote]) s) as [s1|] eqn:H1; [|discriminate].
    apply strip_cons in H1. destruct H1 as (s0 & -> & H1).
    rewrite strip_prefix_split in H1.
    destruct (strip_prefix Y s0) as [u|] eqn:Hu; [|discriminate].
    apply strip_one in H1. subst u.
    destruct (strip_prefix [colon] (skip_ws s1)) as [s2|] eqn:H2; [|discriminate].
    apply strip_one in H2. apply strip_two in H.
    exists s0, s1, s2. auto.
  - intros (s0 & s1 & s2 & -> & H0 & H1 & H2).
    assert (Hp : strip_prefix (quote :: Y ++ [quote]) (quote :: s0) = Some s1).
    { apply strip_cons. exists s0. split; [reflexivity|].
      rewrite strip_prefix_split, H0. apply strip_one. reflexivity. }
    rewrite Hp.
    assert (Hc : strip_prefix [colon] (skip_ws s1) = Some s2)
      by (apply strip_one; exact H1).
    rewrite Hc. apply strip_two. exact H2.
Qed.

Lemma match_needs_quote Y c s :
  c <> quote -> match_empty_field Y (c :: s) = None.
Proof.
  intros Hc. destruct (match_empty_field Y (c :: s)) as [o|] eqn:Hm; [|reflexivity].
  apply match_inv in Hm. destruct Hm as (s0 & _ & _ & Hs & _).
  inversion Hs. congruence.
Qed.

Lemma not_isQuote c : isQuote c = false <-> c <> quote.
Proof. unfold isQuote. apply Z.eqb_neq. Qed.

(** A name without quotes is read up to the first quote. *)
Lemma name_then_quote Y : forall X t o,
  Forall (fun c => isQuote c = false) X ->
  Forall (fun c => isQuote c = false) Y ->
  strip_prefix Y (X ++ quote :: t) = Some (quote :: o) ->
  Y = X /\ o = t.
Proof.
  induction Y as [|y Y IH]; intros X t o HX HY H.
  - simpl in H. inversion H as [H']. destruct X as [|x X].
    + simpl in H'. inversion H'. auto.
    + inversion HX as [|? ? Hx _]; subst. apply not_isQuote in Hx.
      simpl in H'. inversion H'. congruence.
  - inversion HY as [|? ? Hy HY']; subst. apply not_isQuote in Hy.
    apply strip_cons in H. destruct H as (s' & Hs & H).
    destruct X as [|x X]; simpl in Hs; inversion Hs; subst; [congruence|].
    inversion HX; subst.
    destruct (IH X t o) as [-> ->]; auto.
Qed.

Section FieldThrough.
Variables X Y : text.
Hypothesis HX : nameOk X = true.
Hypothesis HY : nameOk Y = true.

#[local] Abbreviation R := (rewriteAll (empty_field_matcher X)).

#[local] Abbreviation field_head :=
  (through_head (empty_field_matcher X) isQuote
     (field_consumes X) (field_keeps_head X)).

#[local] Abbreviation field_prefix :=
  (through_prefix (empty_field_matcher X) isQuote
     (field_consumes X) (field_keeps_head X)).

#[local] Abbreviation field_skip_ws :=
  (through_skip_ws (empty_field_matcher X) isQuote
     (field_consumes X) (field_keeps_head X) ws_not_quote).

(** The replacement of [X] begins no match of [Y]. *)
Lemma block_no_match t :
  match_empty_field Y (quote :: X ++ quote :: colon :: 110 :: 117 :: 108 :: 108 :: t)
  = None.
Proof.
  destruct (match_empty_field Y _) as [o|] eqn:Hm; [|reflexivity].
  apply match_inv in Hm. destruct Hm as (s0 & s1 & s2 & Hs & H0 & H1 & H2).
  inversion Hs; subst s0.
  apply name_then_quote in H0;
    [| apply nameOk_no_quote; exact HX | apply nameOk_no_quote; exact HY].
  destruct H0 as [_ ->].
  rewrite skip_ws_cons in H1. change (is_ws colon) with false in H1.
  inversion H1; subst s2.
  rewrite skip_ws_cons in H2. change (is_ws 110) with false in H2.
  discriminate.
Qed.

(** A match of [Y] in the text rewritten for [X] was a match of [Y]
    before, at a place where [X] did not match. *)
Lemma field_through s o :
  match_empty_field Y (R s) = Some o ->
  empty_field_matcher X s = None /\ exists r, match_empty_field Y s = Some r.
Proof.
  intros Hm.
  destruct (nameOk_first X HX) as (x1 & X' & HXeq & Hx1ws & Hx1colon & Hx1quote).
  assert (HYplain : Forall (fun c => isQuote c = false) Y)
    by (apply nameOk_no_quote; exact HY).
  pose proof Hm as Hinv. apply match_inv in Hinv.
  destruct Hinv as (o0 & o1 & o2 & Hr & H0 & H1 & H2).
  rewrite Hr in Hm.
  destruct (field_head _ _ _ Hr)
    as (s0 & -> & [[Hnone ->] | [_ (out' & rest & Hsome & ->)]]).
  - (* the opening quote is a rune of the input *)
    destruct (field_prefix Y s0 _ HYplain H0) as (s2 & Hs2 & Hr2).
    symmetry in Hr2.
    destruct (field_head _ _ _ Hr2)
      as (s3 & -> & [[Hn2 ->] | [_ (out2 & rest2 & Hsome2 & ->)]]).
    + rewrite field_skip_ws in H1.
      destruct (field_head _ _ _ H1) as (s4 & Hs4 & [[_ ->] | [Hsp _]]);
        [| discriminate].
      rewrite field_skip_ws in H2.
      destruct (field_head _ _ _ H2)
        as (s5 & Hs5 & [[Hn5 Ho5] | [_ (out5 & rest5 & Hsome5 & Ho5)]]).
      * symmetry in Ho5. destruct (field_head _ _ _ Ho5) as (s6 & -> & _).
        split; [exact Hnone|]. exists s6. apply match_inv.
        exists s0, s3, s4. auto.
      * apply field_out in Hsome5. subst out5. rewrite HXeq in Ho5.
        simpl in Ho5. inversion Ho5. congruence.
    + apply field_out in Hsome2. subst out2. rewrite HXeq in H1.
      simpl app in H1. rewrite skip_ws_cons, Hx1ws in H1.
      inversion H1. congruence.
  - (* the opening quote begins a replacement *)
    apply field_out in Hsome. subst out'.
    rewrite <- app_assoc in Hm. simpl app in Hm.
    rewrite block_no_match in Hm. discriminate.
Qed.

#[local] Abbreviation free n := (matchFree (empty_field_matcher n)).

Lemma free_head n s : free n s -> match_empty_field n s = None.
Proof.
  intros H. apply matchFree_head in H. unfold empty_field_matcher in H.
  destruct (match_empty_field n s); [discriminate | reflexivity].
Qed.

Lemma free_plain n k : forall t,
  Forall (fun c => isQuote c = false) k -> free n t -> free n (k ++ t).
Proof.
  induction k as [|c k IH]; intros t Hk Ht; [exact Ht|].
  inversion Hk as [|? ? Hc Hk']; subst. simpl. split.
  - unfold empty_field_matcher. rewrite match_needs_quote; [reflexivity|].
    intros ->. unfold isQuote in Hc. rewrite Z.eqb_refl in Hc. discriminate.
  - apply IH; assumption.
Qed.

(** Rewriting for [X] leaves a text free of matches of [Y], when it was
    free of them before or when [Y] is [X] itself. *)
Lemma field_free s :
  Y = X \/ free Y s -> free Y (R s).
Proof.
  destruct (nameOk_first Y HY) as (y1 & Y' & HYeq & _ & Hy1colon & _).
  induction s as [| c s Hm IH | s out rest Hm IH]
    using (rewrite_ind (empty_field_matcher X) (field_consumes X)); intros Hs.
  - simpl. split; [reflexivity | exact I].
  - rewrite (rewriteAll_cons _ (field_consumes X)), Hm.
    assert (Hs' : Y = X \/ free Y s) by (destruct Hs as [? | Hs]; [left | right; simpl in Hs]; tauto).
    split; [| apply IH; exact Hs'].
    unfold empty_field_matcher at 1.
    destruct (match_empty_field Y (c :: R s)) as [o|] eqn:Hy; [exfalso | reflexivity].
    assert (Hy' : match_empty_field Y (R (c :: s)) = Some o)
      by (rewrite (rewriteAll_cons _ (field_consumes X)), Hm; exact Hy).
    destruct (field_through _ _ Hy') as [HnX [r Hr]].
    destruct Hs as [-> | Hs].
    + unfold empty_field_matcher in HnX. rewrite Hr in HnX. discriminate.
    + apply free_head in Hs. congruence.
  - destruct s as [|c s].
    { destruct (field_consumes _ _ _ _ Hm) as (k & Hk & Heq).
      destruct k; [congruence | discriminate]. }
    rewrite (rewriteAll_cons _ (field_consumes X)), Hm.
    assert (Hrest : free Y (R rest)).
    { apply IH. destruct Hs as [? | Hs]; [left; assumption | right].
      destruct (field_consumes _ _ _ _ Hm) as (k & _ & Heq).
      rewrite Heq in Hs. eapply matchFree_app_r; eauto. }
    destruct (field_keeps_head _ _ _ _ Hm) as (q & s' & out' & Hq & -> & Hiq).
    apply Z.eqb_eq in Hiq. subst q.
    pose proof (field_out _ _ _ _ Hm) as ->.
    rewrite <- app_comm_cons, <- app_assoc. simpl app.
    split.
    + unfold empty_field_matcher. rewrite block_no_match. reflexivity.
    + apply free_plain; [apply nameOk_no_quote; exact HX|].
      simpl. repeat split; try exact Hrest;
        try (unfold empty_field_matcher;
             rewrite match_needs_quote by (unfold quote, colon; lia);
             reflexivity).
      unfold empty_field_matcher.
      destruct (match_empty_field Y _) as [o|] eqn:Hmy; [|reflexivity].
      apply match_inv in Hmy. destruct Hmy as (s0 & s1 & s2 & Hs0 & H0 & _).
      inversion Hs0; subst s0. rewrite HYeq in H0.
      apply strip_cons in H0. destruct H0 as (? & H0 & _).
      inversion H0. congruence.
Qed.
End FieldThrough.

(** [fixEmptyStringFields] leaves no match of any of its patterns. *)
Lemma fields_free names : forall s Y,
  forallb nameOk names = true -> nameOk Y = true ->
  In Y names \/ matchFree (empty_field_matcher Y) s ->
  matchFree (empty_field_matcher Y)
    (fold_left (fun s name => replaceEmptyField name s) names s).
Proof.
  induction names as [|X names IH]; intros s Y Hok HY Hs; simpl.
  - destruct Hs as [[] | Hs]. exact Hs.
  - simpl in Hok. apply andb_true_iff in Hok. destruct Hok as [HX Hok].
    destruct Hs as [[-> | Hin] | Hs].
    + apply IH; auto. right. apply field_free; auto.
    + apply IH; auto.
    + apply IH; auto. right. apply field_free; auto.
Qed.

Lemma fields_fixed names : forall s,
  (forall Y, In Y names -> matchFree (empty_field_matcher Y) s) ->
  fold_left (fun s name => replaceEmptyField name s) names s = s.
Proof.
  induction names as [|X names IH]; intros s Hs; simpl; [reflexivity|].
  unfold replaceEmptyField at 2.
  rewrite (rewriteAll_matchFree _ (field_consumes X)) by (apply Hs; left; reflexivity).
  apply IH. intros Y HY. apply Hs. right. exact HY.
Qed.

Lemma numericFields_each Y : In Y numericFields -> nameOk Y = true.
Proof.
  intros HY. pose proof numericFields_ok as Hok.
  rewrite forallb_forall in Hok. apply Hok. exact HY.
Qed.

(** *** Thousand separators *)

Lemma match_thousands_inv s out rest :
  match_thousands s = Some (out, rest) ->
  exists d ds x y z,
    s = (d :: ds) ++ comma :: x :: y :: z :: rest
    /\ out = (d :: ds) ++ [x; y; z]
    /\ Forall (fun c => is_digit c = true) out.
Proof.
  unfold match_thousands. intros H.
  pose proof (span_digits_app s) as Happ.
  pose proof (span_digits_all s) as Hall.
  destruct (span_digits s) as [run r]. simpl in *.
  destruct run as [|d ds]; [discriminate|].
  destruct r as [|c [|x [|y [|z rest']]]]; try discriminate.
  destruct (Z.eqb_spec c comma) as [-> | ?]; [|discriminate].
  destruct (is_digit x) eqn:Hx; [|discriminate].
  destruct (is_digit y) eqn:Hy; [|discriminate].
  destruct (is_digit z) eqn:Hz; [|discriminate].
  simpl in H. inversion H; subst out rest'.
  exists d, ds, x, y, z. repeat split; auto.
  change (Forall (fun c => is_digit c = true) ((d :: ds) ++ [x; y; z])).
  apply Forall_app. split; [exact Hall | repeat constructor; assumption].
Qed.

Lemma thousands_consumes s out rest :
  match_thousands s = Some (out, rest) -> exists k, k <> [] /\ s = k ++ rest.
Proof.
  intros H. destruct (match_thousands_inv _ _ _ H) as (d & ds & x & y & z & -> & _ & _).
  exists ((d :: ds) ++ [comma; x; y; z]). split; [discriminate|].
  rewrite <- app_assoc. reflexivity.
Qed.

Lemma thousands_keeps_head s out rest :
  match_thousands s = Some (out, rest) ->
  exists c s' out', s = c :: s' /\ out = c :: out' /\ is_digit c = true.
Proof.
  intros H. destruct (match_thousands_inv _ _ _ H) as (d & ds & x & y & z & -> & -> & Hd).
  exists d, (ds ++ comma :: x :: y :: z :: rest), (ds ++ [x; y; z]).
  repeat split. inversion Hd; assumption.
Qed.

Lemma thousands_shorter s out rest :
  match_thousands s = Some (out, rest) ->
  (length out + length rest < length s)%nat.
Proof.
  intros H. destruct (match_thousands_inv _ _ _ H) as (d & ds & x & y & z & -> & -> & _).
  rewrite !length_app. simpl. lia.
Qed.

Lemma thousandsPass_shrinks s :
  thousandsPass s = s \/ (length (thousandsPass s) < length s)%nat.
Proof.
  apply (rewriteAll_shrinks _ thousands_consumes thousands_shorter).
Qed.

Lemma thousandsLoop_fixed fuel : forall s,
  (length s < fuel)%nat ->
  thousandsPass (thousandsLoop fuel s) = thousandsLoop fuel s.
Proof.
  induction fuel as [|fuel IH]; intros s Hlen; [lia|]. simpl.
  destruct (bool_decide (thousandsPass s = s)) eqn:Hb.
  - apply bool_decide_eq_true in Hb. exact Hb.
  - apply bool_decide_eq_false in Hb.
    destruct (thousandsPass_shrinks s) as [? | Hlt]; [contradiction|].
    apply IH. lia.
Qed.

Lemma thousandsLoop_keeps (P : text -> Prop) :
  (forall s, P s -> P (thousandsPass s)) ->
  forall fuel s, P s -> P (thousandsLoop fuel s).
Proof.
  intros Hstep fuel. induction fuel as [|fuel IH]; intros s Hs; [exact Hs|].
  simpl. destruct (bool_decide (thousandsPass s = s)); [exact Hs|].
  apply IH. apply Hstep. exact Hs.
Qed.

Lemma fixThousandSeparators_fixed s :
  thousandsPass (fixThousandSeparators s) = fixThousandSeparators s.
Proof. apply thousandsLoop_fixed. lia. Qed.

Lemma fixThousandSeparators_id s :
  thousandsPass s = s -> fixThousandSeparators s = s.
Proof.
  intros H. unfold fixThousandSeparators. simpl.
  rewrite bool_decide_eq_true_2 by exact H. reflexivity.
Qed.

Section ThousandsThrough.
Variable Y : text.
Hypothesis HY : nameOk Y = true.

#[local] Abbreviation digits_plain :=
  (through_plain match_thousands is_digit thousands_consumes thousands_keeps_head).

(** A match of [Y] in the text after a pass was a match of [Y] before:
    no rune of such a match is a digit. *)
Lemma thousands_through s o :
  match_empty_field Y (thousandsPass s) = Some o ->
  exists r, match_empty_field Y s = Some r.
Proof.
  intros Hm. apply match_inv in Hm.
  destruct Hm as (o0 & o1 & o2 & Hr & H0 & H1 & H2).
  destruct (digits_plain _ _ _ Hr eq_refl) as (s0 & -> & _ & ->).
  destruct (through_prefix match_thousands is_digit thousands_consumes
              thousands_keeps_head Y s0 _ (nameOk_no_digit Y HY) H0)
    as (s2 & Hs2 & Hr2).
  symmetry in Hr2.
  destruct (digits_plain _ _ _ Hr2 eq_refl) as (s3 & -> & _ & ->).
  unfold thousandsPass in H1, H2.
  rewrite (through_skip_ws match_thousands is_digit thousands_consumes
             thousands_keeps_head ws_not_digit) in H1.
  destruct (digits_plain _ _ _ H1 eq_refl) as (s4 & Hs4 & _ & ->).
  rewrite (through_skip_ws match_thousands is_digit thousands_consumes
             thousands_keeps_head ws_not_digit) in H2.
  destruct (digits_plain _ _ _ H2 eq_refl) as (s5 & Hs5 & _ & Ho5).
  symmetry in Ho5.
  destruct (digits_plain _ _ _ Ho5 eq_refl) as (s6 & -> & _ & _).
  exists s6. apply match_inv. exists s0, s3, s4. auto.
Qed.

Lemma digit_not_quote c : is_digit c = true -> isQuote c = false.
Proof.
  unfold is_digit, isQuote, quote. intros H.
  apply andb_true_iff in H. destruct H as [H1 H2].
  apply Z.leb_le in H1. apply Z.eqb_neq. lia.
Qed.

Lemma thousands_free s :
  matchFree (empty_field_matcher Y) s ->
  matchFree (empty_field_matcher Y) (thousandsPass s).
Proof.
  unfold thousandsPass.
  induction s as [| c s Hm IH | s out rest Hm IH]
    using (rewrite_ind match_thousands thousands_consumes); intros Hs.
  - exact Hs.
  - rewrite (rewriteAll_cons _ thousands_consumes), Hm.
    split; [| apply IH; simpl in Hs; tauto].
    unfold empty_field_matcher at 1.
    destruct (match_empty_field Y (c :: rewriteAll match_thousands s)) as [o|] eqn:Hy;
      [exfalso | reflexivity].
    assert (Hy' : match_empty_field Y (thousandsPass (c :: s)) = Some o).
    { unfold thousandsPass. rewrite (rewriteAll_cons _ thousands_consumes), Hm. exact Hy. }
    destruct (thousands_through _ _ Hy') as [r Hr].
    apply free_head in Hs. congruence.
  - destruct s as [|c s].
    { destruct (thousands_consumes _ _ _ Hm) as (k & Hk & Heq).
      destruct k; [congruence | discriminate]. }
    rewrite (rewriteAll_cons _ thousands_consumes), Hm.
    destruct (match_thousands_inv _ _ _ Hm) as (d & ds & x & y & z & Heq & _ & Hdig).
    apply free_plain.
    + eapply Forall_impl; [exact Hdig|]. intros a Ha. apply digit_not_quote. exact Ha.
    + apply IH. destruct (thousands_consumes _ _ _ Hm) as (k & _ & Hk).
      rewrite Hk in Hs. eapply matchFree_app_r; eauto.
Qed.
End ThousandsThrough.

(** *** Invisible runes and full-width punctuation *)

Lemma fold_replaceRune tbl : forall s,
  fold_left (fun s p => replaceRune (fst p) (snd p) s) tbl s
  = map (fun c => fold_left (fun c p => if c =? fst p then snd p else c) tbl c) s.
Proof.
  induction tbl as [|p tbl IH]; intros s; simpl.
  - symmetry. apply map_id.
  - rewrite IH. unfold replaceRune. rewrite map_map. reflexivity.
Qed.

Lemma fixMissingQuotes_map s : fixMissingQuotes s = map quoteMap s.
Proof. apply fold_replaceRune. Qed.

Lemma fold_not_source tbl : forall c,
  existsb (fun p => c =? fst p) tbl = false ->
  fold_left (fun c p => if c =? fst p then snd p else c) tbl c = c.
Proof.
  induction tbl as [|p tbl IH]; intros c H; simpl in *; [reflexivity|].
  apply orb_false_iff in H. destruct H as [H1 H2]. rewrite H1. apply IH. exact H2.
Qed.

Lemma quoteMap_plain c : isSource c = false -> quoteMap c = c.
Proof. apply fold_not_source. Qed.

Lemma quoteMap_not_source c : isSource (quoteMap c) = false.
Proof.
  destruct (isSource c) eqn:Hc.
  - unfold isSource, quoteTable in Hc. simpl in Hc.
    repeat (apply orb_true_iff in Hc; destruct Hc as [Hc | Hc];
            [apply Z.eqb_eq in Hc; subst c; vm_compute; reflexivity |]).
    discriminate.
  - rewrite quoteMap_plain; assumption.
Qed.

Lemma quoteMap_visible c : is_invisible c = false -> is_invisible (quoteMap c) = false.
Proof.
  intros Hv. destruct (isSource c) eqn:Hc.
  - unfold isSource, quoteTable in Hc. simpl in Hc.
    repeat (apply orb_true_iff in Hc; destruct Hc as [Hc | Hc];
            [apply Z.eqb_eq in Hc; subst c; vm_compute; reflexivity |]).
    discriminate.
  - rewrite quoteMap_plain; assumption.
Qed.

Lemma ascii_not_source c : asciiRune c -> isSource c = false.
Proof.
  unfold asciiRune, isSource, quoteTable. intros H. simpl.
  repeat (apply orb_false_iff; split); try reflexivity; apply Z.eqb_neq; lia.
Qed.

Lemma ascii_visible c : asciiRune c -> is_invisible c = false.
Proof.
  unfold asciiRune, is_invisible. intros H.
  repeat (apply orb_false_iff; split); apply Z.eqb_neq; lia.
Qed.

Lemma digit_ascii c : is_digit c = true -> asciiRune c.
Proof.
  unfold is_digit, asciiRune. intros H. apply andb_true_iff in H.
  destruct H as [H1 H2]. apply Z.leb_le in H1, H2. lia.
Qed.

(** A class of runes that holds all of ASCII is kept by the repairs of
    empty fields and of thousand separators. *)
Section KeepsClass.
Variable P : rune -> Prop.
Hypothesis ascii_in : forall c, asciiRune c -> P c.

Lemma replaceEmptyField_keeps X s :
  nameOk X = true -> Forall P s -> Forall P (replaceEmptyField X s).
Proof.
  intros HX. apply (rewriteAll_Forall _ (field_consumes X)).
  intros t out rest Hm. unfold empty_field_matcher in Hm.
  destruct (match_empty_field X t); [|discriminate]. inversion Hm; subst.
  unfold field_null. constructor; [apply ascii_in; unfold asciiRune, quote; lia|].
  apply Forall_app. split.
  - eapply Forall_impl; [apply nameOk_ascii; exact HX|]. exact ascii_in.
  - rewrite runes_null.
    repeat constructor; apply ascii_in; unfold asciiRune, quote, colon; lia.
Qed.

Lemma fixEmptyStringFields_keeps s :
  Forall P s -> Forall P (fixEmptyStringFields s).
Proof.
  unfold fixEmptyStringFields. pose proof numericFields_ok as Hok.
  revert s. induction numericFields as [|X names IH]; intros s Hs; [exact Hs|].
  simpl in Hok. apply andb_true_iff in Hok. destruct Hok as [HX Hok].
  simpl. apply IH; [exact Hok|]. apply replaceEmptyField_keeps; assumption.
Qed.

Lemma thousandsPass_keeps s : Forall P s -> Forall P (thousandsPass s).
Proof.
  apply (rewriteAll_Forall _ thousands_consumes).
  intros t out rest Hm.
  destruct (match_thousands_inv _ _ _ Hm) as (_ & _ & _ & _ & _ & _ & _ & Hd).
  eapply Forall_impl; [exact Hd|]. intros c Hc. apply ascii_in, digit_ascii, Hc.
Qed.

Lemma fixThousandSeparators_keeps s :
  Forall P s -> Forall P (fixThousandSeparators s).
Proof. apply thousandsLoop_keeps. exact thousandsPass_keeps. Qed.
End KeepsClass.

Lemma removeInvisibleRunes_visible s :
  Forall (fun c => is_invisible c = false) (removeInvisibleRunes s).
Proof.
  unfold removeInvisibleRunes, text, rune. induction s as [|c s IH]; [constructor|].
  rewrite filter_cons. destruct (decide (is_invisible c = false)); [constructor|]; assumption.
Qed.

Lemma removeInvisibleRunes_id s :
  Forall (fun c => is_invisible c = false) s -> removeInvisibleRunes s = s.
Proof.
  unfold removeInvisibleRunes, text, rune. induction 1 as [|c s Hc Hs IH]; [reflexivity|].
  rewrite filter_cons_True by exact Hc. f_equal. exact IH.
Qed.

Lemma fixMissingQuotes_id s :
  Forall (fun c => isSource c = false) s -> fixMissingQuotes s = s.
Proof.
  rewrite fixMissingQuotes_map. induction 1 as [|c s Hc Hs IH]; [reflexivity|].
  simpl. rewrite quoteMap_plain by exact Hc. f_equal. exact IH.
Qed.

Lemma fixMissingQuotes_no_source s :
  Forall (fun c => isSource c = false) (fixMissingQuotes s).
Proof.
  rewrite fixMissingQuotes_map. induction s; simpl; constructor; auto.
  apply quoteMap_not_source.
Qed.

Lemma fixMissingQuotes_visible s :
  Forall (fun c => is_invisible c = false) s ->
  Forall (fun c => is_invisible c = false) (fixMissingQuotes s).
Proof.
  rewrite fixMissingQuotes_map. induction 1; simpl; constructor; auto.
  apply quoteMap_visible. assumption.
Qed.

Lemma fixEmptyStringFields_free s Y :
  In Y numericFields ->
  matchFree (empty_field_matcher Y) (fixEmptyStringFields s).
Proof.
  intros HY. apply fields_free.
  - exact numericFields_ok.
  - apply numericFields_each. exact HY.
  - left. exact HY.
Qed.

Lemma fixEmptyStringFields_id s :
  (forall Y, In Y numericFields -> matchFree (empty_field_matcher Y) s) ->
  fixEmptyStringFields s = s.
Proof. apply fields_fixed. Qed.

(** C6: the repair pipeline is idempotent, and so is each of the four
    repairs it is made of. *)
Theorem repair_idempotent :
  forall s : text,
    repair (repair s) = repair s
    /\ removeInvisibleRunes (removeInvisibleRunes s) = removeInvisibleRunes s
    /\ fixMissingQuotes (fixMissingQuotes s) = fixMissingQuotes s
    /\ fixEmptyStringFields (fixEmptyStringFields s) = fixEmptyStringFields s
    /\ fixThousandSeparators (fixThousandSeparators s) = fixThousandSeparators s.
Proof.
  intros s. repeat split.
  - unfold repair.
    set (e := fixEmptyStringFields (fixMissingQuotes (removeInvisibleRunes s))).
    assert (Hvis : Forall (fun c => is_invisible c = false) (fixThousandSeparators e)).
    { apply fixThousandSeparators_keeps; [exact ascii_visible|].
      apply fixEmptyStringFields_keeps; [exact ascii_visible|].
      apply fixMissingQuotes_visible, removeInvisibleRunes_visible. }
    assert (Hsrc : Forall (fun c => isSource c = false) (fixThousandSeparators e)).
    { apply fixThousandSeparators_keeps; [exact ascii_not_source|].
      apply fixEmptyStringFields_keeps; [exact ascii_not_source|].
      apply fixMissingQuotes_no_source. }
    assert (Hfree : forall Y, In Y numericFields ->
              matchFree (empty_field_matcher Y) (fixThousandSeparators e)).
    { intros Y HY. unfold fixThousandSeparators.
      apply (thousandsLoop_keeps (matchFree (empty_field_matcher Y))).
      - intros t. apply thousands_free, numericFields_each, HY.
      - apply fixEmptyStringFields_free, HY. }
    rewrite (removeInvisibleRunes_id _ Hvis), (fixMissingQuotes_id _ Hsrc),
      (fixEmptyStringFields_id _ Hfree).
    apply fixThousandSeparators_id, fixThousandSeparators_fixed.
  - apply removeInvisibleRunes_id, removeInvisibleRunes_visible.
  - apply fixMissingQuotes_id, fixMissingQuotes_no_source.
  - apply fixEmptyStringFields_id. intros Y HY. apply fixEmptyStringFields_free, HY.
  - apply fixThousandSeparators_id, fixThousandSeparators_fixed.
Qed.

(** *** The fallback decision *)











End TextFacts.

(** ** The OKX adapter *)

Module OKXFacts.
Import OKX.

(** *** What a computation of the adapter leaves alone *)

Section Frame.
Context {V : Type} `{Venue V} `{Strconv} {X : Type} (view : OKXTrader -> X).

Lemma keeps_ret {A} (a : A) : keeps (V:=V) view (mret a : M (@World V) A).
Proof. intros w. reflexivity. Qed.

Lemma keeps_fail {A} (e : Error) : keeps (V:=V) view (@fail (@World V) A e).
Proof. intros w. reflexivity. Qed.

Lemma keeps_bind {A B} (m : M (@World V) A) (k : A -> M (@World V) B) :
  keeps (V:=V) view m -> (forall a, keeps (V:=V) view (k a)) -> keeps (V:=V) view (m ≫= k).
Proof.
  intros Hm Hk w. unfold mbind, M_bind.
  specialize (Hm w). destruct (m w) as [[a | e] w1]; simpl in *.
  - rewrite Hk. exact Hm.
  - exact Hm.
Qed.

Lemma keeps_attempt {A} (m : M (@World V) A) : keeps (V:=V) view m -> keeps (V:=V) view (attempt m).
Proof.
  intros Hm w. unfold attempt. specialize (Hm w).
  destruct (m w) as [r w1]. exact Hm.
Qed.

Lemma keeps_request r : keeps (V:=V) view (request r).
Proof.
  intros w. unfold request. destruct (makeRequest r (snd w)) as [[d | msg] v]; reflexivity.
Qed.

Lemma keeps_now : keeps (V:=V) view now.
Proof. intros w. reflexivity. Qed.

Lemma keeps_adapter : keeps (V:=V) view adapter.
Proof. intros w. reflexivity. Qed.

Lemma keeps_sleep d : keeps (V:=V) view (sleep d).
Proof. intros w. reflexivity. Qed.

Lemma keeps_update f : (forall t, view (f t) = view t) -> keeps (V:=V) view (update f).
Proof. intros Hf w. apply Hf. Qed.

Lemma keeps_forEach {A} (l : list A) (f : A -> M (@World V) unit) :
  (forall x, keeps (V:=V) view (f x)) -> keeps (V:=V) view (forEach l f).
Proof.
  intros Hf. induction l as [| x l IH]; simpl.
  - apply keeps_ret.
  - apply keeps_bind; [apply Hf | intros _; exact IH].
Qed.

End Frame.

Create HintDb frame.
#[local] Hint Resolve keeps_ret keeps_fail keeps_attempt keeps_request keeps_now
  keeps_adapter keeps_sleep : frame.
#[local] Hint Extern 1 (_ = _) => reflexivity : frame.

(** One step of a frame proof: the next bind, loop or case of the code. *)
Ltac frame_step :=
  first
    [ solve [auto with frame]
    | apply keeps_bind; [| intros ?]
    | apply keeps_forEach; intros ?
    | apply keeps_update; intros ?; reflexivity
    | match goal with
      | |- keeps _ (match ?x with _ => _ end) => destruct x
      | |- keeps _ (let _ := _ in _) => cbv zeta
      end ].

Ltac frame := repeat frame_step.

Section Kept.
Context {V : Type} `{Venue V} `{Strconv} {X : Type} (view : OKXTrader -> X).
Hypothesis view_precision : forall s p t, view (setPrecision s p t) = view t.
Hypothesis view_lot : forall s l t, view (setLotSz s l t) = view t.

Lemma keeps_GetMarketPrice symbol : keeps (V:=V) view (GetMarketPrice symbol).
Proof. unfold GetMarketPrice. frame. Qed.

Lemma keeps_CancelAllOrders symbol : keeps (V:=V) view (CancelAllOrders symbol).
Proof. unfold CancelAllOrders, cancelAllOrdersOneByOne. frame. Qed.

Lemma keeps_cancelOrdersOfType kinds symbol : keeps (V:=V) view (cancelOrdersOfType kinds symbol).
Proof. unfold cancelOrdersOfType. frame. Qed.

Lemma keeps_SetLeverageWithPosSide symbol leverage posSide :
  keeps (V:=V) view (SetLeverageWithPosSide symbol leverage posSide).
Proof. unfold SetLeverageWithPosSide. frame. Qed.

Lemma keeps_GetSymbolPrecision symbol : keeps (V:=V) view (GetSymbolPrecision symbol).
Proof.
  unfold GetSymbolPrecision. frame.
  all: try (apply keeps_update; intros ?; apply view_precision).
Qed.

Lemma keeps_GetSymbolLotSz symbol : keeps (V:=V) view (GetSymbolLotSz symbol).
Proof.
  unfold GetSymbolLotSz. frame.
  all: try (apply keeps_update; intros ?; apply view_lot).
Qed.

Lemma keeps_FormatQuantity symbol quantity : keeps (V:=V) view (FormatQuantity symbol quantity).
Proof.
  unfold FormatQuantity.
  apply keeps_bind; [apply keeps_attempt, keeps_GetSymbolPrecision | intros p].
  destruct p; [| apply keeps_ret].
  apply keeps_bind; [apply keeps_attempt, keeps_GetSymbolLotSz | intros l].
  apply keeps_ret.
Qed.

Lemma keeps_setProtection isStop symbol positionSide quantity price :
  keeps (V:=V) view (setProtection isStop symbol positionSide quantity price).
Proof.
  unfold setProtection.
  apply keeps_bind; [apply keeps_FormatQuantity | intros q]. frame.
Qed.

End Kept.

Lemma positionsView_eq (t t' : OKXTrader) :
  positionsView t' = positionsView t ->
  cachedPositions t' = cachedPositions t
  /\ positionsCacheTime t' = positionsCacheTime t
  /\ cacheDuration t' = cacheDuration t.
Proof. unfold positionsView. intros Hv. inversion Hv. auto. Qed.

Lemma balanceView_eq (t t' : OKXTrader) :
  balanceView t' = balanceView t ->
  cachedBalance t' = cachedBalance t
  /\ balanceCacheTime t' = balanceCacheTime t
  /\ cacheDuration t' = cacheDuration t.
Proof. unfold balanceView. intros Hv. inversion Hv. auto. Qed.

Section Caches.
Context {V : Type} `{Venue V} `{Strconv}.

#[local] Hint Resolve keeps_GetMarketPrice keeps_CancelAllOrders
  keeps_cancelOrdersOfType keeps_SetLeverageWithPosSide keeps_GetSymbolLotSz
  keeps_FormatQuantity keeps_setProtection : frame.

Lemma GetBalance_keeps_positions : keeps (V:=V) positionsView GetBalance.
Proof. unfold GetBalance, fetchBalance. frame. Qed.

Lemma GetPositions_keeps_balance : keeps (V:=V) balanceView GetPositions.
Proof. unfold GetPositions, fetchPositions. frame. Qed.

#[local] Hint Resolve GetBalance_keeps_positions GetPositions_keeps_balance : frame.

Lemma openPosition_keeps_positions isLong symbol quantity leverage stopLoss takeProfit :
  keeps (V:=V) positionsView
    (openPosition isLong symbol quantity leverage stopLoss takeProfit).
Proof.
  unfold openPosition, prepareOpen, rejectForMargin, submitOpen. frame.
Qed.

Lemma closePosition_keeps_balance isLong symbol quantity :
  keeps (V:=V) balanceView (closePosition isLong symbol quantity).
Proof. unfold closePosition. frame. Qed.

Lemma closePosition_keeps_positions isLong symbol quantity :
  Qeqb quantity 0 = false ->
  keeps (V:=V) positionsView (closePosition isLong symbol quantity).
Proof. intros Hq. unfold closePosition. rewrite Hq. frame. Qed.

Lemma forget_keeps {X A} (view : OKXTrader -> X) (m : M (@World V) A) :
  keeps view m -> keeps view (forget m).
Proof. intros Hm. unfold forget. frame. Qed.

Lemma mutate_keeps_positions m :
  readsPositions m = false -> keeps (V:=V) positionsView (mutate m).
Proof.
  intros Hr. destruct m; simpl in *;
    unfold OpenLong, OpenShort, CloseLong, CloseShort, SetStopLoss,
      SetTakeProfit, CancelStopLossOrders, CancelTakeProfitOrders,
      CancelStopOrders;
    first [ apply forget_keeps | idtac ];
    auto using openPosition_keeps_positions, closePosition_keeps_positions
      with frame.
Qed.

Lemma mutate_keeps_balance m :
  readsBalance m = false -> keeps (V:=V) balanceView (mutate m).
Proof.
  intros Hr. destruct m; simpl in *; try discriminate;
    unfold CloseLong, CloseShort, SetStopLoss,
      SetTakeProfit, CancelStopLossOrders, CancelTakeProfitOrders,
      CancelStopOrders;
    first [ apply forget_keeps | idtac ];
    auto using closePosition_keeps_balance with frame.
Qed.

Lemma GetPositions_cached (w : @World V) ps :
  cachedPositions (fst w) = Some ps ->
  timeNow (snd w) - positionsCacheTime (fst w) < cacheDuration (fst w) ->
  GetPositions w = (Ok ps, w).
Proof.
  intros Hc Ht. unfold GetPositions, adapter, now, mbind, M_bind, mret, M_ret.
  simpl. rewrite Hc. apply Z.ltb_lt in Ht. rewrite Ht. reflexivity.
Qed.

Lemma GetBalance_cached (w : @World V) b :
  cachedBalance (fst w) = Some b ->
  timeNow (snd w) - balanceCacheTime (fst w) < cacheDuration (fst w) ->
  GetBalance w = (Ok b, w).
Proof.
  intros Hc Ht. unfold GetBalance, adapter, now, mbind, M_bind, mret, M_ret.
  simpl. rewrite Hc. apply Z.ltb_lt in Ht. rewrite Ht. reflexivity.
Qed.

(** Claim C1, as the code has it.  No mutation of the adapter
    invalidates a cache.  A mutation that does not read the positions
    itself (every one but a close of the whole side, quantity 0) leaves
    the cached positions and their time stamp as they were, and a read of
    the positions made while that time stamp is younger than
    [cacheDuration] returns the list cached before the mutation and asks
    the venue nothing; the same holds of the balance for every mutation
    that does not read it (every one but an open).  This is so on every
    path of the mutation, the successful ones included. *)
Theorem mutations_keep_caches (m : Mutation) (w : @World V) :
  let w' := snd (mutate m w) in
  (readsPositions m = false ->
     cachedPositions (fst w') = cachedPositions (fst w)
     /\ positionsCacheTime (fst w') = positionsCacheTime (fst w)
     /\ forall ps,
          cachedPositions (fst w) = Some ps ->
          timeNow (snd w') - positionsCacheTime (fst w) < cacheDuration (fst w) ->
          GetPositions w' = (Ok ps, w'))
  /\ (readsBalance m = false ->
       cachedBalance (fst w') = cachedBalance (fst w)
       /\ balanceCacheTime (fst w') = balanceCacheTime (fst w)
       /\ forall b,
            cachedBalance (fst w) = Some b ->
            timeNow (snd w') - balanceCacheTime (fst w) < cacheDuration (fst w) ->
            GetBalance w' = (Ok b, w')).
Proof.
  cbv zeta. split; intros Hr.
  - destruct (positionsView_eq _ _ (mutate_keeps_positions m Hr w)) as (Hc & Ht & Hd).
    split; [exact Hc | split; [exact Ht |]].
    intros ps Hps Hfresh. apply GetPositions_cached.
    + rewrite Hc. exact Hps.
    + rewrite Ht, Hd. exact Hfresh.
  - destruct (balanceView_eq _ _ (mutate_keeps_balance m Hr w)) as (Hc & Ht & Hd).
    split; [exact Hc | split; [exact Ht |]].
    intros b Hb Hfresh. apply GetBalance_cached.
    + rewrite Hc. exact Hb.
    + rewrite Ht, Hd. exact Hfresh.
Qed.

End Caches.

(** *** Rounding to the lot size, and the margin check *)









Section Opening.
Context {V : Type} `{Venue V} `{Strconv}.

Ltac run := unfold mbind, M_bind, mret, M_ret, attempt, adapter, update, fail.

Lemma GetSymbolPrecision_total symbol (w : @World V) :
  exists precision, fst (GetSymbolPrecision symbol w) = Ok precision.
Proof.
  unfold GetSymbolPrecision. run. simpl.
  destruct (symbolPrecision (fst w) !! symbol); [eauto |].
  destruct (request _ w) as [[[]|e] w1]; simpl; eauto.
  destruct lotSz; simpl; eauto.
Qed.

Lemma GetSymbolLotSz_total symbol (w : @World V) :
  exists lotSz, fst (GetSymbolLotSz symbol w) = Ok lotSz.
Proof.
  unfold GetSymbolLotSz. run. simpl.
  destruct (symbolLotSz (fst w) !! symbol); [eauto |].
  destruct (request _ w) as [r w1]; simpl; eauto.
Qed.

Lemma run_FormatQuantity symbol quantity (w : @World V) :
  exists precision lotSz,
    fst (GetSymbolPrecision symbol w) = Ok precision
    /\ fst (GetSymbolLotSz symbol (snd (GetSymbolPrecision symbol w))) = Ok lotSz
    /\ FormatQuantity symbol quantity w
       = (Ok (formatFixed precision (roundToLot lotSz quantity)),
          snd (GetSymbolLotSz symbol (snd (GetSymbolPrecision symbol w)))).
Proof.
  destruct (GetSymbolPrecision_total symbol w) as [p Hp].
  destruct (GetSymbolLotSz_total symbol (snd (GetSymbolPrecision symbol w))) as [l Hl].
  exists p, l. split; [exact Hp | split; [exact Hl |]].
  unfold FormatQuantity. run.
  destruct (GetSymbolPrecision symbol w) as [rp w1]. simpl in *. subst rp.
  destruct (GetSymbolLotSz symbol w1) as [rl w2]. simpl in *. subst rl.
  reflexivity.
Qed.




End Opening.
End OKXFacts.

(** ** The trader engine *)

Module EngineFacts.
Import Decisions Engine.

Ltac unfold_m :=
  unfold mbind, M_bind, mret, M_ret, fail, attempt, outside, self, modify,
    timeNowE in *.

#[local] Arguments Qplus : simpl never.
#[local] Arguments Qminus : simpl never.
#[local] Arguments Qmult : simpl never.
#[local] Arguments Qdiv : simpl never.
#[local] Arguments Qabs : simpl never.
#[local] Arguments Qopp : simpl never.
#[local] Arguments inject_Z : simpl never.
#[local] Arguments Z.mul : simpl never.
#[local] Arguments Z.sub : simpl never.
#[local] Arguments Z.ltb : simpl never.
#[local] Arguments usableBalance : simpl never.


Section Monitor.
Context {E : Type} `{Host E}.

(** Claim C9.  When ten minutes or more have passed since the last
    sync and the balance cannot be had, because [GetBalance] fails or
    because its answer holds no positive balance under any of the three
    keys, [autoSyncBalanceIfNeeded] returns without an error, sets
    [lastBalanceSyncTime] to the time read after the attempt and leaves
    [initialBalance] as it was; and as long as less than ten minutes
    have passed since that time, a further call does nothing at all: no
    call to the trader, no change of the engine. *)
Theorem autoSync_failure_waits :
  forall (a : AutoTrader) (e : E),
    10 * minute <= clock e - lastBalanceSyncTime a ->
    (forall b, fst (GetBalance e) = Ok b -> usableBalance b = None) ->
    exists a',
      autoSyncBalanceIfNeeded (a, e) = (Ok tt, (a', snd (GetBalance e)))
      /\ lastBalanceSyncTime a' = clock (snd (GetBalance e))
      /\ initialBalance a' = initialBalance a
      /\ (forall e2, clock e2 - clock (snd (GetBalance e)) < 10 * minute ->
            autoSyncBalanceIfNeeded (a', e2) = (Ok tt, (a', e2))).
Proof.
  intros a e Hdue Hfail.
  exists (withLastBalanceSyncTime (clock (snd (GetBalance e))) a).
  split; [| split; [reflexivity | split; [reflexivity |]]].
  - unfold autoSyncBalanceIfNeeded, stampSync. unfold_m. simpl.
    apply Z.ltb_ge in Hdue. rewrite Hdue.
    destruct (GetBalance e) as [[b | err] e1] eqn:HB; simpl.
    + rewrite HB. simpl. rewrite (Hfail b eq_refl). reflexivity.
    + rewrite HB. reflexivity.
  - intros e2 Hlt. unfold autoSyncBalanceIfNeeded. unfold_m. simpl.
    apply Z.ltb_lt in Hlt. rewrite Hlt. reflexivity.
Qed.

(** *** The drawdown monitor *)


Lemma maintained_positive old cur :
  (5 < cur)%Q -> (0 < maintainedPeak old cur)%Q.
Proof.
  intros Hc. unfold maintainedPeak. destruct old as [p|]; [|lra].
  destruct (Qltb p cur) eqn:Hp; [lra|]. apply Qltb_ge in Hp. lra.
Qed.


Lemma run_UpdatePeakPnL symbol cur (a : AutoTrader) (e : E) :
  UpdatePeakPnL symbol cur (a, e)
  = (Ok tt,
     (withPeakPnLCache
        (<[symbol := maintainedPeak (peakPnLCache a !! symbol) cur]> (peakPnLCache a)) a,
      e)).
Proof.
  unfold UpdatePeakPnL, maintainedPeak. unfold_m. simpl.
  destruct (peakPnLCache a !! symbol) as [p|] eqn:Hp; [|reflexivity].
  destruct (Qltb p cur); [reflexivity|].
  rewrite insert_id by exact Hp. destruct a; reflexivity.
Qed.

(** One position of the loop, run: the peak is raised, and when the
    condition holds the side is closed and, after a close that
    succeeded, the peak is forgotten. *)
Lemma run_checkOne pos h (a : AutoTrader) (e : E) :
  heldOf pos = Some h ->
  let sym := h_symbol h in
  let cur := currentOf h in
  let old := peakPnLCache a !! sym in
  let fire := shouldClose (default cur old) cur in
  let closing := closeSide sym (h_side h) e in
  let kept := <[sym := maintainedPeak old cur]> (peakPnLCache a) in
  checkOne pos (a, e)
  = (Ok tt,
     (withPeakPnLCache
        (if fire && is_ok (fst closing) then delete sym kept else kept) a,
      if fire then snd closing else e)).
Proof.
  intros Hh. cbv zeta. unfold checkOne. rewrite Hh.
  unfold mbind at 1, M_bind at 1. unfold self at 1. cbv beta iota. simpl fst.
  unfold mbind at 1, M_bind at 1. rewrite run_UpdatePeakPnL.
  destruct (shouldClose _ _) eqn:Hfire; [|reflexivity].
  unfold emergencyClosePosition, ClearPeakPnLCache. unfold_m. simpl.
  destruct (closeSide (h_symbol h) (h_side h) e) as [[u|err] e1]; reflexivity.
Qed.



(** A condition that holds on the peak read before the update holds on
    the maintained peak, which is then that same peak. *)
Lemma shouldClose_maintained old cur :
  shouldClose (default cur old) cur = true ->
  maintainedPeak old cur = default cur old
  /\ shouldClose (maintainedPeak old cur) cur = true.
Proof.
  intros Hf.
  assert (Hm : maintainedPeak old cur = default cur old).
  { unfold maintainedPeak. destruct old as [p|]; [|reflexivity]. simpl in *.
    destruct (Qltb p cur) eqn:Hp; [|reflexivity]. exfalso.
    unfold shouldClose, drawdownPct in Hf.
    apply Qltb_lt in Hp.
    assert (Hn : Qltb cur p = false) by (apply Qltb_ge; lra).
    rewrite Hn, andb_false_r in Hf.
    apply andb_true_iff in Hf. destruct Hf as [_ Hf].
    apply Qleb_le in Hf. lra. }
  split; [exact Hm | rewrite Hm; exact Hf].
Qed.

Lemma peak_after pos h (a : AutoTrader) (e : E) :
  heldOf pos = Some h ->
  let sym := h_symbol h in
  let cur := currentOf h in
  let old := peakPnLCache a !! sym in
  let a' := fst (snd (checkOne pos (a, e))) in
  peakPnLCache a' !! sym
  = (if shouldClose (default cur old) cur
        && is_ok (fst (closeSide sym (h_side h) e))
     then None else Some (maintainedPeak old cur))
  /\ (forall s, s <> sym -> peakPnLCache a' !! s = peakPnLCache a !! s).
Proof.
  intros Hh. cbv zeta. rewrite (run_checkOne pos h a e Hh). cbv zeta. simpl.
  split.
  - destruct (shouldClose _ _ && is_ok _).
    + apply lookup_delete_eq.
    + apply lookup_insert_eq.
  - intros s Hs.
    destruct (shouldClose _ _ && is_ok _).
    + rewrite lookup_delete_ne by congruence. apply lookup_insert_ne. congruence.
    + apply lookup_insert_ne. congruence.
Qed.

End Monitor.

Section Traces.
Context {E : Type} `{Host E}.

Lemma run_closeSide_traced symbol sideText (e : E) tr :
  closeSide symbol sideText (e, tr)
  = (fst (closeSide symbol sideText e),
     (snd (closeSide symbol sideText e), tr ++ closeCall symbol sideText)).
Proof.
  unfold closeSide, closeCall. unfold_m.
  destruct (String.eqb sideText "long").
  - simpl. unfold traced. simpl. destruct (CloseLong symbol 0 e) as [[o|err] e1]; reflexivity.
  - destruct (String.eqb sideText "short").
    + simpl. unfold traced. simpl. destruct (CloseShort symbol 0 e) as [[o|err] e1]; reflexivity.
    + simpl. rewrite app_nil_r. reflexivity.
Qed.


(** The trace of one position: the close, when the condition holds. *)
Lemma trace_checkOne pos h (a : AutoTrader) (e : E) tr :
  heldOf pos = Some h ->
  snd (snd (snd (checkOne pos (a, (e, tr)))))
  = (if shouldClose (default (currentOf h) (peakPnLCache a !! h_symbol h))
          (currentOf h)
     then tr ++ closeCall (h_symbol h) (h_side h) else tr).
Proof.
  intros Hh. rewrite (run_checkOne pos h a (e, tr) Hh). cbv zeta.
  destruct (shouldClose _ _); [|reflexivity].
  rewrite run_closeSide_traced. reflexivity.
Qed.




(** Claim C10.  When the test of the monitor holds for a position and
    the emergency close fails, the entry of the symbol stays in
    [peakPnLCache], holding the peak the test was made on; the next tick
    tests a position of that symbol against this very peak, and for an
    unchanged return the test holds again, so the close is tried again.
    The entry is gone after the tick exactly when the close succeeded. *)
Theorem failed_close_keeps_peak
    (a : AutoTrader) (e : E) (pos : Position) (h : Held) :
  heldOf pos = Some h ->
  let sym := h_symbol h in
  let cur := currentOf h in
  let old := peakPnLCache a !! sym in
  let peak := maintainedPeak old cur in
  let a' := fst (snd (checkOne pos (a, e))) in
  shouldClose (default cur old) cur = true ->
  (is_ok (fst (closeSide sym (h_side h) e)) = false ->
     peakPnLCache a' !! sym = Some peak
     /\ peak = default cur old
     /\ forall (e2 : E) (pos2 : Position) (h2 : Held),
          heldOf pos2 = Some h2 ->
          h_symbol h2 = sym ->
          snd (snd (snd (checkOne pos2 (a', (e2, @nil Call)))))
          = (if shouldClose peak (currentOf h2)
             then closeCall sym (h_side h2) else [])
          /\ (currentOf h2 = cur -> shouldClose peak (currentOf h2) = true))
  /\ (peakPnLCache a' !! sym = None <->
      is_ok (fst (closeSide sym (h_side h) e)) = true).
Proof.
  intros Hh. cbv zeta. intros Hfire.
  destruct (peak_after pos h a e Hh) as [Hp _]. cbv zeta in Hp.
  rewrite Hfire in Hp. simpl in Hp.
  destruct (shouldClose_maintained _ _ Hfire) as [Hm Hagain].
  split.
  - intros Hfail. rewrite Hfail in Hp. split; [exact Hp | split; [exact Hm |]].
    intros e2 pos2 h2 Hh2 Hsym. split.
    + rewrite (trace_checkOne pos2 h2 _ e2 [] Hh2). rewrite Hsym, Hp. reflexivity.
    + intros Hc. rewrite Hc. exact Hagain.
  - destruct (is_ok _); rewrite Hp; split; intros; congruence.
Qed.

End Traces.

Section OpenCheck.
Context {V : Type} `{Venue V} `{Strconv}.
Variable market : string -> M (@World V) Q.
Variable updateInitialBalance : string -> string -> Q -> M (@World V) unit.

#[local] Abbreviation host := (okxHost market updateInitialBalance).


End OpenCheck.

End EngineFacts.

(** ** Worked examples on the small venue *)

Module Worked.
Import Decisions Engine Fixture.

(** Claim C1 does not hold of the code: after a first read has filled
    the positions cache, a successful close of the whole BTC long leaves
    the venue without positions, and the next read still returns the
    cached long. *)
Lemma close_leaves_stale_positions :
  let closed := OKX.CloseLong "BTCUSDT" 0 world1 in
  let w2 := snd closed in
  is_ok (fst closed) = true
  /\ held (snd w2) = []
  /\ positionsOfRaw (held (snd w2)) = []
  /\ cachedPositions (fst w2) = Some (positionsOfRaw [btcLong])
  /\ OKX.GetPositions w2 = (Ok (positionsOfRaw [btcLong]), w2).
Proof.
  cbv zeta. repeat split; reflexivity.
Qed.

(** The same after a close of a given quantity, from the frame
    theorem: the venue holds nothing, the read returns the cached long. *)
Lemma mutations_keep_caches_witness :
  let w2 := snd (mutate (MCloseLong "BTCUSDT" (1 # 100)) world1) in
  held (snd w2) = []
  /\ OKX.GetPositions w2 = (Ok (positionsOfRaw [btcLong]), w2).
Proof.
  cbv zeta. split; [reflexivity |].
  apply (OKXFacts.mutations_keep_caches (MCloseLong "BTCUSDT" (1 # 100)) world1).
  - reflexivity.
  - reflexivity.
  - reflexivity.
Defined.






(** A drawdown of 39.9% does not close: 601 against a peak of 1000. *)
Example drawdown_below_40_waits :
  shouldClose 10 6 = true /\ shouldClose 1000 601 = false.
Proof. split; reflexivity. Qed.

(** Ten minutes after the last sync with the balance endpoint down. *)
Lemma autoSync_failure_waits_witness :
  exists a',
    autoSyncBalanceIfNeeded (trader0, worldDown)
    = (Ok tt, (a', snd (GetBalance worldDown)))
    /\ lastBalanceSyncTime a' = clock (snd (GetBalance worldDown))
    /\ initialBalance a' = initialBalance trader0
    /\ (forall e2, clock e2 - clock (snd (GetBalance worldDown)) < 10 * minute ->
          autoSyncBalanceIfNeeded (a', e2) = (Ok tt, (a', e2))).
Proof.
  apply EngineFacts.autoSync_failure_waits.
  - vm_compute. discriminate.
  - intros b Hb. vm_compute in Hb. discriminate Hb.
Defined.

(** The venue refuses the closing order: the peak of 10% stays. *)
Lemma failed_close_keeps_peak_witness :
  peakPnLCache (fst (snd (checkOne fallenBtc (peakedTrader, worldStuck))))
    !! "BTCUSDT"%string
  = Some 10%Q.
Proof.
  destruct (EngineFacts.failed_close_keeps_peak peakedTrader worldStuck
              fallenBtc fallenHeld) as [Hkept _].
  - reflexivity.
  - reflexivity.
  - destruct Hkept as (Hpeak & _ & _).
    + reflexivity.
    + refine (eq_trans Hpeak _). reflexivity.
Defined.

End Worked.

(** ** Helpers of package decision *)

Module DecisionToolsFacts.
Import Text DecisionTools.

#[local] Arguments Z.eqb : simpl never.

(** The loop inside a bracket, at depth [depth >= 1]: it returns the
    index of the first place where the depth comes back to 0, or -1 when
    there is none. *)
Lemma scanBrackets_spec rest : forall depth i,
  1 <= depth -> 0 <= i ->
  (scanBrackets depth i rest = -1
   /\ forall k : nat, (k <= length rest)%nat -> 0 < depth + excess (take k rest))
  \/ (exists n : nat,
        scanBrackets depth i rest = i + Z.of_nat n
        /\ rest !! n = Some rbracket
        /\ depth + excess (take (S n) rest) = 0
        /\ forall k : nat, (k <= n)%nat -> 0 < depth + excess (take k rest)).
Proof.
  induction rest as [|c rest IH]; intros depth i Hd Hi.
  - left. split; [reflexivity |]. intros k Hk. rewrite take_nil. simpl. lia.
  - simpl scanBrackets.
    destruct (c =? lbracket) eqn:Hl.
    + destruct (IH (depth + 1) (i + 1) ltac:(lia) ltac:(lia))
        as [[Hr Hall] | (n & Hr & Hn & Hz & Hall)].
      * left. split; [exact Hr |]. intros [|k] Hk; simpl; [lia |].
        rewrite Hl. specialize (Hall k ltac:(simpl in Hk; lia)). lia.
      * right. exists (S n). split; [rewrite Hr; lia | split; [exact Hn | split]].
        -- simpl. rewrite Hl. simpl in Hz. lia.
        -- intros [|k] Hk; simpl; [lia |]. rewrite Hl.
           specialize (Hall k ltac:(lia)). lia.
    + destruct (c =? rbracket) eqn:Hr.
      * destruct (depth - 1 =? 0) eqn:Hz.
        -- apply Z.eqb_eq in Hz. apply Z.eqb_eq in Hr. subst c.
           right. exists 0%nat. split; [lia | split; [reflexivity | split]].
           ++ simpl. rewrite ?take_0. simpl.
              change (rbracket =? lbracket) with false.
              change (rbracket =? rbracket) with true. simpl. lia.
           ++ intros k Hk. replace k with 0%nat by lia. simpl. lia.
        -- apply Z.eqb_neq in Hz.
           destruct (IH (depth - 1) (i + 1) ltac:(lia) ltac:(lia))
             as [[Hres Hall] | (n & Hres & Hn & Hzero & Hall)].
           ++ left. split; [exact Hres |]. intros [|k] Hk; simpl; [lia |].
              rewrite Hl, Hr. specialize (Hall k ltac:(simpl in Hk; lia)). lia.
           ++ right. exists (S n).
              split; [rewrite Hres; lia | split; [exact Hn | split]].
              ** simpl. rewrite Hl, Hr. simpl in Hzero. lia.
              ** intros [|k] Hk; simpl; [lia |]. rewrite Hl, Hr.
                 specialize (Hall k ltac:(lia)). lia.
      * destruct (IH depth (i + 1) Hd ltac:(lia))
          as [[Hres Hall] | (n & Hres & Hn & Hzero & Hall)].
        -- left. split; [exact Hres |]. intros [|k] Hk; simpl; [lia |].
           rewrite Hl, Hr. specialize (Hall k ltac:(simpl in Hk; lia)). lia.
        -- right. exists (S n).
           split; [rewrite Hres; lia | split; [exact Hn | split]].
           ++ simpl. rewrite Hl, Hr. simpl in Hzero. lia.
           ++ intros [|k] Hk; simpl; [lia |]. rewrite Hl, Hr.
              specialize (Hall k ltac:(lia)). lia.
Qed.

(** [findMatchingBracket] gives -1 unless [s[start]] is an opening
    bracket.  From an opening bracket it gives the index of the first
    closing bracket at which the brackets read since [start] balance,
    every shorter stretch having more opening than closing ones; it gives
    -1 when no stretch from [start] balances. *)
Theorem findMatchingBracket_first_balanced (s : list Z) (start : nat) (r : Z) :
  findMatchingBracket s (Z.of_nat start) = Ok r ->
  let segment (k : nat) := take k (drop start s) in
  (s !! start <> Some lbracket -> r = -1)
  /\ (s !! start = Some lbracket ->
      (r = -1
       /\ forall k : nat, (1 <= k <= length s - start)%nat -> 0 < excess (segment k))
      \/ (exists n : nat,
            r = Z.of_nat (start + S n)
            /\ s !! (start + S n)%nat = Some rbracket
            /\ excess (segment (S (S n))) = 0
            /\ forall k : nat, (1 <= k <= S n)%nat -> 0 < excess (segment k))).
Proof.
  intros Hrun. cbv zeta. unfold findMatchingBracket in Hrun.
  rewrite Nat2Z.id in Hrun.
  destruct (Z.of_nat (length s) <=? Z.of_nat start) eqn:Hlen.
  - apply Z.leb_le in Hlen. inversion Hrun; subst r. split; [reflexivity |].
    intros Hs. apply lookup_lt_Some in Hs. unfold rune in *. lia.
  - destruct (Z.of_nat start <? 0) eqn:Hneg; [apply Z.ltb_lt in Hneg; lia |].
    destruct (s !! start) as [c|] eqn:Hc.
    + destruct (c =? lbracket) eqn:Hb.
      * apply Z.eqb_eq in Hb. subst c.
        split; [intros Hx; exfalso; apply Hx; reflexivity |]. intros _.
        rewrite (drop_S s lbracket start Hc) in Hrun |- *.
        assert (Hr : r = scanBrackets 1 (Z.of_nat start + 1) (drop (S start) s)).
        { simpl scanBrackets in Hrun.
          change (lbracket =? lbracket) with true in Hrun. simpl in Hrun.
          change (0 + 1) with 1 in Hrun. congruence. }
        clear Hrun.
        assert (Hhead : forall k, excess (take (S k) (lbracket :: drop (S start) s))
                                  = 1 + excess (take k (drop (S start) s))).
        { intros k. simpl. change (lbracket =? lbracket) with true. reflexivity. }
        destruct (scanBrackets_spec (drop (S start) s) 1 (Z.of_nat start + 1)
                    ltac:(lia) ltac:(lia))
          as [[Hres Hall] | (n & Hres & Hn & Hzero & Hall)].
        -- left. split; [rewrite Hr; exact Hres |]. intros [|k] Hk; [lia |].
           rewrite Hhead. apply Hall. rewrite length_drop. lia.
        -- right. exists n. split; [rewrite Hr, Hres; lia | split; [| split]].
           ++ rewrite lookup_drop in Hn.
              replace (start + S n)%nat with (S start + n)%nat by lia. exact Hn.
           ++ rewrite Hhead. exact Hzero.
           ++ intros [|k] Hk; [lia |]. rewrite Hhead. apply Hall. lia.
      * inversion Hrun; subst r. split; [reflexivity |].
        intros Hs. inversion Hs; subst c. discriminate.
    + inversion Hrun; subst r. split; [reflexivity | discriminate].
Qed.

(** *** The break-even price *)


(** [calculateMaxCandidates] never exceeds the number of candidates nor
    30, is at least 15 when there are 15 candidates, and does not grow
    with the number of positions held. *)
Theorem calculateMaxCandidates_bounds (positionCount candidateCount : Z) :
  calculateMaxCandidates positionCount candidateCount <= candidateCount
  /\ calculateMaxCandidates positionCount candidateCount <= 30
  /\ (0 <= positionCount -> 15 <= candidateCount ->
      15 <= calculateMaxCandidates positionCount candidateCount)
  /\ (forall more, 0 <= positionCount <= more ->
        calculateMaxCandidates more candidateCount
        <= calculateMaxCandidates positionCount candidateCount).
Proof.
  unfold calculateMaxCandidates. cbv zeta.
  repeat split; intros;
    repeat match goal with
    | |- context [?a =? ?b] => destruct (Z.eqb_spec a b)
    end; lia.
Qed.

(** *** The chain of thought *)

Lemma trimLeft_incl s c : In c (trimLeft s) -> In c s.
Proof.
  induction s as [|a s IH]; simpl; [tauto |].
  destruct (isSpace a); [intros H; right; apply IH; exact H | simpl; tauto].
Qed.

Lemma TrimSpace_incl s c : In c (TrimSpace s) -> In c s.
Proof.
  unfold TrimSpace. intros H. apply in_rev in H.
  apply trimLeft_incl in H. apply in_rev in H.
  apply trimLeft_incl in H. exact H.
Qed.

Lemma before_spec c s p :
  before c s = Some p -> ~ In c p /\ exists rest, s = p ++ c :: rest.
Proof.
  revert p. induction s as [|a s IH]; intros p; simpl; [discriminate |].
  destruct (a =? c) eqn:Hac.
  - apply Z.eqb_eq in Hac. subst a. intros Hp. inversion Hp; subst p.
    split; [simpl; tauto | exists s; reflexivity].
  - apply Z.eqb_neq in Hac.
    destruct (before c s) as [q|]; [| discriminate].
    intros Hp. inversion Hp; subst p.
    destruct (IH q eq_refl) as [Hq [rest Hrest]].
    split.
    + simpl. intros [H | H]; [congruence | tauto].
    + exists rest. rewrite Hrest. reflexivity.
Qed.

Lemma before_none c s : before c s = None -> ~ In c s.
Proof.
  induction s as [|a s IH]; simpl; [tauto |].
  destruct (a =? c) eqn:Hac; [discriminate |].
  apply Z.eqb_neq in Hac.
  destruct (before c s); [discriminate |].
  intros _ [H | H]; [congruence | exact (IH eq_refl H)].
Qed.

Lemma before_app c q rest : ~ In c q -> before c (q ++ c :: rest) = Some q.
Proof.
  induction q as [|b q IH]; intros Hno; simpl.
  - rewrite Z.eqb_refl. reflexivity.
  - destruct (b =? c) eqn:Hbc.
    + apply Z.eqb_eq in Hbc. subst b. exfalso. apply Hno. left. reflexivity.
    + rewrite IH; [reflexivity |]. intros H. apply Hno. right. exact H.
Qed.

(** [extractCoTTrace] returns runes of the response only.  When the
    first opening bracket has text before it, that text is returned,
    trimmed, and holds no bracket; a response that starts with a bracket,
    or has none, is returned whole, trimmed. *)
Theorem extractCoTTrace_stops_at_bracket (response : text) :
  (forall c, In c (extractCoTTrace response) -> In c response)
  /\ (forall a p rest,
        response = a :: p ++ lbracket :: rest -> ~ In lbracket (a :: p) ->
        extractCoTTrace response = TrimSpace (a :: p)
        /\ ~ In lbracket (extractCoTTrace response))
  /\ (forall rest,
        response = lbracket :: rest ->
        extractCoTTrace response = TrimSpace response)
  /\ (~ In lbracket response -> extractCoTTrace response = TrimSpace response).
Proof.
  split; [| split; [| split]].
  - intros c. unfold extractCoTTrace.
    destruct (before lbracket response) as [[|a p]|] eqn:Hb;
      try apply TrimSpace_incl.
    intros Hc. apply TrimSpace_incl in Hc.
    destruct (before_spec _ _ _ Hb) as [_ [rest ->]].
    apply in_or_app. left. exact Hc.
  - intros a p rest Hr Hno.
    assert (Hb : before lbracket response = Some (a :: p)).
    { subst response. apply (before_app lbracket (a :: p) rest Hno). }
    unfold extractCoTTrace. rewrite Hb. split; [reflexivity |].
    intros Hin. apply TrimSpace_incl in Hin. exact (Hno Hin).
  - intros rest ->. unfold extractCoTTrace. simpl.
    change (lbracket =? lbracket) with true. reflexivity.
  - intros Hno. unfold extractCoTTrace.
    destruct (before lbracket response) as [[|a p]|] eqn:Hb; try reflexivity.
    exfalso. destruct (before_spec _ _ _ Hb) as [_ [rest ->]].
    apply Hno. apply in_or_app. right. left. reflexivity.
Qed.

(** The closing bracket of [[a[b]]c] is at index 5. *)
Lemma findMatchingBracket_first_balanced_witness :
  findMatchingBracket [91; 97; 91; 98; 93; 93; 99] 0 = Ok 5
  /\ exists n : nat,
       5 = Z.of_nat (0 + S n)
       /\ [91; 97; 91; 98; 93; 93; 99] !! (0 + S n)%nat = Some rbracket
       /\ excess (take (S (S n)) (drop 0 [91; 97; 91; 98; 93; 93; 99])) = 0.
Proof.
  split; [reflexivity |].
  destruct (proj2 (findMatchingBracket_first_balanced
                     [91; 97; 91; 98; 93; 93; 99] 0%nat 5 eq_refl) eq_refl)
    as [[Hr _] | (n & Hr & Hn & Hz & _)].
  - discriminate Hr.
  - exists n. split; [exact Hr | split; [exact Hn | exact Hz]].
Defined.


End DecisionToolsFacts.

(** ** More on decisions *)

Module DecisionsMore.
Import Decisions DecisionTools.

Section Verdicts.
Variable marketGet : string -> option Q.
Variables (accountEquity : Q) (btcEthLeverage altcoinLeverage : Z).
Variable marketDataMap : option (gmap string Q).

#[local] Abbreviation verdict d :=
  (validateDecision d accountEquity btcEthLeverage altcoinLeverage
     (lookupPrice marketGet marketDataMap d)).

#[local] Abbreviation validateAt i ds :=
  (validateFrom marketGet i ds accountEquity btcEthLeverage altcoinLeverage
     marketDataMap).

Lemma validateFrom_accepts ds : forall i,
  validateAt i ds = None <-> Forall (fun d => verdict d = None) ds.
Proof.
  induction ds as [|d ds IH]; intros i; simpl.
  - split; [constructor | reflexivity].
  - destruct (verdict d) as [e|] eqn:Hv.
    + split; [discriminate |]. intros Hall. inversion Hall; congruence.
    + rewrite IH. split.
      * intros Hall. constructor; assumption.
      * intros Hall. inversion Hall; assumption.
Qed.

Lemma validateFrom_first ds : forall i e,
  validateAt i ds = Some e ->
  exists (k : nat) d cause,
    ds !! k = Some d
    /\ verdict d = Some cause
    /\ e = DecisionFailed (i + Z.of_nat k + 1) cause
    /\ forall (j : nat) d', (j < k)%nat -> ds !! j = Some d' -> verdict d' = None.
Proof.
  induction ds as [|d ds IH]; intros i e; simpl; [discriminate |].
  destruct (verdict d) as [c|] eqn:Hv.
  - intros He. inversion He; subst e. exists 0%nat, d, c.
    split; [reflexivity | split; [exact Hv | split]].
    + f_equal. lia.
    + intros j d' Hj. lia.
  - intros He. destruct (IH (i + 1) e He) as (k & x & c & Hk & Hx & Hc & Hbefore).
    exists (S k), x, c. split; [exact Hk | split; [exact Hx | split]].
    + rewrite Hc. f_equal. lia.
    + intros [|j] d' Hj Hd'; simpl in Hd'.
      * inversion Hd'; subst d'. exact Hv.
      * apply (Hbefore j d'); [lia | exact Hd'].
Qed.

(** [validateDecisions] accepts a list exactly when [validateDecision]
    accepts each of its decisions.  When it fails, the error names the
    first decision that fails, counted from 1, with the cause
    [validateDecision] gave; the decisions before it are all accepted.
    Whether a list is accepted does not depend on its order. *)
Theorem validateDecisions_first_failure (ds : list Decision) :
  (validateDecisions marketGet ds accountEquity btcEthLeverage altcoinLeverage
     marketDataMap = None
   <-> Forall (fun d => verdict d = None) ds)
  /\ (forall e,
        validateDecisions marketGet ds accountEquity btcEthLeverage
          altcoinLeverage marketDataMap = Some e ->
        exists (k : nat) d cause,
          ds !! k = Some d
          /\ verdict d = Some cause
          /\ e = DecisionFailed (Z.of_nat k + 1) cause
          /\ forall (j : nat) d', (j < k)%nat -> ds !! j = Some d' ->
               verdict d' = None)
  /\ (forall ds', Permutation ds ds' ->
        (validateDecisions marketGet ds accountEquity btcEthLeverage
           altcoinLeverage marketDataMap = None
         <-> validateDecisions marketGet ds' accountEquity btcEthLeverage
               altcoinLeverage marketDataMap = None)).
Proof.
  unfold validateDecisions. split; [apply validateFrom_accepts | split].
  - intros e He. destruct (validateFrom_first ds 0 e He) as (k & d & c & H1 & H2 & H3 & H4).
    exists k, d, c. auto.
  - intros ds' Hperm. rewrite !validateFrom_accepts.
    split; intros Hall; [rewrite <- Hperm | rewrite Hperm]; exact Hall.
Qed.

End Verdicts.

(** *** The vocabulary of the validator and that of the sorter *)

Lemma valid_action_cases a :
  map_get_bool validActions a = true ->
  In a ["open_long"; "open_short"; "close_long"; "close_short";
        "update_stop_loss"; "update_take_profit"; "partial_close";
        "hold"; "wait"]%string.
Proof.
  unfold map_get_bool, validActions. intros Hv.
  destruct (list_to_map _ !! a) as [b|] eqn:Hl; [| discriminate].
  apply elem_of_list_to_map_2 in Hl.
  apply list_elem_of_In in Hl. simpl in Hl.
  repeat (destruct Hl as [Hl | Hl]; [inversion Hl; subst; simpl; tauto |]).
  destruct Hl.
Qed.

(** The validator and the sorter know the same actions: an action is in
    [validActions] exactly when [getActionPriority] gives it one of the
    ranks 1 to 4, so no validated decision is ranked 999. *)
Theorem validated_actions_have_a_rank (a : string) :
  map_get_bool validActions a = true <-> 1 <= getActionPriority a <= 4.
Proof.
  split.
  - intros Hv. apply valid_action_cases in Hv. simpl in Hv.
    repeat (destruct Hv as [<- | Hv]; [vm_compute; split; discriminate |]).
    destruct Hv.
  - unfold getActionPriority. intros Hp.
    repeat match type of Hp with
    | context [if ?b then _ else _] =>
        let E := fresh "E" in destruct b eqn:E
    end; try lia;
    repeat match goal with
    | E : (_ || _)%bool = true |- _ => apply orb_true_iff in E; destruct E as [E | E]
    end;
    match goal with
    | E : String.eqb a _ = true |- _ => apply String.eqb_eq in E; subst a; reflexivity
    end.
Qed.

(** *** Lists that are in order already *)

Lemma compareSwap_ordered i j l :
  (i < j)%nat -> inRankOrder l -> compareSwap i l j = l.
Proof.
  intros Hij Hord. unfold compareSwap.
  destruct (l !! i) as [a|] eqn:Ha; [| reflexivity].
  destruct (l !! j) as [b|] eqn:Hb; [| reflexivity].
  assert (Hle := Hord i j a b Hij Ha Hb). fold (prio a) (prio b) in Hle.
  destruct (prio b <? prio a) eqn:Hlt; [| reflexivity].
  apply Z.ltb_lt in Hlt. lia.
Qed.

Lemma innerFold_ordered i l : inRankOrder l -> forall m j,
  (i < j)%nat -> fold_left (compareSwap i) (seq j m) l = l.
Proof.
  intros Hord. induction m as [|m IH]; intros j Hij; simpl; [reflexivity |].
  rewrite (compareSwap_ordered i j l Hij Hord). apply IH. lia.
Qed.

Lemma outerFold_ordered l : inRankOrder l -> forall m i,
  fold_left innerLoop (seq i m) l = l.
Proof.
  intros Hord. induction m as [|m IH]; intros i; simpl; [reflexivity |].
  unfold innerLoop at 2. rewrite (innerFold_ordered i l Hord) by lia. apply IH.
Qed.

Lemma sort_ordered l : inRankOrder l -> sortDecisionsByPriority l = l.
Proof.
  intros Hord. unfold sortDecisionsByPriority.
  destruct (length l <=? 1)%nat; [reflexivity |].
  apply outerFold_ordered. exact Hord.
Qed.

Lemma sort_inRankOrder l : inRankOrder (sortDecisionsByPriority l).
Proof.
  unfold sortDecisionsByPriority.
  destruct (length l <=? 1)%nat eqn:Hlen.
  - apply Nat.leb_le in Hlen. intros i j x y Hij Hx Hy.
    apply lookup_lt_Some in Hy. lia.
  - apply Nat.leb_gt in Hlen.
    destruct (DecisionsFacts.outerFold_spec (length l - 1) 0%nat l ltac:(lia))
      as (H1 & H2 & H3).
    { intros a b x y Ha. lia. }
    intros i j x y Hij Hx Hy. fold (prio x) (prio y). eapply (H3 i j); eauto.
    apply lookup_lt_Some in Hy. rewrite H1 in Hy. lia.
Qed.

Lemma sort_length l : length (sortDecisionsByPriority l) = length l.
Proof.
  unfold sortDecisionsByPriority.
  destruct (length l <=? 1)%nat eqn:Hlen; [reflexivity |].
  apply Nat.leb_gt in Hlen.
  destruct (DecisionsFacts.outerFold_spec (length l - 1) 0%nat l ltac:(lia))
    as (H1 & _); [| exact H1].
  intros a b x y Ha. lia.
Qed.

Lemma sort_perm l : Permutation (sortDecisionsByPriority l) l.
Proof.
  unfold sortDecisionsByPriority.
  destruct (length l <=? 1)%nat eqn:Hlen; [reflexivity |].
  apply Nat.leb_gt in Hlen.
  destruct (DecisionsFacts.outerFold_spec (length l - 1) 0%nat l ltac:(lia))
    as (_ & H2 & _); [| exact H2].
  intros a b x y Ha. lia.
Qed.

(** [sortDecisionsByPriority] returns a list in rank order as it is,
    sorting a second time changes nothing, and no decision is lost or
    added. *)
Theorem sortDecisionsByPriority_fixes_ordered_lists (l : list Decision) :
  (inRankOrder l -> sortDecisionsByPriority l = l)
  /\ sortDecisionsByPriority (sortDecisionsByPriority l) = sortDecisionsByPriority l
  /\ length (sortDecisionsByPriority l) = length l.
Proof.
  split; [apply sort_ordered | split; [| apply sort_length]].
  apply sort_ordered, sort_inRankOrder.
Qed.

End DecisionsMore.

(** ** More on the repairs of a response *)

Module TextMore.
Import Decisions Text TextFacts TextTools.

#[local] Arguments Z.eqb : simpl never.
#[local] Arguments Z.leb : simpl never.
#[local] Arguments Z.ltb : simpl never.

Section Fixed.
Context {A : Type}.
Variable m : list A -> option (list A * list A).
Hypothesis consumes : forall s out rest,
  m s = Some (out, rest) -> exists k, k <> [] /\ s = k ++ rest.
Hypothesis shorter : forall s out rest,
  m s = Some (out, rest) -> (length out + length rest < length s)%nat.

(** A text that a pass leaves as it is holds no match. *)
Lemma fixed_matchFree s : rewriteAll m s = s -> matchFree m s.
Proof.
  induction s as [|c s IH]; intros Hfix.
  - simpl. split; [| exact I].
    destruct (m []) as [[out rest]|] eqn:Hm; [| reflexivity].
    destruct (consumes _ _ _ Hm) as (k & Hk & Heq).
    destruct k; [congruence | discriminate].
  - rewrite (rewriteAll_cons m consumes) in Hfix.
    destruct (m (c :: s)) as [[out rest]|] eqn:Hm.
    + exfalso. pose proof (shorter _ _ _ Hm) as Hlt.
      assert (Hle : (length (rewriteAll m rest) <= length rest)%nat).
      { destruct (rewriteAll_shrinks m consumes shorter rest) as [-> | ?]; lia. }
      apply (f_equal (@length A)) in Hfix. rewrite length_app in Hfix. lia.
    + simpl. split; [exact Hm |]. apply IH. congruence.
Qed.
End Fixed.

Lemma repair_clean (s : text) : clean (repair s).
Proof.
  unfold repair, clean.
  set (e := fixEmptyStringFields (fixMissingQuotes (removeInvisibleRunes s))).
  split; [| split; [| split]].
  - apply fixThousandSeparators_keeps; [exact ascii_visible |].
    apply fixEmptyStringFields_keeps; [exact ascii_visible |].
    apply fixMissingQuotes_visible, removeInvisibleRunes_visible.
  - apply fixThousandSeparators_keeps; [exact ascii_not_source |].
    apply fixEmptyStringFields_keeps; [exact ascii_not_source |].
    apply fixMissingQuotes_no_source.
  - intros Y HY. unfold fixThousandSeparators.
    apply (thousandsLoop_keeps (matchFree (empty_field_matcher Y))).
    + intros t. apply thousands_free, numericFields_each, HY.
    + apply fixEmptyStringFields_free, HY.
  - apply (fixed_matchFree _ thousands_consumes thousands_shorter).
    apply fixThousandSeparators_fixed.
Qed.

Lemma clean_fixed (s : text) : clean s -> repair s = s.
Proof.
  intros (Hvis & Hsrc & Hfields & Hthousands). unfold repair.
  rewrite (removeInvisibleRunes_id _ Hvis), (fixMissingQuotes_id _ Hsrc),
    (fixEmptyStringFields_id _ Hfields).
  apply fixThousandSeparators_id.
  apply (rewriteAll_matchFree _ thousands_consumes). exact Hthousands.
Qed.

(** What the four repairs, applied in the order of [extractDecisions],
    achieve: their output holds no invisible rune, no rune of the quote
    table, no empty numeric field and no thousands separator between
    digits, and the texts they return unchanged are exactly the texts
    that are so already. *)
Theorem repair_fixes_exactly_clean_text (s : text) :
  clean (repair s) /\ (repair s = s <-> clean s).
Proof.
  split; [apply repair_clean | split].
  - intros Hfix. rewrite <- Hfix. apply repair_clean.
  - apply clean_fixed.
Qed.

(** *** What the extraction does not see *)









End TextMore.

(** ** More on the OKX adapter *)

Module AdapterMore.
Import OKX Engine OKXFacts AdapterTools.

Ltac run := unfold mbind, M_bind, mret, M_ret, attempt, adapter, update, now, fail.

(** *** The list of positions *)

Lemma positionOfRaw_wellListed pos :
  Qeqb (rp_pos pos) 0 = false -> wellListed (positionOfRaw pos).
Proof.
  intros Hnz. split; [| split].
  - exists (if Qltb (rp_pos pos) 0 then (- rp_pos pos)%Q else rp_pos pos).
    split; [reflexivity |].
    assert (Hne : ~ (rp_pos pos == 0)%Q).
    { intros Hz. apply Qeq_bool_iff in Hz. unfold Qeqb in Hnz. congruence. }
    destruct (Qltb (rp_pos pos) 0) eqn:Hneg.
    + apply Qltb_lt in Hneg. lra.
    + apply Qltb_ge in Hneg. apply Qle_lt_or_eq in Hneg.
      destruct Hneg as [Hpos | Hz]; [exact Hpos |].
      exfalso. apply Hne. symmetry. exact Hz.
  - change (asString (positionOfRaw pos !! "side"%string))
      with (Some (if String.eqb (rp_posSide pos) "long" then "long"%string
                  else if String.eqb (rp_posSide pos) "short" then "short"%string
                  else if Qltb 0 (rp_pos pos) then "long"%string
                  else "short"%string)).
    destruct (String.eqb (rp_posSide pos) "long"); [left; reflexivity |].
    destruct (String.eqb (rp_posSide pos) "short"); [right; reflexivity |].
    destruct (Qltb 0 (rp_pos pos)); [left | right]; reflexivity.
  - eexists. reflexivity.
Qed.

Lemma positionsOfRaw_wellListed raw : Forall wellListed (positionsOfRaw raw).
Proof.
  unfold positionsOfRaw. apply Forall_map, List.Forall_forall.
  intros pos Hin. apply List.filter_In in Hin. destruct Hin as [_ Hnz].
  apply negb_true_iff in Hnz. apply positionOfRaw_wellListed. exact Hnz.
Qed.

Section Reads.
Context {V : Type} `{Venue V} `{Strconv}.

Lemma run_fetchPositions (w : @World V) :
  fetchPositions w
  = match makeRequest GetAccountPositions (snd w) with
    | (Ok (PositionsData raw), v) =>
        (Ok (positionsOfRaw raw),
         (setPositionsCache (positionsOfRaw raw) (timeNow v) (fst w), v))
    | (Ok _, v) => (Err (Wrapped "解析持仓数据失败" (Failure "json")), (fst w, v))
    | (Err msg, v) => (Err (Wrapped "获取持仓失败" (Transport msg)), (fst w, v))
    end.
Proof.
  unfold fetchPositions, request. run.
  destruct (makeRequest GetAccountPositions (snd w)) as [[[]|msg] v]; reflexivity.
Qed.

(** The positions [GetPositions] builds from an answer of the venue all
    have a positive amount, a side that is long or short, and the fields
    the drawdown monitor reads.  A non-empty list is served from the
    cache by the next read; an empty list is a nil slice, which the
    test [cachedPositions != nil] takes for no cache, so the next read
    asks the venue again. *)
Theorem fetched_positions_are_well_listed
    (w w1 : @World V) (positions : list Position) :
  fetchPositions w = (Ok positions, w1) ->
  Forall wellListed positions
  /\ (positions <> [] -> 0 < cacheDuration (fst w) ->
      OKX.GetPositions w1 = (Ok positions, w1))
  /\ (positions = [] ->
      cachedPositions (fst w1) = None
      /\ OKX.GetPositions w1 = fetchPositions w1).
Proof.
  rewrite run_fetchPositions.
  destruct (makeRequest GetAccountPositions (snd w)) as [[[]|msg] v];
    try discriminate.
  intros Hrun. inversion Hrun; subst positions w1. clear Hrun.
  split; [apply positionsOfRaw_wellListed | split].
  - intros Hne Hdur. apply GetPositions_cached; simpl.
    + destruct (positionsOfRaw l); [congruence | reflexivity].
    + lia.
  - intros Hnil. rewrite Hnil. split; [reflexivity |].
    unfold OKX.GetPositions. run. simpl. reflexivity.
Qed.

(** *** The lot size is asked once *)

Lemma GetSymbolLotSz_hit symbol lotSz (w : @World V) :
  symbolLotSz (fst w) !! symbol = Some lotSz ->
  GetSymbolLotSz symbol w = (Ok lotSz, w).
Proof. intros Hl. unfold GetSymbolLotSz. run. simpl. rewrite Hl. reflexivity. Qed.

Lemma GetSymbolLotSz_miss symbol (w : @World V) :
  symbolLotSz (fst w) !! symbol = None ->
  exists lotSz v,
    makeRequest (Instruments (convertSymbolToInstID symbol)) (snd w) = (fst
      (makeRequest (Instruments (convertSymbolToInstID symbol)) (snd w)), v)
    /\ GetSymbolLotSz symbol w = (Ok lotSz, (setLotSz symbol lotSz (fst w), v))
    /\ (is_ok (fst (makeRequest (Instruments (convertSymbolToInstID symbol)) (snd w)))
        = false -> lotSz = (1 # 10000)%Q).
Proof.
  intros Hl. unfold GetSymbolLotSz, request. run. simpl. rewrite Hl.
  destruct (makeRequest (Instruments (convertSymbolToInstID symbol)) (snd w))
    as [[d|msg] v]; simpl; eexists; exists v;
    (split; [reflexivity | split; [reflexivity |]]).
  - discriminate.
  - reflexivity.
Qed.

(** [GetSymbolLotSz] never fails and asks the venue at most once for a
    symbol: a second call returns the same lot size and leaves the state
    as it is.  The default 0.0001 that replaces a failed lookup is
    remembered like an answer. *)
Theorem lot_size_is_asked_once (symbol : string) (w : @World V) :
  exists lotSz,
    fst (GetSymbolLotSz symbol w) = Ok lotSz
    /\ GetSymbolLotSz symbol (snd (GetSymbolLotSz symbol w))
       = (Ok lotSz, snd (GetSymbolLotSz symbol w))
    /\ (symbolLotSz (fst w) !! symbol = None ->
        is_ok (fst (makeRequest (Instruments (convertSymbolToInstID symbol)) (snd w)))
        = false ->
        lotSz = (1 # 10000)%Q).
Proof.
  destruct (symbolLotSz (fst w) !! symbol) as [l|] eqn:Hl.
  - exists l. rewrite (GetSymbolLotSz_hit symbol l w Hl). simpl.
    split; [reflexivity | split; [apply GetSymbolLotSz_hit; exact Hl | discriminate]].
  - destruct (GetSymbolLotSz_miss symbol w Hl) as (l & v & _ & Hrun & Hdef).
    exists l. rewrite Hrun. simpl.
    split; [reflexivity | split; [| intros _; exact Hdef]].
    apply GetSymbolLotSz_hit. simpl. apply lookup_insert_eq.
Qed.

End Reads.

(** *** Stop-loss and take-profit against the price *)








(** *** The smallest order *)

Lemma smallAccountMinimum_least symbol equity :
  (2 <= smallAccountMinimum symbol equity)%Q.
Proof.
  unfold smallAccountMinimum.
  destruct (String.eqb symbol "BTCUSDT" || String.eqb symbol "ETHUSDT")%bool; cbv zeta.
  - destruct (Qltb (equity * (8 # 10)) 5) eqn:E; [lra |].
    apply Qltb_ge in E. lra.
  - destruct (Qltb (equity * (5 # 10)) 2) eqn:E; [lra |].
    apply Qltb_ge in E. lra.
Qed.

Lemma smallAccountMinimum_major symbol equity :
  symbol = "BTCUSDT"%string \/ symbol = "ETHUSDT"%string ->
  (5 <= smallAccountMinimum symbol equity)%Q.
Proof.
  intros Hs. unfold smallAccountMinimum.
  replace (String.eqb symbol "BTCUSDT" || String.eqb symbol "ETHUSDT")%bool with true
    by (destruct Hs as [-> | ->]; reflexivity).
  cbv zeta. destruct (Qltb (equity * (8 # 10)) 5) eqn:E; [lra |].
  apply Qltb_ge in E. lra.
Qed.

Lemma notionalVerdict_bounds symbol quantity price balance :
  (notionalVerdict symbol quantity price balance = None ->
   (2 <= quantity * price)%Q)
  /\ ((5 <= quantity * price)%Q ->
      notionalVerdict symbol quantity price balance = None)
  /\ (symbol = "BTCUSDT"%string \/ symbol = "ETHUSDT"%string ->
      notionalVerdict symbol quantity price balance = None ->
      (5 <= quantity * price)%Q).
Proof.
  unfold notionalVerdict, GetMinNotional. cbv zeta.
  set (small := match balance with Some b => _ | None => false end).
  assert (Hsmall : small = true ->
            exists equity, (smallAccountMinimum symbol equity <= quantity * price)%Q).
  { subst small. destruct balance as [b|]; [| discriminate].
    intros Hb. apply andb_prop in Hb. destruct Hb as [_ Hb].
    exists (equityOf b). apply Qleb_le. exact Hb. }
  destruct small.
  - destruct (Hsmall eq_refl) as [equity He].
    split; [| split].
    + intros _. pose proof (smallAccountMinimum_least symbol equity). lra.
    + reflexivity.
    + intros Hs _. pose proof (smallAccountMinimum_major symbol equity Hs). lra.
  - destruct (Qltb (quantity * price) 5) eqn:E.
    + apply Qltb_lt in E. split; [discriminate | split; [lra | discriminate]].
    + apply Qltb_ge in E. split; [intros _; lra | split; [reflexivity | intros _ _; exact E]].
Qed.

Section Notional.
Context {V : Type} `{Venue V} `{Strconv}.

(** [CheckMinNotional]: when the price cannot be read the check fails
    with that error.  Otherwise an order worth 5 USDT or more passes and
    one worth less than 2 USDT fails, whatever the account; for BTCUSDT
    and ETHUSDT the small-account mode changes nothing, an order passes
    exactly when it is worth 5 USDT or more. *)
Theorem CheckMinNotional_thresholds (symbol : string) (quantity : Q) (w : @World V) :
  match fst (OKX.GetMarketPrice symbol w) with
  | Err e => fst (CheckMinNotional symbol quantity w) = Some (PriceUnavailable e)
  | Ok price =>
      (fst (CheckMinNotional symbol quantity w) = None -> (2 <= quantity * price)%Q)
      /\ ((5 <= quantity * price)%Q -> fst (CheckMinNotional symbol quantity w) = None)
      /\ (symbol = "BTCUSDT"%string \/ symbol = "ETHUSDT"%string ->
          (fst (CheckMinNotional symbol quantity w) = None
           <-> (5 <= quantity * price)%Q))
  end.
Proof.
  unfold CheckMinNotional.
  destruct (OKX.GetMarketPrice symbol w) as [[price | e] w1]; simpl fst; [| reflexivity].
  assert (Hall : forall balance,
    (notionalVerdict symbol quantity price balance = None ->
     (2 <= quantity * price)%Q)
    /\ ((5 <= quantity * price)%Q ->
        notionalVerdict symbol quantity price balance = None)
    /\ (symbol = "BTCUSDT"%string \/ symbol = "ETHUSDT"%string ->
        (notionalVerdict symbol quantity price balance = None
         <-> (5 <= quantity * price)%Q))).
  { intros balance.
    destruct (notionalVerdict_bounds symbol quantity price balance) as (H1 & H2 & H3).
  split; [exact H1 | split; [exact H2 |]].
    intros Hs. split; [apply H3; exact Hs | exact H2]. }
  destruct (OKX.GetBalance w1) as [[b | e] w2]; simpl fst; apply Hall.
Qed.

End Notional.

(** The first read of the positions in the fixture. *)
Lemma fetched_positions_are_well_listed_witness :
  Forall wellListed (positionsOfRaw [Fixture.btcLong])
  /\ OKX.GetPositions Fixture.world1
     = (Ok (positionsOfRaw [Fixture.btcLong]), Fixture.world1).
Proof.
  pose proof (fetched_positions_are_well_listed
                Fixture.world0 Fixture.world1 (positionsOfRaw [Fixture.btcLong])
                eq_refl) as (Hall & Hcached & _).
  split; [exact Hall |].
  apply Hcached; [discriminate | reflexivity].
Defined.


End AdapterMore.

(** ** Symbols and step sizes *)

Module StringsFacts.
Import GoStrings.

Lemma chars_append (a b : string) : chars (a ++ b) = chars a ++ chars b.
Proof.
  unfold chars. induction a as [|c a IH]; simpl; [reflexivity | rewrite IH; reflexivity].
Qed.

Lemma chars_of_list l : chars (string_of_list_ascii l) = l.
Proof. apply list_ascii_of_string_of_list_ascii. Qed.

Lemma of_list_chars s : string_of_list_ascii (chars s) = s.
Proof. apply string_of_list_ascii_of_string. Qed.

Lemma of_list_app a b :
  string_of_list_ascii (a ++ b)
  = (string_of_list_ascii a ++ string_of_list_ascii b)%string.
Proof. induction a as [|c a IH]; simpl; [reflexivity | rewrite IH; reflexivity]. Qed.

Lemma strip_own_prefix p r : strip_prefix p (p ++ r) = Some r.
Proof.
  induction p as [|a p IH]; simpl; [reflexivity |].
  rewrite Ascii.eqb_refl. exact IH.
Qed.

Lemma strip_prefix_inv p : forall s r, strip_prefix p s = Some r -> s = p ++ r.
Proof.
  induction p as [|a p IH]; intros s r; simpl.
  - intros Hs. inversion Hs. reflexivity.
  - destruct s as [|b s]; [discriminate |].
    destruct (Ascii.eqb a b) eqn:Hab; [| discriminate].
    apply Ascii.eqb_eq in Hab. subst b. intros Hs. f_equal. apply IH, Hs.
Qed.

Section Literal.
Variable c : ascii.
Variables old' new : list ascii.

#[local] Abbreviation lit :=
  (fun t => match strip_prefix (c :: old') t with
            | Some rest => Some (new, rest)
            | None => None
            end).

Lemma lit_consumes s out rest :
  lit s = Some (out, rest) -> exists k, k <> [] /\ s = k ++ rest.
Proof.
  cbv beta. destruct (strip_prefix (c :: old') s) as [r|] eqn:Hs; [| discriminate].
  intros Hm. inversion Hm; subst. exists (c :: old'). split; [discriminate |].
  apply strip_prefix_inv. exact Hs.
Qed.

Lemma lit_needs_head a s : a <> c -> strip_prefix (c :: old') (a :: s) = None.
Proof.
  intros Hne. simpl. destruct (Ascii.eqb c a) eqn:Hca; [| reflexivity].
  apply Ascii.eqb_eq in Hca. congruence.
Qed.

(** No occurrence of the first character of [old]: nothing is replaced. *)
Lemma rewrite_without_head s : ~ In c s -> Text.rewriteAll lit s = s.
Proof.
  induction s as [|a s IH]; intros Hno; [reflexivity |].
  rewrite (TextFacts.rewriteAll_cons _ lit_consumes).
  rewrite lit_needs_head by (intros ->; apply Hno; left; reflexivity).
  f_equal. apply IH. intros Hin. apply Hno. right. exact Hin.
Qed.

(** The first occurrence of the first character of [old] begins [old]. *)
Lemma rewrite_one k rest :
  ~ In c k ->
  Text.rewriteAll lit (k ++ (c :: old') ++ rest)
  = k ++ new ++ Text.rewriteAll lit rest.
Proof.
  induction k as [|a k IH]; intros Hno.
  - simpl app. rewrite (TextFacts.rewriteAll_cons _ lit_consumes).
    change (c :: old' ++ rest) with ((c :: old') ++ rest).
    rewrite strip_own_prefix. reflexivity.
  - simpl app. rewrite (TextFacts.rewriteAll_cons _ lit_consumes).
    change (k ++ c :: old' ++ rest) with (k ++ (c :: old') ++ rest).
    rewrite lit_needs_head by (intros ->; apply Hno; left; reflexivity).
    f_equal. apply IH. intros Hin. apply Hno. right. exact Hin.
Qed.
End Literal.

Lemma ReplaceAll_absent (s : string) c old' new :
  ~ In c (chars s) ->
  ReplaceAll s (String c old') new = s.
Proof.
  intros Hno. unfold ReplaceAll.
  change (chars (String c old')) with (c :: chars old').
  rewrite (rewrite_without_head c (chars old') (chars new) _ Hno).
  apply of_list_chars.
Qed.

Lemma TrimSuffix_append (base suffix : string) :
  TrimSuffix (base ++ suffix) suffix = base.
Proof.
  unfold TrimSuffix. rewrite chars_append, rev_app_distr, strip_own_prefix.
  rewrite rev_involutive. apply of_list_chars.
Qed.

Import OKX.

(** A symbol made of a base without hyphen and [USDT] is sent to the
    venue as the base followed by [-USDT-SWAP], and a position the venue
    reports under that instrument is listed under the symbol again: the
    two conversions are inverse to each other on such symbols. *)
Theorem listed_symbol_is_the_traded_symbol (base : string) (pos : RawPosition) :
  ~ In "-"%char (chars base) ->
  rp_instId pos = convertSymbolToInstID (base ++ "USDT") ->
  convertSymbolToInstID (base ++ "USDT") = (base ++ "-USDT-SWAP")%string
  /\ positionOfRaw pos !! "symbol"%string = Some (VString (base ++ "USDT")).
Proof.
  intros Hno Hinst.
  assert (Hconv : convertSymbolToInstID (base ++ "USDT") = (base ++ "-USDT-SWAP")%string).
  { unfold convertSymbolToInstID. rewrite TrimSuffix_append. reflexivity. }
  split; [exact Hconv |].
  change (positionOfRaw pos !! "symbol"%string)
    with (Some (VString
                  (ReplaceAll (ReplaceAll (rp_instId pos) "-USDT-SWAP" "USDT")
                     "-" EmptyString))).
  do 2 f_equal. rewrite Hinst, Hconv.
  assert (Hfirst : ReplaceAll (base ++ "-USDT-SWAP") "-USDT-SWAP" "USDT"
                   = (base ++ "USDT")%string).
  { unfold ReplaceAll. rewrite chars_append.
    change (chars "-USDT-SWAP") with ("-"%char :: chars "USDT-SWAP").
    replace (chars base ++ "-"%char :: chars "USDT-SWAP")
      with (chars base ++ ("-"%char :: chars "USDT-SWAP") ++ []) by
      (rewrite app_nil_r; reflexivity).
    rewrite (rewrite_one "-"%char (chars "USDT-SWAP") (chars "USDT") _ [] Hno).
    change (Text.rewriteAll _ []) with (@nil ascii). rewrite app_nil_r.
    rewrite of_list_app, of_list_chars. reflexivity. }
  rewrite Hfirst. apply ReplaceAll_absent.
  rewrite chars_append. intros Hin. apply in_app_or in Hin.
  destruct Hin as [Hin | Hin]; [exact (Hno Hin) |].
  simpl in Hin. repeat (destruct Hin as [Hin | Hin]; [discriminate |]). exact Hin.
Qed.

(** *** The number of decimals of a step size *)

Lemma dropWhileEq_run c zeros x :
  Forall (fun a => a = c) zeros -> dropWhileEq c (zeros ++ x) = dropWhileEq c x.
Proof.
  induction 1 as [|a zeros Ha Hz IH]; [reflexivity |].
  simpl. subst a. rewrite Ascii.eqb_refl. exact IH.
Qed.

Lemma dropWhileEq_stop c a x : a <> c -> dropWhileEq c (a :: x) = a :: x.
Proof.
  intros Hne. simpl. destruct (Ascii.eqb a c) eqn:Hac; [| reflexivity].
  apply Ascii.eqb_eq in Hac. congruence.
Qed.

Lemma dropWhileEq_absent c x : ~ In c x -> dropWhileEq c x = x.
Proof.
  destruct x as [|a x]; [reflexivity |]. intros Hno.
  apply dropWhileEq_stop. intros ->. apply Hno. left. reflexivity.
Qed.

Lemma index_from_absent c x : forall i, ~ In c x -> index_from i c x = -1.
Proof.
  induction x as [|a x IH]; intros i Hno; [reflexivity |]. simpl.
  destruct (Ascii.eqb a c) eqn:Hac.
  - apply Ascii.eqb_eq in Hac. subst a. exfalso. apply Hno. left. reflexivity.
  - apply IH. intros Hin. apply Hno. right. exact Hin.
Qed.

Lemma index_from_found c x y : forall i,
  ~ In c x -> index_from i c (x ++ c :: y) = i + Z.of_nat (length x).
Proof.
  induction x as [|a x IH]; intros i Hno; simpl.
  - rewrite Ascii.eqb_refl. lia.
  - destruct (Ascii.eqb a c) eqn:Hac.
    + apply Ascii.eqb_eq in Hac. subst a. exfalso. apply Hno. left. reflexivity.
    + rewrite IH by (intros Hin; apply Hno; right; exact Hin). lia.
Qed.

Lemma length_of_list l : String.length (string_of_list_ascii l) = length l.
Proof. induction l as [|a l IH]; simpl; [reflexivity | rewrite IH; reflexivity]. Qed.

Lemma TrimRight_chars s c :
  TrimRight s c = string_of_list_ascii (rev (dropWhileEq c (rev (chars s)))).
Proof. reflexivity. Qed.

(** [calculatePrecisionFromStepSize] counts the decimals of a step size
    up to the last one that is not a zero: trailing zeros do not count,
    a step size without a point has precision 0. *)
Theorem calculatePrecisionFromStepSize_counts_decimals
    (whole fraction zeros : list ascii) :
  ~ In "."%char whole -> ~ In "."%char fraction ->
  last fraction <> Some "0"%char ->
  Forall (fun a => a = "0"%char) zeros ->
  calculatePrecisionFromStepSize
    (string_of_list_ascii (whole ++ "."%char :: fraction ++ zeros))
  = Z.of_nat (length fraction)
  /\ (forall digits, ~ In "."%char digits ->
        calculatePrecisionFromStepSize (string_of_list_ascii digits) = 0).
Proof.
  intros Hwhole Hfraction Hlast Hzeros. split.
  - unfold calculatePrecisionFromStepSize. cbv zeta.
    rewrite !TrimRight_chars, !chars_of_list.
    assert (Hstep1 : rev (dropWhileEq "0" (rev (whole ++ "."%char :: fraction ++ zeros)))
                     = whole ++ "."%char :: fraction).
    { rewrite rev_app_distr. simpl rev. rewrite rev_app_distr, <- !app_assoc.
      rewrite dropWhileEq_run by (apply Forall_rev; exact Hzeros).
      destruct (rev fraction) as [|a f] eqn:Hf.
      - simpl app. rewrite dropWhileEq_stop by discriminate.
        apply (f_equal (@rev ascii)) in Hf. rewrite rev_involutive in Hf.
        subst fraction. simpl. rewrite rev_involutive. reflexivity.
      - assert (Ha : a <> "0"%char).
        { apply (f_equal (@rev ascii)) in Hf. rewrite rev_involutive in Hf.
          subst fraction. simpl in Hlast. rewrite last_snoc in Hlast. congruence. }
        simpl app. rewrite dropWhileEq_stop by exact Ha.
        change (a :: f ++ "."%char :: rev whole)
          with ((a :: f) ++ ["."%char] ++ rev whole).
        rewrite <- Hf, !rev_app_distr, !rev_involutive. rewrite <- app_assoc.
        reflexivity. }
    rewrite Hstep1.
    destruct fraction as [|b fraction'] eqn:Hfr.
    + (* the point is trimmed as well *)
      rewrite rev_app_distr. simpl rev. simpl app.
      change (dropWhileEq "." ("."%char :: rev whole))
        with (dropWhileEq "." (rev whole)).
      rewrite dropWhileEq_absent by (rewrite <- in_rev; exact Hwhole).
      rewrite rev_involutive.
      unfold Index. rewrite chars_of_list.
      rewrite (index_from_absent "." whole 0 Hwhole). reflexivity.
    + rewrite <- Hfr in *.
      assert (Hkeep : dropWhileEq "." (rev (whole ++ "."%char :: fraction))
                      = rev (whole ++ "."%char :: fraction)).
      { rewrite rev_app_distr. simpl rev.
        destruct (rev fraction) as [|a f] eqn:Hf.
        - apply (f_equal (@rev ascii)) in Hf. rewrite rev_involutive in Hf.
          subst fraction. discriminate.
        - rewrite <- !app_assoc. simpl app. apply dropWhileEq_stop.
          intros ->. apply Hfraction. apply in_rev. rewrite Hf. left. reflexivity. }
      rewrite Hkeep, rev_involutive.
      unfold Index, len. rewrite chars_of_list, length_of_list.
      rewrite (index_from_found "." whole fraction 0 Hwhole).
      change (0 + Z.of_nat (length whole) =? -1) with (Z.of_nat (length whole) =? -1).
      destruct (Z.of_nat (length whole) =? -1) eqn:Hneg; [apply Z.eqb_eq in Hneg; lia |].
      rewrite length_app. simpl length. lia.
  - intros digits Hno. unfold calculatePrecisionFromStepSize. cbv zeta.
    rewrite !TrimRight_chars, !chars_of_list.
    set (t := rev (dropWhileEq "." (rev (rev (dropWhileEq "0" (rev digits)))))).
    assert (Ht : ~ In "."%char t).
    { subst t. intros Hin. apply Hno.
      rewrite rev_involutive in Hin. apply in_rev in Hin.
      assert (Hsub : forall c x a, In a (dropWhileEq c x) -> In a x).
      { intros c x. induction x as [|b x IH]; simpl; [tauto |].
        destruct (Ascii.eqb b c); [intros a Ha; right; apply IH; exact Ha | simpl; tauto]. }
      apply Hsub in Hin. apply Hsub in Hin. apply in_rev. exact Hin. }
    unfold Index. rewrite chars_of_list, (index_from_absent "." t 0 Ht). reflexivity.
Qed.

(** [BTCUSDT] and the BTC long of the fixture. *)
Lemma listed_symbol_is_the_traded_symbol_witness :
  convertSymbolToInstID "BTCUSDT" = "BTC-USDT-SWAP"%string
  /\ positionOfRaw Fixture.btcLong !! "symbol"%string = Some (VString "BTCUSDT").
Proof.
  apply (listed_symbol_is_the_traded_symbol "BTC" Fixture.btcLong).
  - simpl. intros [H | [H | [H | []]]]; discriminate H.
  - reflexivity.
Defined.

(** The step size [0.00100] has three decimals. *)
Lemma calculatePrecisionFromStepSize_counts_decimals_witness :
  calculatePrecisionFromStepSize "0.00100" = 3.
Proof.
  refine (proj1 (calculatePrecisionFromStepSize_counts_decimals
                   ["0"%char] ["0"%char; "0"%char; "1"%char] ["0"%char; "0"%char]
                   _ _ _ _)).
  - simpl. intros [H | []]. discriminate H.
  - simpl. intros [H | [H | [H | []]]]; discriminate H.
  - discriminate.
  - repeat constructor.
Defined.

End StringsFacts.

(** ** The requests the adapter sends *)

Module LoggedFacts.
Import OKX Logged.

Section Emits.
Context {V : Type} `{Venue V} `{Strconv}.
#[local] Existing Instance loggedVenue.
Variable P : Request -> Prop.

#[local] Abbreviation W := (@World (V * list Request)).

Lemma emits_ret {A} (a : A) : emits P (mret a : M W A).
Proof. intros w. exists []. rewrite app_nil_r. split; [reflexivity | constructor]. Qed.

Lemma emits_fail {A} (e : Error) : emits P (@fail W A e).
Proof. intros w. exists []. rewrite app_nil_r. split; [reflexivity | constructor]. Qed.

Lemma emits_bind {A B} (m : M W A) (k : A -> M W B) :
  emits P m -> (forall a, emits P (k a)) -> emits P (m ≫= k).
Proof.
  intros Hm Hk w. unfold mbind, M_bind.
  destruct (Hm w) as (l1 & Hl1 & HP1).
  destruct (m w) as [[a | e] w1]; simpl in *.
  - destruct (Hk a w1) as (l2 & Hl2 & HP2).
    exists (l1 ++ l2). rewrite Hl2, Hl1, app_assoc.
    split; [reflexivity | apply Forall_app; split; assumption].
  - exists l1. split; assumption.
Qed.

Lemma emits_attempt {A} (m : M W A) : emits P m -> emits P (attempt m).
Proof.
  intros Hm w. unfold attempt. destruct (Hm w) as (l & Hl & HP).
  destruct (m w) as [r w1]. exists l. split; assumption.
Qed.

Lemma emits_request r : P r -> emits P (request r).
Proof.
  intros Hr w. unfold request. simpl.
  destruct (makeRequest r (fst (snd w))) as [[d | msg] v]; simpl;
    exists [r]; (split; [reflexivity | repeat constructor; exact Hr]).
Qed.

Lemma emits_now : emits P (now : M W Z).
Proof. intros w. exists []. rewrite app_nil_r. split; [reflexivity | constructor]. Qed.

Lemma emits_adapter : emits P (adapter : M W OKXTrader).
Proof. intros w. exists []. rewrite app_nil_r. split; [reflexivity | constructor]. Qed.

Lemma emits_sleep d : emits P (sleep d : M W unit).
Proof. intros w. exists []. rewrite app_nil_r. split; [reflexivity | constructor]. Qed.

Lemma emits_update f : emits P (update f : M W unit).
Proof. intros w. exists []. rewrite app_nil_r. split; [reflexivity | constructor]. Qed.

Lemma emits_forEach {A} (l : list A) (f : A -> M W unit) :
  (forall x, emits P (f x)) -> emits P (forEach l f).
Proof.
  intros Hf. induction l as [| x l IH]; simpl.
  - apply emits_ret.
  - apply emits_bind; [apply Hf | intros _; exact IH].
Qed.
End Emits.

Create HintDb emit.
#[local] Hint Resolve emits_ret emits_fail emits_attempt emits_now emits_adapter
  emits_sleep emits_update : emit.
#[local] Hint Extern 1 (~ _) => discriminate : emit.
#[local] Hint Extern 1 (_ = _) => reflexivity : emit.

Ltac emit_step :=
  first
    [ solve [auto with emit]
    | apply emits_request; cbv beta; solve [reflexivity | discriminate]
    | apply emits_attempt
    | apply emits_bind; [| intros ?]
    | apply emits_forEach; intros ?
    | match goal with
      | |- emits _ (match ?x with _ => _ end) => destruct x
      | |- emits _ (let _ := _ in _) => cbv zeta
      end ].

Ltac emit := repeat emit_step.

Section Quiet.
Context {V : Type} `{Venue V} `{Strconv}.
#[local] Existing Instance loggedVenue.

(** Everything but an order. *)
#[local] Abbreviation noOrder := (fun r : Request => isOrder r = false).
#[local] Abbreviation W := (@World (V * list Request)).

Lemma quiet_GetMarketPrice symbol : emits (V:=V) noOrder (GetMarketPrice symbol).
Proof. unfold GetMarketPrice. emit. Qed.

Lemma quiet_GetBalance : emits (V:=V) noOrder GetBalance.
Proof. unfold GetBalance, fetchBalance. emit. Qed.

Lemma quiet_GetPositions : emits (V:=V) noOrder GetPositions.
Proof. unfold GetPositions, fetchPositions. emit. Qed.

Lemma quiet_CancelAllOrders symbol : emits (V:=V) noOrder (CancelAllOrders symbol).
Proof. unfold CancelAllOrders, cancelAllOrdersOneByOne. emit. Qed.

Lemma quiet_SetLeverageWithPosSide symbol leverage posSide :
  emits (V:=V) noOrder (SetLeverageWithPosSide symbol leverage posSide).
Proof. unfold SetLeverageWithPosSide. emit. Qed.

Lemma quiet_GetSymbolLotSz symbol : emits (V:=V) noOrder (GetSymbolLotSz symbol).
Proof. unfold GetSymbolLotSz. emit. Qed.

Lemma quiet_GetSymbolPrecision symbol : emits (V:=V) noOrder (GetSymbolPrecision symbol).
Proof. unfold GetSymbolPrecision. emit. Qed.

#[local] Hint Resolve quiet_GetMarketPrice quiet_GetBalance quiet_GetPositions
  quiet_CancelAllOrders quiet_SetLeverageWithPosSide quiet_GetSymbolLotSz
  quiet_GetSymbolPrecision : emit.

Lemma quiet_FormatQuantity symbol quantity :
  emits (V:=V) noOrder (FormatQuantity symbol quantity).
Proof. unfold FormatQuantity. emit. Qed.

#[local] Hint Resolve quiet_FormatQuantity : emit.

Lemma quiet_prepareOpen isLong symbol quantity leverage :
  emits (V:=V) noOrder (prepareOpen isLong symbol quantity leverage).
Proof. unfold prepareOpen. emit. Qed.

Lemma quiet_rejectForMargin symbol quantityStr currentPrice leverage available :
  emits (V:=V) noOrder
    (rejectForMargin symbol quantityStr currentPrice leverage available).
Proof. unfold rejectForMargin. emit. Qed.

Lemma placed_app l1 l2 : placed (l1 ++ l2) = placed l1 ++ placed l2.
Proof. unfold placed. apply omap_app. Qed.

Lemma placed_quiet l : Forall noOrder l -> placed l = [].
Proof.
  induction 1 as [|r l Hr Hl IH]; [reflexivity |].
  unfold placed in *. simpl. destruct r; try discriminate; exact IH.
Qed.

(** One request and the log. *)
Lemma run_request r (w : W) :
  request r w
  = (match fst (makeRequest r (fst (snd w))) with
     | Ok d => Ok d
     | Err msg => Err (Transport msg)
     end,
     (fst w, (snd (makeRequest r (fst (snd w))), sent w ++ [r]))).
Proof.
  unfold request, sent. simpl.
  destruct (makeRequest r (fst (snd w))) as [[d | msg] v]; reflexivity.
Qed.

Lemma sent_after_quiet {A} (m : M W A) (k : W -> list Request) w0 :
  emits noOrder m -> forall w, sent w = sent w0 ++ k w0 ->
  exists l, sent (snd (m w)) = sent w0 ++ k w0 ++ l /\ Forall noOrder l.
Proof.
  intros Hm w Hw. destruct (Hm w) as (l & Hl & HP).
  exists l. rewrite Hl, Hw, app_assoc. split; [reflexivity | exact HP].
Qed.

(** What follows the check of the prices in an open. *)
Lemma run_submitOpen isLong symbol quantityStr leverage stopLoss takeProfit
    currentPrice (w : W) :
  priceSanity isLong currentPrice leverage stopLoss takeProfit = None ->
  let body := openOrder isLong symbol quantityStr stopLoss takeProfit in
  let context := (if isLong then "开多仓失败" else "开空仓失败")%string in
  let w1 : W := (fst w, (snd (makeRequest (PlaceOrder body) (fst (snd w))),
                         sent w ++ [PlaceOrder body])) in
  submitOpen isLong symbol quantityStr leverage stopLoss takeProfit currentPrice w
  = match fst (makeRequest (PlaceOrder body) (fst (snd w))) with
    | Err msg => (Err (Wrapped context (Transport msg)), snd (GetBalance w1))
    | Ok (OrderData []) => (Err (Failure "订单响应为空"), w1)
    | Ok (OrderData (order :: _)) =>
        if negb (String.eqb (sCode order) "0") then
          (Err (OrderRejected context (sCode order) (sMsg order)),
           snd (GetBalance (snd (GetMarketPrice symbol w1))))
        else (Ok (orderResult symbol order), w1)
    | Ok _ => (Err (Wrapped "解析订单响应失败" (Failure "json")), w1)
    end.
Proof.
  intros Hs. cbv zeta. unfold submitOpen. rewrite Hs. cbv zeta.
  unfold mbind at 1, M_bind at 1, attempt at 1.
  fold (openOrder isLong symbol quantityStr stopLoss takeProfit).
  rewrite run_request.
  destruct (fst (makeRequest
                   (PlaceOrder (openOrder isLong symbol quantityStr stopLoss takeProfit))
                   (fst (snd w)))) as [d | msg].
  - destruct d as [? | ? | orders | ? | ? | ? |]; try reflexivity.
    destruct orders as [| order orders']; [reflexivity |].
    destruct (negb (String.eqb (sCode order) "0")); [| reflexivity].
    unfold mbind, M_bind, attempt, fail.
    destruct (GetMarketPrice symbol _) as [rp wp]. simpl.
    destruct (GetBalance wp) as [rb wb]. reflexivity.
  - unfold mbind, M_bind, attempt, fail.
    destruct (GetBalance _) as [rb wb]. reflexivity.
Qed.

Lemma submitOpen_log isLong symbol quantityStr leverage stopLoss takeProfit
    currentPrice (w : W) :
  exists l,
    sent (snd (submitOpen isLong symbol quantityStr leverage stopLoss takeProfit
                 currentPrice w)) = sent w ++ l
    /\ ((exists e,
           priceSanity isLong currentPrice leverage stopLoss takeProfit = Some e
           /\ l = []
           /\ fst (submitOpen isLong symbol quantityStr leverage stopLoss takeProfit
                     currentPrice w) = Err e)
        \/ (exists l',
              l = PlaceOrder (openOrder isLong symbol quantityStr stopLoss takeProfit)
                  :: l'
              /\ Forall noOrder l'
              /\ forall e,
                   fst (submitOpen isLong symbol quantityStr leverage stopLoss
                          takeProfit currentPrice w) = Err e ->
                   refusedBeforeOrder e = false)).
Proof.
  destruct (priceSanity isLong currentPrice leverage stopLoss takeProfit) as [e|] eqn:Hs.
  - exists []. rewrite app_nil_r. unfold submitOpen. rewrite Hs.
    split; [reflexivity |]. left. exists e. auto.
  - rewrite (run_submitOpen _ _ _ _ _ _ _ w Hs). cbv zeta.
    set (body := openOrder isLong symbol quantityStr stopLoss takeProfit).
    set (w1 := (fst w, (snd (makeRequest (PlaceOrder body) (fst (snd w))),
                        sent w ++ [PlaceOrder body])) : W).
    assert (Hw1 : sent w1 = sent w ++ [PlaceOrder body]) by reflexivity.
    assert (Hdone : forall r : res Error Order,
              (forall e, r = Err e -> refusedBeforeOrder e = false) ->
              exists l, sent (snd (r, w1)) = sent w ++ l
                /\ ((exists e, None = Some e /\ l = [] /\ fst (r, w1) = Err e)
                    \/ (exists l', l = PlaceOrder body :: l' /\ Forall noOrder l'
                          /\ forall e, fst (r, w1) = Err e ->
                                       refusedBeforeOrder e = false))).
    { intros r Hr. exists [PlaceOrder body]. split; [exact Hw1 |].
      right. exists []. split; [reflexivity | split; [constructor | exact Hr]]. }
    destruct (fst (makeRequest (PlaceOrder body) (fst (snd w)))) as [d | msg].
    + destruct d as [? | ? | orders | ? | ? | ? |];
        try (apply Hdone; intros e He; inversion He; reflexivity).
      destruct orders as [| order orders'];
        [apply Hdone; intros e He; inversion He; reflexivity |].
      destruct (negb (String.eqb (sCode order) "0"));
        [| apply Hdone; intros e He; inversion He].
      destruct (quiet_GetMarketPrice symbol w1) as (l1 & Hl1 & HP1).
      destruct (quiet_GetBalance (snd (GetMarketPrice symbol w1))) as (l2 & Hl2 & HP2).
      exists (PlaceOrder body :: l1 ++ l2). simpl snd.
      rewrite Hl2, Hl1, Hw1, <- !app_assoc. split; [reflexivity |].
      right. exists (l1 ++ l2).
      split; [reflexivity | split; [apply Forall_app; split; assumption |]].
      intros e He. inversion He. reflexivity.
    + destruct (quiet_GetBalance w1) as (l2 & Hl2 & HP2).
      exists (PlaceOrder body :: l2). simpl snd.
      rewrite Hl2, Hw1, <- !app_assoc. split; [reflexivity |].
      right. exists l2. split; [reflexivity | split; [exact HP2 |]].
      intros e He. inversion He. reflexivity.
Qed.

(** An open is its first steps, and then the refusal for margin or the
    order. *)
Lemma run_openPosition isLong symbol quantity leverage stopLoss takeProfit (w : W) :
  openPosition isLong symbol quantity leverage stopLoss takeProfit w
  = match prepareOpen isLong symbol quantity leverage w with
    | (Ok (price, bal, qs), w1) =>
        if Qltb (availableOf bal) (marginRequired qs price leverage)
        then rejectForMargin symbol qs price leverage (availableOf bal) w1
        else submitOpen isLong symbol qs leverage stopLoss takeProfit price w1
    | (Err e, w1) => (Err e, w1)
    end.
Proof.
  unfold openPosition, mbind, M_bind.
  destruct (prepareOpen isLong symbol quantity leverage w)
    as [[[[price bal] qs] | e] w1]; [| reflexivity].
  cbv beta iota zeta.
  destruct (Qltb (availableOf bal) (marginRequired qs price leverage));
    reflexivity.
Qed.

(** [OpenLong] and [OpenShort] place at most one order, the market order
    of the side asked for, not reduce-only, with the stop-loss and the
    take-profit attached when they are positive.  When the open is
    refused for margin or by a check of the prices, no order has been
    placed. *)
Theorem open_sends_at_most_one_order
    (isLong : bool) (symbol : string) (quantity : Q) (leverage : Z)
    (stopLoss takeProfit : Q) (w : W) :
  exists l,
    sent (snd (openPosition isLong symbol quantity leverage stopLoss takeProfit w))
    = sent w ++ l
    /\ (placed l = []
        \/ exists quantityStr,
             placed l = [openOrder isLong symbol quantityStr stopLoss takeProfit])
    /\ (forall e,
          fst (openPosition isLong symbol quantity leverage stopLoss takeProfit w)
          = Err e ->
          refusedBeforeOrder e = true -> placed l = []).
Proof.
  rewrite run_openPosition.
  destruct (quiet_prepareOpen isLong symbol quantity leverage w) as (l1 & Hl1 & HP1).
  destruct (prepareOpen isLong symbol quantity leverage w) as [[[[price bal] qs] | e] w1];
    simpl in Hl1.
  - destruct (Qltb (availableOf bal) (marginRequired qs price leverage)).
    + destruct (quiet_rejectForMargin symbol qs price leverage (availableOf bal) w1)
        as (l2 & Hl2 & HP2).
      exists (l1 ++ l2). rewrite Hl2, Hl1, app_assoc.
      assert (Hq : placed (l1 ++ l2) = []).
      { apply placed_quiet, Forall_app. split; assumption. }
      split; [reflexivity | split; [left; exact Hq | intros; exact Hq]].
    + destruct (submitOpen_log isLong symbol qs leverage stopLoss takeProfit price w1)
        as (l2 & Hl2 & Hcase).
      exists (l1 ++ l2). rewrite Hl2, Hl1, app_assoc. split; [reflexivity |].
      rewrite placed_app, (placed_quiet l1 HP1). simpl app.
      destruct Hcase as [(e & _ & -> & _) | (l' & -> & HP' & Hres)].
      * split; [left; reflexivity | intros; reflexivity].
      * assert (Hp : placed (PlaceOrder (openOrder isLong symbol qs stopLoss takeProfit)
                              :: l')
                     = [openOrder isLong symbol qs stopLoss takeProfit]).
        { change (placed (PlaceOrder ?b :: l')) with (b :: placed l').
          unfold placed at 1. simpl. fold (placed l').
          rewrite (placed_quiet l' HP'). reflexivity. }
        rewrite Hp. split.
        -- right. exists qs. reflexivity.
        -- intros e He Hre. rewrite (Hres e He) in Hre. discriminate.
  - exists l1. rewrite (placed_quiet l1 HP1).
    split; [exact Hl1 | split; [left; reflexivity | intros; reflexivity]].
Qed.

(** *** Cancelling by kind *)

Lemma run_try_request r (k : M W unit) (w : W) :
  ((_ ← attempt (request r); mret tt) ≫= (fun _ : unit => k)) w
  = k (fst w, (snd (makeRequest r (fst (snd w))), sent w ++ [r])).
Proof. unfold mbind, M_bind, attempt, mret, M_ret. rewrite run_request. reflexivity. Qed.

Lemma run_skip (k : M W unit) (w : W) :
  ((mret tt : M W unit) ≫= (fun _ : unit => k)) w = k w.
Proof. reflexivity. Qed.

Lemma cancel_loop_log kinds instID (orders : list PendingOrder) : forall w : W,
  let loop :=
    forEach orders (fun order =>
      if existsb (String.eqb (po_ordType order)) kinds then
        _ ← attempt (request (CancelOrder instID (po_ordId order)));
        mret tt
      else mret tt) in
  fst (loop w) = Ok tt
  /\ sent (snd (loop w)) = sent w ++ cancelled kinds instID orders.
Proof.
  cbv zeta. induction orders as [| order orders IH]; intros w.
  - simpl. rewrite app_nil_r. split; reflexivity.
  - unfold cancelled. simpl forEach. simpl List.filter.
    destruct (existsb (String.eqb (po_ordType order)) kinds).
    + rewrite run_try_request.
      match goal with
      | |- fst (forEach _ _ ?w1) = _ /\ _ =>
          destruct (IH w1) as [Hok Hlog]; split; [exact Hok |];
          rewrite Hlog
      end.
      unfold sent at 1. simpl. rewrite <- app_assoc. reflexivity.
    + rewrite run_skip. apply IH.
Qed.

Lemma cancelled_union_perm instID (orders : list PendingOrder) :
  Permutation
    (cancelled ["stop_market"; "take_profit_market"; "stop"; "take_profit"]
       instID orders)
    (cancelled ["stop_market"; "stop"] instID orders
     ++ cancelled ["take_profit_market"; "take_profit"] instID orders).
Proof.
  unfold cancelled. induction orders as [| order orders IH]; [reflexivity |].
  simpl List.filter. simpl existsb.
  destruct (String.eqb (po_ordType order) "stop_market") eqn:E1.
  { apply String.eqb_eq in E1. rewrite ?E1. simpl. constructor. exact IH. }
  destruct (String.eqb (po_ordType order) "take_profit_market") eqn:E2.
  { apply String.eqb_eq in E2. rewrite ?E2. simpl.
    rewrite IH. apply Permutation_middle. }
  destruct (String.eqb (po_ordType order) "stop") eqn:E3.
  { apply String.eqb_eq in E3. rewrite ?E3. simpl. constructor. exact IH. }
  destruct (String.eqb (po_ordType order) "take_profit") eqn:E4.
  { apply String.eqb_eq in E4. rewrite ?E4. simpl.
    rewrite IH. apply Permutation_middle. }
  simpl. exact IH.
Qed.

(** [CancelStopLossOrders], [CancelTakeProfitOrders] and
    [CancelStopOrders] ask the venue for the pending orders of the
    symbol and then send one cancel request for each order of their
    kinds, in the order of the list, and nothing else; they succeed
    whatever the venue answers to the cancel requests.  When the list
    cannot be read they fail after that one request.
    [CancelStopOrders] cancels what the other two cancel together. *)
Theorem cancelOrdersOfType_cancels_listed
    (kinds : list string) (symbol : string) (w : W) :
  let instID := convertSymbolToInstID symbol in
  match fst (makeRequest (OrdersPending instID) (fst (snd w))) with
  | Ok (PendingData orders) =>
      fst (cancelOrdersOfType kinds symbol w) = Ok tt
      /\ sent (snd (cancelOrdersOfType kinds symbol w))
         = sent w ++ OrdersPending instID :: cancelled kinds instID orders
      /\ Permutation
           (cancelled ["stop_market"; "take_profit_market"; "stop"; "take_profit"]
              instID orders)
           (cancelled ["stop_market"; "stop"] instID orders
            ++ cancelled ["take_profit_market"; "take_profit"] instID orders)
  | _ =>
      is_ok (fst (cancelOrdersOfType kinds symbol w)) = false
      /\ sent (snd (cancelOrdersOfType kinds symbol w))
         = sent w ++ [OrdersPending instID]
  end.
Proof.
  cbv zeta.
  assert (Hrun : cancelOrdersOfType kinds symbol w
    = let instID := convertSymbolToInstID symbol in
      let w1 : W := (fst w, (snd (makeRequest (OrdersPending instID) (fst (snd w))),
                            sent w ++ [OrdersPending instID])) in
      match fst (makeRequest (OrdersPending instID) (fst (snd w))) with
      | Ok (PendingData orders) =>
          forEach orders (fun order =>
            if existsb (String.eqb (po_ordType order)) kinds then
              _ ← attempt (request (CancelOrder instID (po_ordId order)));
              mret tt
            else mret tt) w1
      | Ok _ => (Err (Wrapped "解析订单列表失败" (Failure "json")), w1)
      | Err msg => (Err (Wrapped "获取未完成订单失败" (Transport msg)), w1)
      end).
  { unfold cancelOrdersOfType. cbv zeta.
    unfold mbind at 1, M_bind at 1, attempt at 1. rewrite run_request.
    destruct (fst (makeRequest (OrdersPending (convertSymbolToInstID symbol))
                     (fst (snd w)))) as [d | msg]; [destruct d |]; reflexivity. }
  rewrite Hrun. clear Hrun. cbv zeta.
  destruct (fst (makeRequest (OrdersPending (convertSymbolToInstID symbol))
                   (fst (snd w)))) as [d | msg].
  - destruct d; try (split; reflexivity).
    match goal with
    | |- fst (forEach _ _ ?w1) = _ /\ _ =>
        destruct (cancel_loop_log kinds (convertSymbolToInstID symbol) l w1)
          as [Hok Hlog]
    end.
    split; [exact Hok | split; [| apply cancelled_union_perm]].
    rewrite Hlog. unfold sent at 1. simpl. rewrite <- app_assoc. reflexivity.
  - split; reflexivity.
Qed.

End Quiet.

End LoggedFacts.

(** ** Closing, and the orders of every mutation *)

Module ClosingFacts.
Import OKX OKXFacts AdapterTools AdapterMore Logged LoggedFacts.

Section Listing.
Context {V : Type} `{Venue V} `{Strconv}.

#[local] Hint Resolve keeps_GetMarketPrice keeps_CancelAllOrders
  keeps_cancelOrdersOfType keeps_SetLeverageWithPosSide keeps_GetSymbolLotSz
  keeps_FormatQuantity keeps_setProtection GetBalance_keeps_positions : frame.

Lemma listed_same (t t' : OKXTrader) :
  cachedPositions t' = cachedPositions t -> listed t -> listed t'.
Proof. intros Hc Hl positions Hp. apply Hl. rewrite <- Hc. exact Hp. Qed.

Lemma listed_kept {A} (m : M (@World V) A) :
  keeps positionsView m ->
  forall w, listed (fst w) -> listed (fst (snd (m w))).
Proof.
  intros Hm w. apply listed_same.
  destruct (positionsView_eq _ _ (Hm w)) as [Hc _]. exact Hc.
Qed.

Lemma fetchPositions_listed (w : @World V) :
  listed (fst w) ->
  listed (fst (snd (fetchPositions w)))
  /\ forall positions,
       fst (fetchPositions w) = Ok positions -> Forall wellListed positions.
Proof.
  intros Hl. rewrite run_fetchPositions.
  destruct (makeRequest GetAccountPositions (snd w)) as [[d | msg] v].
  - destruct d; try (split; [exact Hl | discriminate]).
    split.
    + intros positions. simpl.
      destruct (positionsOfRaw l) as [| p ps] eqn:Hraw; [discriminate |].
      intros Hp. inversion Hp; subst positions. rewrite <- Hraw.
      apply positionsOfRaw_wellListed.
    + intros positions Hp. simpl in Hp. inversion Hp; subst positions.
      apply positionsOfRaw_wellListed.
  - split; [exact Hl | discriminate].
Qed.

Lemma GetPositions_listed (w : @World V) :
  listed (fst w) ->
  listed (fst (snd (GetPositions w)))
  /\ forall positions,
       fst (GetPositions w) = Ok positions -> Forall wellListed positions.
Proof.
  intros Hl.
  assert (Hrun : GetPositions w
    = match cachedPositions (fst w) with
      | Some ps =>
          if timeNow (snd w) - positionsCacheTime (fst w) <? cacheDuration (fst w)
          then (Ok ps, w) else fetchPositions w
      | None => fetchPositions w
      end).
  { unfold GetPositions, mbind, M_bind, adapter, now. cbv beta iota.
    destruct (cachedPositions (fst w)); [| reflexivity].
    destruct (_ <? _); reflexivity. }
  rewrite Hrun.
  destruct (cachedPositions (fst w)) as [ps |] eqn:Hc;
    [| apply fetchPositions_listed; exact Hl].
  destruct (_ <? _); [| apply fetchPositions_listed; exact Hl].
  split; [exact Hl |].
  intros positions Hp. inversion Hp; subst positions. apply Hl. exact Hc.
Qed.

(** A close of "everything" is a close of the quantity found in the
    list of positions. *)
Lemma closePosition_all isLong symbol quantity (w : @World V) :
  Qeqb quantity 0 = true ->
  closePosition isLong symbol quantity w
  = match GetPositions w with
    | (Ok positions, w1) =>
        match heldQuantity isLong symbol positions with
        | Ok q =>
            if Qeqb q 0
            then (Err (NoPosition symbol (if isLong then "long" else "short")), w1)
            else closePosition isLong symbol q w1
        | Err e => (Err e, w1)
        end
    | (Err e, w1) => (Err e, w1)
    end.
Proof.
  intros Hq. unfold closePosition at 1. rewrite Hq.
  unfold mbind at 1, M_bind at 1. unfold mbind at 1, M_bind at 1.
  destruct (GetPositions w) as [[positions | e] w1]; [| reflexivity].
  destruct (heldQuantity isLong symbol positions) as [q | e]; [| reflexivity].
  destruct (Qeqb q 0) eqn:Hq0; [reflexivity |].
  unfold closePosition. rewrite Hq0. reflexivity.
Qed.

Lemma closePosition_listed isLong symbol quantity (w : @World V) :
  listed (fst w) -> listed (fst (snd (closePosition isLong symbol quantity w))).
Proof.
  intros Hl. destruct (Qeqb quantity 0) eqn:Hq.
  - rewrite (closePosition_all _ _ _ _ Hq).
    destruct (GetPositions_listed w Hl) as [Hl1 _].
    destruct (GetPositions w) as [[positions | e] w1]; [| exact Hl1].
    destruct (heldQuantity isLong symbol positions) as [q | e]; [| exact Hl1].
    destruct (Qeqb q 0) eqn:Hq0; [exact Hl1 |].
    apply (listed_kept _ (closePosition_keeps_positions isLong symbol q Hq0)).
    exact Hl1.
  - apply (listed_kept _ (closePosition_keeps_positions isLong symbol quantity Hq)).
    exact Hl.
Qed.

Lemma forget_world {A} (m : M (@World V) A) w : snd (forget m w) = snd (m w).
Proof. unfold forget, mbind, M_bind. destruct (m w) as [[a | e] w1]; reflexivity. Qed.

Lemma mutate_listed (m : Mutation) (w : @World V) :
  listed (fst w) -> listed (fst (snd (mutate m w))).
Proof.
  intros Hl. destruct (readsPositions m) eqn:Hr.
  - destruct m; try discriminate; simpl; rewrite forget_world;
      apply closePosition_listed; exact Hl.
  - apply (listed_kept _ (mutate_keeps_positions m Hr)). exact Hl.
Qed.

(** The positions in the cache of the adapter are always positions as
    [GetPositions] builds them, with a positive amount and a side; so are
    the positions a read returns.  This holds of the new adapter, and
    every read and every mutation keeps it. *)
Theorem cached_positions_stay_listed :
  listed NewOKXTrader
  /\ (forall (m : Mutation) (w : @World V),
        listed (fst w) -> listed (fst (snd (mutate m w))))
  /\ (forall w : @World V,
        listed (fst w) ->
        listed (fst (snd (GetPositions w)))
        /\ forall positions,
             fst (GetPositions w) = Ok positions -> Forall wellListed positions)
  /\ (forall w : @World V,
        listed (fst w) -> listed (fst (snd (GetBalance w)))).
Proof.
  split; [intros positions Hp; discriminate | split; [| split]].
  - apply mutate_listed.
  - apply GetPositions_listed.
  - apply (listed_kept _ GetBalance_keeps_positions).
Qed.

(** *** The size of a close of "everything" *)

Lemma heldQuantity_short symbol positions q :
  Forall wellListed positions ->
  heldQuantity false symbol positions = Ok q -> (q <= 0)%Q.
Proof.
  induction 1 as [| pos rest Hpos Hrest IH]; simpl.
  - intros Hq. inversion Hq. lra.
  - destruct (isString (pos !! "symbol"%string) symbol
              && isString (pos !! "side"%string) "short")%bool; [| exact IH].
    destruct Hpos as [(amt & Hamt & Hpositive) _]. rewrite Hamt.
    intros Hq. inversion Hq. lra.
Qed.

Lemma roundHalfEven_nonpositive (x : Q) : (x <= 0)%Q -> roundHalfEven x <= 0.
Proof.
  intros Hx. unfold roundHalfEven. cbv zeta.
  pose proof (Qfloor_le x) as Hf.
  assert (Hf0 : Qfloor x <= 0).
  { rewrite (Zle_Qle (Qfloor x) 0). change (inject_Z 0) with 0%Q. lra. }
  assert (Hstep : (1 # 2 <= x - inject_Z (Qfloor x))%Q -> Qfloor x + 1 <= 0).
  { intros Hr. assert (Hlt : (inject_Z (Qfloor x) < 0)%Q) by lra.
    change 0%Q with (inject_Z 0) in Hlt. rewrite <- Zlt_Qlt in Hlt. lia. }
  destruct (Qltb (x - inject_Z (Qfloor x)) (1 # 2)) eqn:E1; [exact Hf0 |].
  apply Qltb_ge in E1.
  destruct (Qltb (1 # 2) (x - inject_Z (Qfloor x))); [apply Hstep, E1 |].
  destruct (Z.even (Qfloor x)); [exact Hf0 | apply Hstep, E1].
Qed.

Lemma FormatQuantity_nonpositive symbol q (w : @World V) qs :
  (q <= 0)%Q -> fst (FormatQuantity symbol q w) = Ok qs -> unscaled qs <= 0.
Proof.
  intros Hq Hf.
  destruct (run_FormatQuantity symbol q w) as (precision & lotSz & _ & _ & Hrun).
  rewrite Hrun in Hf. simpl in Hf. inversion Hf. simpl.
  assert (Hround : roundToLot lotSz q = q).
  { unfold roundToLot. replace (Qltb 0 q) with false; [reflexivity |].
    symmetry. apply Qltb_ge. exact Hq. }
  rewrite Hround. apply roundHalfEven_nonpositive.
  assert (Hp : (0 <= inject_Z (10 ^ precision))%Q).
  { change 0%Q with (inject_Z 0). rewrite <- Zle_Qle. apply Z.pow_nonneg. lia. }
  nra.
Qed.

End Listing.

Section Orders.
Context {V : Type} `{Venue V} `{Strconv}.
#[local] Existing Instance loggedVenue.

#[local] Abbreviation noOrder := (fun r : Request => isOrder r = false).
#[local] Abbreviation W := (@World (V * list Request)).

#[local] Hint Resolve emits_ret emits_fail emits_attempt emits_now emits_adapter
  emits_sleep emits_update : emit.
#[local] Hint Resolve quiet_GetMarketPrice quiet_GetBalance quiet_GetPositions
  quiet_CancelAllOrders quiet_SetLeverageWithPosSide quiet_GetSymbolLotSz
  quiet_GetSymbolPrecision quiet_FormatQuantity : emit.

(** An order, and then no other. *)
Lemma place_then_quiet {A} body (k : res Error Response -> M W A) (w : W) :
  (forall r, emits noOrder (k r)) ->
  exists l,
    sent (snd ((attempt (request (PlaceOrder body)) ≫= k) w))
    = sent w ++ PlaceOrder body :: l
    /\ Forall noOrder l.
Proof.
  intros Hk. unfold mbind, M_bind, attempt. rewrite run_request.
  match goal with
  | |- context [k ?r ?w1] => destruct (Hk r w1) as (l & Hl & HP)
  end.
  exists l. rewrite Hl. unfold sent at 1. simpl. rewrite <- app_assoc.
  split; [reflexivity | exact HP].
Qed.

Lemma placed_one body l : Forall noOrder l -> placed (PlaceOrder body :: l) = [body].
Proof.
  intros HP. change (PlaceOrder body :: l) with ([PlaceOrder body] ++ l).
  rewrite placed_app, (placed_quiet l HP). reflexivity.
Qed.

(** A close of a given quantity: the quantity is formatted and one
    reduce-only order is sent. *)
Lemma closePosition_some_log isLong symbol quantity (w : W) :
  Qeqb quantity 0 = false ->
  exists l,
    sent (snd (closePosition isLong symbol quantity w)) = sent w ++ l
    /\ (placed l = []
        \/ exists qs,
             fst (FormatQuantity symbol quantity w) = Ok qs
             /\ placed l = [closeOrder isLong symbol qs]).
Proof.
  intros Hq.
  remember (closePosition isLong symbol quantity w) as result eqn:Hres.
  unfold closePosition in Hres. rewrite Hq in Hres.
  unfold mbind at 1, M_bind at 1, mret at 1, M_ret at 1 in Hres.
  cbv beta iota zeta in Hres.
  unfold mbind at 1, M_bind at 1 in Hres.
  destruct (quiet_FormatQuantity symbol quantity w) as (l1 & Hl1 & HP1).
  destruct (FormatQuantity symbol quantity w) as [[qs | e] w1].
  - match type of Hres with
    | _ = (attempt (request (PlaceOrder ?b)) ≫= ?k) _ =>
        destruct (place_then_quiet b k w1) as (l2 & Hl2 & HP2)
    end.
    { intros r. emit. }
    rewrite <- Hres in Hl2. simpl in Hl1.
    exists (l1 ++ PlaceOrder (closeOrder isLong symbol qs) :: l2).
    split; [rewrite Hl2, Hl1, <- app_assoc; reflexivity |].
    right. exists qs. split; [reflexivity |].
    rewrite placed_app, (placed_quiet l1 HP1). apply placed_one. exact HP2.
  - subst result. exists l1. split; [exact Hl1 |]. left. apply placed_quiet, HP1.
Qed.

Lemma closePosition_log isLong symbol quantity (w : W) :
  exists l,
    sent (snd (closePosition isLong symbol quantity w)) = sent w ++ l
    /\ (placed l = [] \/ exists qs, placed l = [closeOrder isLong symbol qs]).
Proof.
  destruct (Qeqb quantity 0) eqn:Hq.
  - rewrite (closePosition_all _ _ _ _ Hq).
    destruct (quiet_GetPositions w) as (l1 & Hl1 & HP1).
    destruct (GetPositions w) as [[positions | e] w1]; simpl in Hl1;
      [| exists l1; split; [exact Hl1 | left; apply placed_quiet, HP1]].
    destruct (heldQuantity isLong symbol positions) as [q | e];
      [| exists l1; split; [exact Hl1 | left; apply placed_quiet, HP1]].
    destruct (Qeqb q 0) eqn:Hq0;
      [exists l1; split; [exact Hl1 | left; apply placed_quiet, HP1] |].
    destruct (closePosition_some_log isLong symbol q w1 Hq0) as (l2 & Hl2 & Hcase).
    exists (l1 ++ l2). split; [rewrite Hl2, Hl1, app_assoc; reflexivity |].
    rewrite placed_app, (placed_quiet l1 HP1). simpl.
    destruct Hcase as [Hnone | (qs & _ & Hone)]; [left | right; exists qs]; assumption.
  - destruct (closePosition_some_log isLong symbol quantity w Hq) as (l & Hl & Hcase).
    exists l. split; [exact Hl |].
    destruct Hcase as [Hnone | (qs & _ & Hone)]; [left | right; exists qs]; assumption.
Qed.

(** [CloseShort] with quantity 0 reads the size off the list of
    positions and negates it.  The list holds positive amounts, so no
    order it sends has a positive size: when a short is found, the order
    is a reduce-only buy whose size is the negated amount. *)
Theorem CloseShort_of_everything_negates_the_size (symbol : string) (w : W) :
  listed (fst w) ->
  exists l,
    sent (snd (CloseShort symbol 0 w)) = sent w ++ l
    /\ (placed l = []
        \/ exists qs,
             placed l = [closeOrder false symbol qs] /\ unscaled qs <= 0).
Proof.
  intros Hl. unfold CloseShort.
  rewrite (closePosition_all false symbol 0 w eq_refl).
  destruct (quiet_GetPositions w) as (l1 & Hl1 & HP1).
  destruct (GetPositions_listed w Hl) as [_ Hwell].
  destruct (GetPositions w) as [[positions | e] w1]; simpl in Hl1;
    [| exists l1; split; [exact Hl1 | left; apply placed_quiet, HP1]].
  specialize (Hwell positions eq_refl).
  destruct (heldQuantity false symbol positions) as [q | e] eqn:Hheld;
    [| exists l1; split; [exact Hl1 | left; apply placed_quiet, HP1]].
  destruct (Qeqb q 0) eqn:Hq0;
    [exists l1; split; [exact Hl1 | left; apply placed_quiet, HP1] |].
  destruct (closePosition_some_log false symbol q w1 Hq0) as (l2 & Hl2 & Hcase).
  exists (l1 ++ l2). split; [rewrite Hl2, Hl1, app_assoc; reflexivity |].
  rewrite placed_app, (placed_quiet l1 HP1). simpl.
  destruct Hcase as [Hnone | (qs & Hqs & Hone)]; [left; exact Hnone |].
  right. exists qs. split; [exact Hone |].
  apply (FormatQuantity_nonpositive symbol q w1 qs); [| exact Hqs].
  apply (heldQuantity_short symbol positions q Hwell Hheld).
Qed.

(** *** The orders of every mutation *)

Lemma setProtection_log isStop symbol positionSide quantity price (w : W) :
  exists l,
    sent (snd (setProtection isStop symbol positionSide quantity price w))
    = sent w ++ l
    /\ (placed l = []
        \/ exists body, placed l = [body] /\ reduceOnly body = true).
Proof.
  remember (setProtection isStop symbol positionSide quantity price w)
    as result eqn:Hres.
  unfold setProtection in Hres. unfold mbind at 1, M_bind at 1 in Hres.
  destruct (quiet_FormatQuantity symbol quantity w) as (l1 & Hl1 & HP1).
  destruct (FormatQuantity symbol quantity w) as [[qs | e] w1].
  - cbv zeta in Hres.
    match type of Hres with
    | _ = (attempt (request (PlaceOrder ?b)) ≫= ?k) _ =>
        destruct (place_then_quiet b k w1) as (l2 & Hl2 & HP2);
          [intros r; emit |];
        rewrite <- Hres in Hl2; simpl in Hl1;
        exists (l1 ++ PlaceOrder b :: l2);
        split; [rewrite Hl2, Hl1, <- app_assoc; reflexivity |];
        right; exists b; split; [| reflexivity];
        rewrite placed_app, (placed_quiet l1 HP1); apply placed_one; exact HP2
    end.
  - subst result. exists l1. split; [exact Hl1 |]. left. apply placed_quiet, HP1.
Qed.

Lemma quiet_cancelOrdersOfType kinds symbol :
  emits (V:=V) noOrder (cancelOrdersOfType kinds symbol).
Proof. unfold cancelOrdersOfType. emit. Qed.

(** No mutation of the adapter places more than one order in a call.
    The order of an open is not reduce-only; the order of a close, of
    [SetStopLoss] and of [SetTakeProfit] is reduce-only, so none of them
    can add to a position; the four cancels place no order. *)
Theorem mutations_place_at_most_one_order (m : Mutation) (w : W) :
  exists l,
    sent (snd (mutate m w)) = sent w ++ l
    /\ (placed l = []
        \/ exists body, placed l = [body] /\ reduceOnly body = negb (opens m))
    /\ (cancels m = true -> placed l = []).
Proof.
  assert (Hopen : forall isLong symbol quantity leverage stopLoss takeProfit,
    exists l,
      sent (snd (openPosition isLong symbol quantity leverage stopLoss takeProfit w))
      = sent w ++ l
      /\ (placed l = [] \/ exists body, placed l = [body] /\ reduceOnly body = false)
      /\ (false = true -> placed l = [])).
  { intros. rewrite run_openPosition.
    destruct (quiet_prepareOpen isLong symbol quantity leverage w)
      as (l1 & Hl1 & HP1).
    destruct (prepareOpen isLong symbol quantity leverage w)
      as [[[[price bal] qs] | e] w1]; simpl in Hl1.
    2: { exists l1. split; [exact Hl1 | split; [| discriminate]].
         left. apply placed_quiet, HP1. }
    destruct (Qltb (availableOf bal) (marginRequired qs price leverage)).
    - destruct (quiet_rejectForMargin symbol qs price leverage (availableOf bal) w1)
        as (l2 & Hl2 & HP2).
      exists (l1 ++ l2). rewrite Hl2, Hl1, app_assoc.
      split; [reflexivity | split; [| discriminate]].
      left. apply placed_quiet, Forall_app. split; assumption.
    - destruct (submitOpen_log isLong symbol qs leverage stopLoss takeProfit price w1)
        as (l2 & Hl2 & Hcase).
      exists (l1 ++ l2). rewrite Hl2, Hl1, app_assoc.
      split; [reflexivity | split; [| discriminate]].
      rewrite placed_app, (placed_quiet l1 HP1). simpl app.
      destruct Hcase as [(e & _ & -> & _) | (l' & -> & HP' & _)];
        [left; reflexivity |].
      right. eexists. split; [apply placed_one; exact HP' | reflexivity]. }
  assert (Hclose : forall isLong symbol quantity,
    exists l,
      sent (snd (closePosition isLong symbol quantity w)) = sent w ++ l
      /\ (placed l = [] \/ exists body, placed l = [body] /\ reduceOnly body = true)
      /\ (false = true -> placed l = [])).
  { intros. destruct (closePosition_log isLong symbol quantity w) as (l & Hl & Hcase).
    exists l. split; [exact Hl | split; [| discriminate]].
    destruct Hcase as [Hnone | (qs & Hone)]; [left; exact Hnone |].
    right. eexists. split; [exact Hone | reflexivity]. }
  assert (Hprotect : forall isStop symbol positionSide quantity price,
    exists l,
      sent (snd (setProtection isStop symbol positionSide quantity price w))
      = sent w ++ l
      /\ (placed l = [] \/ exists body, placed l = [body] /\ reduceOnly body = true)
      /\ (false = true -> placed l = [])).
  { intros.
    destruct (setProtection_log isStop symbol positionSide quantity price w)
      as (l & Hl & Hcase).
    exists l. split; [exact Hl | split; [exact Hcase | discriminate]]. }
  assert (Hquiet : forall k : M W unit, emits noOrder k ->
    exists l,
      sent (snd (k w)) = sent w ++ l
      /\ (placed l = [] \/ exists body, placed l = [body] /\ reduceOnly body = true)
      /\ (true = true -> placed l = [])).
  { intros k Hk. destruct (Hk w) as (l & Hl & HP).
    exists l. split; [exact Hl |].
    split; [left |]; intros; apply placed_quiet, HP. }
  destruct m; simpl mutate; simpl opens; simpl cancels; simpl negb;
    rewrite ?forget_world.
  - apply Hopen.
  - apply Hopen.
  - apply Hclose.
  - apply Hclose.
  - apply Hprotect.
  - apply Hprotect.
  - apply Hquiet, quiet_cancelOrdersOfType.
  - apply Hquiet, quiet_cancelOrdersOfType.
  - apply Hquiet, quiet_CancelAllOrders.
  - apply Hquiet, quiet_cancelOrdersOfType.
Qed.

End Orders.

Section ShortWorked.
Import Fixture ShortFixture.
#[local] Existing Instance loggedVenue.

(** The theorem above at the venue that holds a short of 0.01 BTC. *)
Lemma CloseShort_of_everything_negates_the_size_witness :
  exists l,
    sent (snd (CloseShort "BTCUSDT" 0 worldShort)) = sent worldShort ++ l
    /\ (placed l = []
        \/ exists qs,
             placed l = [closeOrder false "BTCUSDT" qs] /\ unscaled qs <= 0).
Proof.
  apply (CloseShort_of_everything_negates_the_size "BTCUSDT" worldShort).
  intros positions Hp. discriminate Hp.
Defined.

(** There the order sent has the size -0.01. *)
Lemma closeShort_sends_minus_one_lot :
  placed (sent (snd (CloseShort "BTCUSDT" 0 worldShort)))
  = [closeOrder false "BTCUSDT" {| unscaled := -1; scale := 2 |}].
Proof. vm_compute. reflexivity. Qed.

End ShortWorked.

End ClosingFacts.

(** ** More on the trader engine *)

Module EngineMore.
Import Decisions Engine EngineFacts.

#[local] Arguments Qplus : simpl never.
#[local] Arguments Qminus : simpl never.
#[local] Arguments Qmult : simpl never.
#[local] Arguments Qdiv : simpl never.
#[local] Arguments Qabs : simpl never.
#[local] Arguments Qopp : simpl never.
#[local] Arguments inject_Z : simpl never.
#[local] Arguments Z.mul : simpl never.
#[local] Arguments Z.sub : simpl never.
#[local] Arguments Z.ltb : simpl never.
#[local] Arguments usableBalance : simpl never.



Section Sync.
Context {E : Type} `{Host E}.



End Sync.

(** *** The order id *)

Section OrderResult.
Context {V : Type} `{Venue V} `{Strconv}.

(** An open of the adapter that succeeds returns the map built from the
    venue's acknowledgement, where the order id is a string. *)
Ltac nope :=
  first [ discriminate
        | unfold fail; cbv beta iota zeta delta [fst]; intros Hnope;
          discriminate Hnope ].

Lemma openPosition_result isLong symbol quantity leverage stopLoss takeProfit
    (w : @World V) order :
  fst (openPosition isLong symbol quantity leverage stopLoss takeProfit w) = Ok order ->
  exists ack, order = orderResult symbol ack.
Proof.
  unfold openPosition. unfold mbind at 1, M_bind at 1.
  destruct (prepareOpen isLong symbol quantity leverage w)
    as [[[[price bal] qs] | e] w1]; [| nope].
  cbv zeta.
  destruct (Qltb (availableOf bal) (marginRequired qs price leverage)).
  - unfold rejectForMargin, mbind, M_bind, attempt, fail.
    destruct (GetSymbolLotSz symbol w1) as [r w2]. nope.
  - unfold submitOpen.
    destruct (priceSanity isLong price leverage stopLoss takeProfit);
      [nope |].
    cbv zeta. unfold mbind at 1, M_bind at 1, attempt at 1.
    destruct (request _ w1) as [[d | e] w2].
    + destruct d; try nope.
      destruct l as [| ack rest]; [nope |].
      destruct (negb (String.eqb (sCode ack) "0")).
      * unfold mbind, M_bind, attempt, fail.
        destruct (OKX.GetMarketPrice symbol w2) as [rp w3].
        destruct (OKX.GetBalance w3) as [rb w4]. nope.
      * intros Hok. inversion Hok. exists ack. reflexivity.
    + unfold mbind, M_bind, attempt, fail.
      destruct (OKX.GetBalance w2) as [rb w3]. nope.
Qed.

Lemma closePosition_some_result isLong symbol quantity (w : @World V) order :
  Qeqb quantity 0 = false ->
  fst (closePosition isLong symbol quantity w) = Ok order ->
  exists ack, order = orderResult symbol ack.
Proof.
  intros Hq. unfold closePosition. rewrite Hq.
  unfold mbind at 1, M_bind at 1, mret at 1, M_ret at 1. cbv beta iota zeta.
  unfold mbind at 1, M_bind at 1.
  destruct (FormatQuantity symbol quantity w) as [[qs | e] w1]; [| nope].
  unfold mbind at 1, M_bind at 1, attempt at 1.
  destruct (request _ w1) as [[d | e] w2]; [| nope].
  destruct d; try nope.
  destruct l as [| ack rest]; [nope |].
  destruct (negb (String.eqb (sCode ack) "0")); [nope |].
  unfold mbind, M_bind, attempt, mret, M_ret.
  destruct (CancelAllOrders symbol w2) as [rc w3].
  intros Hok. inversion Hok. exists ack. reflexivity.
Qed.

Lemma closePosition_result isLong symbol quantity (w : @World V) order :
  fst (closePosition isLong symbol quantity w) = Ok order ->
  exists ack, order = orderResult symbol ack.
Proof.
  destruct (Qeqb quantity 0) eqn:Hq;
    [| apply closePosition_some_result; exact Hq].
  rewrite (ClosingFacts.closePosition_all _ _ _ _ Hq).
  destruct (OKX.GetPositions w) as [[positions | e] w1]; [| nope].
  destruct (heldQuantity isLong symbol positions) as [q | e]; [| nope].
  destruct (Qeqb q 0) eqn:Hq0; [nope |].
  apply closePosition_some_result. exact Hq0.
Qed.

Lemma orderResult_id symbol ack :
  asInt (orderResult symbol ack !! "orderId"%string) = None.
Proof. reflexivity. Qed.

End OrderResult.

Section Recorded.
Context {E : Type} `{Host E}.
Hypothesis opens_give_no_int :
  forall (isLong : bool) symbol quantity leverage stopLoss takeProfit (e : E) order,
    fst ((if isLong then OpenLong else OpenShort)
           symbol quantity leverage stopLoss takeProfit e) = Ok order ->
    asInt (order !! "orderId"%string) = None.

Lemma openAfterCheck_keeps_id isLong wrap d r (s : State) :
  match fst (openAfterCheck isLong wrap d r s) with
  | Ok (_, r') => OrderID r' = OrderID r
  | Err _ => True
  end.
Proof.
  unfold openAfterCheck. unfold_m. cbv beta iota zeta delta [fst snd].
  destruct (marketGet (Symbol d) (let (_, e) := s in e)) as [[price | e] e1];
    cbv beta iota zeta delta [fst snd]; [| reflexivity].
  destruct (SetMarginMode (Symbol d) _ e1) as [rm e2].
  cbv beta iota zeta delta [fst snd].
  pose proof (opens_give_no_int isLong (Symbol d)
                (PositionSizeUSD d / price)%Q (Leverage d) (StopLoss d)
                (TakeProfit d) e2) as Hid.
  destruct ((if isLong then OpenLong else OpenShort) (Symbol d)
              (PositionSizeUSD d / price)%Q (Leverage d) (StopLoss d)
              (TakeProfit d) e2) as [[order | e] e3];
    cbv beta iota zeta delta [fst snd]; [| reflexivity].
  unfold recordOrderID. rewrite (Hid order eq_refl). reflexivity.
Qed.

End Recorded.


End EngineMore.

(** ** The executors of the engine *)

Module ExecutorsFacts.
Import Decisions Engine EngineFacts Executors.

Section Noted.
Context {E : Type} `{Host E} `{Protections E} `{Strings}.
#[local] Existing Instance notingHost.
#[local] Existing Instance notingProtections.

#[local] Abbreviation S' := (@State (E * list Step)).

(** A call that is noted, and one that is not. *)
Lemma try_noted {A} (c : Step) (m : M E A) (s : S') :
  exists r e',
    try (noted c m) s = (r, (fst s, (e', steps s ++ [c])))
    /\ (forall x, r = Ok (Ok x) -> fst (m (fst (snd s))) = Ok x)
    /\ (forall x, r = Ok (Err x) -> fst (m (fst (snd s))) = Err x).
Proof.
  unfold try, noted, steps. destruct (m (fst (snd s))) as [[a | e] e'] eqn:Hm.
  - exists (Ok (Ok a)), e'. cbn. split; [reflexivity |].
    split; intros x Hx; inversion Hx; reflexivity.
  - destruct e; eexists; exists e'; cbn; (split; [reflexivity |]);
      split; intros x Hx; inversion Hx; reflexivity.
Qed.

Lemma try_unnoted {A} (m : M E A) (s : S') :
  exists r e',
    try (unnoted m) s = (r, (fst s, (e', steps s)))
    /\ (forall x, fst (m (fst (snd s))) = Ok x -> r = Ok (Ok x))
    /\ (forall x, fst (m (fst (snd s))) = Err x ->
        r = Ok (Err x) \/ (exists what, x = Panic what) /\ r = Err x).
Proof.
  unfold try, unnoted, steps. destruct (m (fst (snd s))) as [[a | e] e'].
  - exists (Ok (Ok a)), e'. cbn. split; [reflexivity |].
    split; intros x Hx; inversion Hx; reflexivity.
  - destruct e; eexists; exists e'; cbn; (split; [reflexivity |]);
      (split; intros x Hx; inversion Hx; subst;
       first [ left; reflexivity | right; split; [eexists |]; reflexivity ]).
Qed.

Ltac step_in H :=
  unfold mbind at 1, M_bind at 1 in H.


(** [close_long] and [close_short] read the price before anything
    else, for the record only, and give up when it cannot be read: the
    trader is then not asked to close.  When the price is read the
    trader is asked once, for the whole side (quantity 0), and the price
    is put into the record.  The engine itself is not changed. *)
Theorem close_is_not_asked_without_a_price
    (isLong : bool) (d : Decision) (r : DecisionAction) (s : S') :
  let run := executeCloseWithRecord isLong d r s in
  let ask :=
    Asked ((if isLong then CallCloseLong else CallCloseShort) (Symbol d) 0%Q) in
  fst (snd run) = fst s
  /\ (forall e,
        fst (marketGet (Symbol d) (fst (snd s))) = Err e ->
        steps (snd run) = steps s
        /\ (fst run = Ok (Some (Passed e), r) \/ fst run = Err e))
  /\ (forall price,
        fst (marketGet (Symbol d) (fst (snd s))) = Ok price ->
        steps (snd run) = steps s ++ [ask]
        /\ forall err r', fst run = Ok (err, r') ->
             Price r' = price /\ Quantity r' = Quantity r).
Proof.
  cbv zeta.
  remember (executeCloseWithRecord isLong d r s) as run eqn:Hrun.
  unfold executeCloseWithRecord in Hrun. step_in Hrun.
  destruct (try_unnoted (marketGet (Symbol d)) s) as (rp & e1 & Hp & Hok & Herr).
  assert (Hp' : try (@marketGet _ notingHost (Symbol d)) s
                = (rp, (fst s, (e1, steps s)))) by exact Hp.
  rewrite Hp' in Hrun. clear Hp Hp'.
  destruct (fst (marketGet (Symbol d) (fst (snd s)))) as [price | e] eqn:Hm.
  - rewrite (Hok price eq_refl) in Hrun. cbv beta iota zeta in Hrun.
    step_in Hrun.
    assert (Hc : exists rc e2,
      try ((if isLong then @CloseLong _ (@hostTrader _ notingHost)
            else @CloseShort _ (@hostTrader _ notingHost)) (Symbol d) 0%Q)
        (fst s, (e1, steps s))
      = (rc, (fst s, (e2, steps s
                          ++ [Asked ((if isLong then CallCloseLong
                                      else CallCloseShort) (Symbol d) 0%Q)])))).
    { destruct isLong.
      - destruct (try_noted (Asked (CallCloseLong (Symbol d) 0%Q))
                    (CloseLong (Symbol d) 0%Q) (fst s, (e1, steps s)))
          as (rc & e2 & Hc & _).
        exists rc, e2. exact Hc.
      - destruct (try_noted (Asked (CallCloseShort (Symbol d) 0%Q))
                    (CloseShort (Symbol d) 0%Q) (fst s, (e1, steps s)))
          as (rc & e2 & Hc & _).
        exists rc, e2. exact Hc. }
    destruct Hc as (rc & e2 & Hc). rewrite Hc in Hrun. clear Hc.
    destruct rc as [[order | e] | e]; cbv beta iota in Hrun;
      unfold mret, M_ret in Hrun; subst run; cbn [fst snd steps];
      (split; [reflexivity |]); (split; [intros e0 He0; discriminate He0 |]);
      intros p Hprice; inversion Hprice; subst p;
      (split; [reflexivity |]); intros err r' Hres; inversion Hres; subst;
      try (split; reflexivity).
    unfold recordOrderID. destruct (asInt (order !! "orderId"%string));
      split; reflexivity.
  - destruct (Herr e eq_refl) as [-> | [_ ->]]; cbv beta iota in Hrun;
      unfold mret, M_ret in Hrun; subst run; cbn [fst snd steps];
      (split; [reflexivity |]);
      (split; [| intros p Hprice; discriminate Hprice]);
      intros e0 He0; inversion He0; subst e0;
      (split; [reflexivity |]); [left | right]; reflexivity.
Qed.



End Noted.


(** *** The order id *)

Section Recorded.
Context {E : Type} `{Host E} `{Protections E} `{Strings}.
Hypothesis opens_give_no_int :
  forall (isLong : bool) symbol quantity leverage stopLoss takeProfit (e : E) order,
    fst ((if isLong then OpenLong else OpenShort)
           symbol quantity leverage stopLoss takeProfit e) = Ok order ->
    asInt (order !! "orderId"%string) = None.
Hypothesis closes_give_no_int :
  forall (isLong : bool) symbol quantity (e : E) order,
    fst ((if isLong then CloseLong else CloseShort) symbol quantity e) = Ok order ->
    asInt (order !! "orderId"%string) = None.

#[local] Abbreviation keepsId r m :=
  (forall s : @State E, match fst ((m : M (@State E) Result) s) with
             | Ok (_, r') => OrderID r' = OrderID r
             | Err _ => True
             end).

Lemma try_result {A} (m : M E A) (s : @State E) :
  (exists a e', m (snd s) = (Ok a, e') /\ try m s = (Ok (Ok a), (fst s, e')))
  \/ (exists e e', try m s = (Ok (Err e), (fst s, e')))
  \/ (exists e e', try m s = (Err e, (fst s, e'))).
Proof.
  unfold try. destruct (m (snd s)) as [[a | e] e'].
  - left. exists a, e'. split; reflexivity.
  - destruct e; try (right; left; eexists; eexists; reflexivity).
    right; right. eexists; eexists; reflexivity.
Qed.

Lemma close_keeps_id isLong d r : keepsId r (executeCloseWithRecord isLong d r).
Proof.
  intros s. unfold executeCloseWithRecord.
  unfold mbind at 1, M_bind at 1.
  destruct (try_result (marketGet (Symbol d)) s)
    as [(price & e1 & _ & ->) | [(e & e1 & ->) | (e & e1 & ->)]];
    try reflexivity.
  cbv beta iota zeta. unfold mbind at 1, M_bind at 1.
  destruct (try_result ((if isLong then CloseLong else CloseShort) (Symbol d) 0%Q)
              (fst s, e1))
    as [(order & e2 & Hrun & ->) | [(e & e2 & ->) | (e & e2 & ->)]];
    try reflexivity.
  cbn. unfold recordOrderID.
  rewrite (closes_give_no_int isLong (Symbol d) 0%Q e1 order); [reflexivity |].
  cbn in Hrun. rewrite Hrun. reflexivity.
Qed.

Lemma partial_keeps_id d r : keepsId r (executePartialCloseWithRecord d r).
Proof.
  intros s. unfold executePartialCloseWithRecord.
  destruct (Qleb (ClosePercentage d) 0 || Qltb 100 (ClosePercentage d));
    [reflexivity |].
  unfold mbind at 1, M_bind at 1.
  destruct (try_result (marketGet (Symbol d)) s)
    as [(price & e1 & _ & ->) | [(e & e1 & ->) | (e & e1 & ->)]];
    try reflexivity.
  cbv beta iota zeta. unfold mbind at 1, M_bind at 1.
  destruct (try_result GetPositions (fst s, e1))
    as [(positions & e2 & _ & ->) | [(e & e2 & ->) | (e & e2 & ->)]];
    try reflexivity.
  cbv beta iota zeta. cbn [fst snd].
  destruct (targetPosition (Symbol d) positions) as [target |]; [| reflexivity].
  unfold mbind at 1, M_bind at 1.
  match goal with
  | |- context [try ((if ?b then CloseLong else CloseShort) ?sym ?q) ?st] =>
      pose proof (closes_give_no_int b sym q (snd st)) as Hno;
      destruct (try_result ((if b then CloseLong else CloseShort) sym q) st)
        as [(order & e3 & Hrun & ->) | [(e & e3 & ->) | (e & e3 & ->)]]
  end; try reflexivity.
  cbn. unfold recordOrderID.
  rewrite (Hno order); [reflexivity |]. rewrite Hrun. reflexivity.
Qed.

Lemma update_keeps_id isStop d r : keepsId r (executeUpdateWithRecord isStop d r).
Proof.
  intros s. unfold executeUpdateWithRecord. cbv zeta.
  unfold mbind at 1, M_bind at 1.
  destruct (try_result (marketGet (Symbol d)) s)
    as [(price & e1 & _ & ->) | [(e & e1 & ->) | (e & e1 & ->)]];
    try reflexivity.
  cbv beta iota zeta. unfold mbind at 1, M_bind at 1.
  destruct (try_result GetPositions (fst s, e1))
    as [(positions & e2 & _ & ->) | [(e & e2 & ->) | (e & e2 & ->)]];
    try reflexivity.
  cbv beta iota zeta. cbn [fst snd].
  destruct (targetPosition (Symbol d) positions) as [target |]; [| reflexivity].
  destruct ((if isStop then stopLossCheck else takeProfitCheck) _ _ _);
    [reflexivity |].
  unfold mbind at 1, M_bind at 1.
  match goal with
  | |- context [try ?m ?st] =>
      destruct (try_result m st)
        as [(u & e3 & _ & ->) | [(e & e3 & ->) | (e & e3 & ->)]]
  end; try reflexivity;
    cbv beta iota zeta; cbn [fst snd]; unfold mbind at 1, M_bind at 1;
    match goal with
    | |- context [try ?m ?st] =>
        destruct (try_result m st)
          as [(u' & e4 & _ & ->) | [(e' & e4 & ->) | (e' & e4 & ->)]]
    end; reflexivity.
Qed.

Lemma open_keeps_id (isLong : bool) d r :
  keepsId r (passed (if isLong then @executeOpenLongWithRecord E _ d r
                     else @executeOpenShortWithRecord E _ d r)).
Proof.
  intros s. unfold passed. unfold mbind at 1, M_bind at 1.
  assert (Hkeep : match fst ((if isLong then @executeOpenLongWithRecord E _ d r
                              else @executeOpenShortWithRecord E _ d r) s) with
                  | Ok (_, r') => OrderID r' = OrderID r
                  | Err _ => True
                  end).
  { destruct isLong.
    - unfold executeOpenLongWithRecord. unfold mbind at 1, M_bind at 1.
      unfold attempt at 1, outside at 1.
      destruct (GetPositions (snd s)) as [[positions | e] e1];
        cbv beta iota zeta; [| reflexivity].
      destruct (holds (Symbol d) "long" positions); [reflexivity |].
      apply (EngineMore.openAfterCheck_keeps_id opens_give_no_int).
    - unfold executeOpenShortWithRecord. unfold mbind at 1, M_bind at 1.
      unfold attempt at 1, outside at 1.
      destruct (GetPositions (snd s)) as [[positions | e] e1];
        cbv beta iota zeta;
        [| apply (EngineMore.openAfterCheck_keeps_id opens_give_no_int)].
      destruct (holds (Symbol d) "short" positions); [reflexivity |].
      apply (EngineMore.openAfterCheck_keeps_id opens_give_no_int). }
  destruct ((if isLong then @executeOpenLongWithRecord E _ d r
             else @executeOpenShortWithRecord E _ d r) s) as [[[err r'] | e] s'];
    [exact Hkeep | exact I].
Qed.

Lemma dispatch_keeps_id d r : keepsId r (executeDecisionWithRecord d r).
Proof.
  intros s. unfold executeDecisionWithRecord. cbv zeta.
  destruct (String.eqb (Action d) "open_long");
    [apply (open_keeps_id true) |].
  destruct (String.eqb (Action d) "open_short");
    [apply (open_keeps_id false) |].
  destruct (String.eqb (Action d) "close_long"); [apply close_keeps_id |].
  destruct (String.eqb (Action d) "close_short"); [apply close_keeps_id |].
  destruct (String.eqb (Action d) "update_stop_loss"); [apply update_keeps_id |].
  destruct (String.eqb (Action d) "update_take_profit"); [apply update_keeps_id |].
  destruct (String.eqb (Action d) "partial_close"); [apply partial_keeps_id |].
  destruct (String.eqb (Action d) "hold" || String.eqb (Action d) "wait");
    reflexivity.
Qed.

End Recorded.

Section OkxRecorded.
Context {V : Type} `{Venue V} `{Strconv} `{Strings}.
Variable market : string -> M (@World V) Q.
Variable updateInitialBalance : string -> string -> Q -> M (@World V) unit.

#[local] Existing Instance okxProtections.

(** With the OKX adapter the engine never records an order id.  The
    executors take the id from [order["orderId"]] when it is an [int64];
    the adapter puts the venue's [ordId] there, a string.  So whatever
    the decision and the outcome, [OrderID] of the action record is what
    it was before the executor ran. *)
Theorem okx_order_id_is_never_recorded
    (d : Decision) (r : DecisionAction) (s : @State (@World V)) :
  match fst (executeDecisionWithRecord (H := okxHost market updateInitialBalance)
               d r s) with
  | Ok (_, r') => OrderID r' = OrderID r
  | Err _ => True
  end.
Proof.
  apply (dispatch_keeps_id (H := okxHost market updateInitialBalance)).
  - intros isLong symbol quantity leverage stopLoss takeProfit e order Hrun.
    assert (Hres : exists ack, order = orderResult symbol ack).
    { destruct isLong;
        apply (EngineMore.openPosition_result _ _ _ _ _ _ _ _ Hrun). }
    destruct Hres as [ack ->]. reflexivity.
  - intros isLong symbol quantity e order Hrun.
    assert (Hres : exists ack, order = orderResult symbol ack).
    { destruct isLong;
        apply (EngineMore.closePosition_result _ _ _ _ _ Hrun). }
    destruct Hres as [ack ->]. reflexivity.
Qed.

End OkxRecorded.

(** *** Which actions are executed *)

Section Dispatch.
Context {E : Type} `{Host E} `{Protections E} `{Strings}.

#[local] Abbreviation known m :=
  (forall (s : @State E) a r',
     fst ((m : M (@State E) Result) s) <> Ok (Some (UnknownAction a), r')).

Ltac next_try :=
  unfold mbind at 1, M_bind at 1;
  match goal with
  | |- context [try ?m ?st] =>
      destruct (try_result m st) as [(? & ? & _ & ->) | [(? & ? & ->) | (? & ? & ->)]]
  end;
  cbv beta iota zeta; cbn [fst snd]; try discriminate.

Lemma close_known isLong d r : known (executeCloseWithRecord isLong d r).
Proof.
  intros s a r'. unfold executeCloseWithRecord.
  next_try. next_try.
Qed.

Lemma update_known isStop d r : known (executeUpdateWithRecord isStop d r).
Proof.
  intros s a r'. unfold executeUpdateWithRecord. cbv zeta.
  next_try. next_try.
  destruct (targetPosition (Symbol d) _) as [target |]; [| discriminate].
  destruct ((if isStop then stopLossCheck else takeProfitCheck) _ _ _)
    as [refusal |] eqn:Hcheck.
  - intros Hx. inversion Hx; subst refusal.
    destruct isStop; unfold stopLossCheck, takeProfitCheck in Hcheck;
      repeat match type of Hcheck with
      | context [if ?b then _ else _] => destruct b
      end; discriminate.
  - next_try; next_try.
Qed.

Lemma partial_known d r : known (executePartialCloseWithRecord d r).
Proof.
  intros s a r'. unfold executePartialCloseWithRecord.
  destruct (Qleb (ClosePercentage d) 0 || Qltb 100 (ClosePercentage d));
    [discriminate |].
  next_try. next_try.
  destruct (targetPosition (Symbol d) _) as [target |]; [| discriminate].
  next_try.
Qed.

Lemma passed_known m : known (passed m).
Proof.
  intros s a r'. unfold passed, mbind, M_bind.
  destruct (m s) as [[[[e |] r0] | e] s1]; discriminate.
Qed.

(** [executeDecisionWithRecord] and the validator agree on the actions:
    an action that [validateDecision] does not know is answered with the
    unknown-action error, nothing being asked or changed; an action it
    knows is never answered so.  For [hold] and [wait] nothing is done. *)
Theorem validated_actions_are_executed
    (d : Decision) (r : DecisionAction) (s : @State E) :
  (map_get_bool validActions (Action d) = false ->
   executeDecisionWithRecord d r s = (Ok (Some (UnknownAction (Action d)), r), s))
  /\ (Action d = "hold"%string \/ Action d = "wait"%string ->
      executeDecisionWithRecord d r s = (Ok (None, r), s))
  /\ (map_get_bool validActions (Action d) = true ->
      forall a r',
        fst (executeDecisionWithRecord d r s) <> Ok (Some (UnknownAction a), r')).
Proof.
  split; [| split].
  - intros Hinvalid. unfold executeDecisionWithRecord. cbv zeta.
    assert (Hnot : forall x,
              In x ["open_long"; "open_short"; "close_long"; "close_short";
                    "update_stop_loss"; "update_take_profit"; "partial_close";
                    "hold"; "wait"]%string ->
              String.eqb (Action d) x = false).
    { intros x Hx. destruct (String.eqb (Action d) x) eqn:Ex; [| reflexivity].
      exfalso. apply String.eqb_eq in Ex. rewrite Ex in Hinvalid.
      simpl in Hx.
      repeat (destruct Hx as [<- | Hx]; [vm_compute in Hinvalid; discriminate |]).
      destruct Hx. }
    rewrite !Hnot by (simpl; tauto).
    reflexivity.
  - intros [Ha | Ha]; unfold executeDecisionWithRecord; rewrite Ha; reflexivity.
  - intros Hvalid a r'. apply DecisionsMore.valid_action_cases in Hvalid.
    unfold executeDecisionWithRecord. cbv zeta. simpl in Hvalid.
    repeat (destruct Hvalid as [<- | Hvalid];
            [cbn [String.eqb Ascii.eqb Bool.eqb andb orb];
             first [ apply passed_known | apply close_known | apply update_known
                   | apply partial_known | cbn; discriminate ] |]).
    destruct Hvalid.
Qed.

End Dispatch.

(** *** The executors on the small venue *)

Section ExecWorked.
Import Fixture Logged ExecFixture ShortFixture.
#[local] Existing Instance loggedVenue.
#[local] Existing Instance loggedHost.
#[local] Existing Instance loggedProtections.

(** An open that the venue acknowledges with the order id 1001 leaves
    the [OrderID] of the record at 0. *)
Lemma accepted_open_records_no_id :
  let run :=
    executeDecisionWithRecord (decision "open_long" "ETHUSDT" 10 600) noAction
      (trader0, worldLogged) in
  exists r', fst run = Ok (None, r') /\ OrderID r' = 0
  /\ length (placed (sent (snd (snd run)))) = 1%nat.
Proof. cbv zeta. eexists. vm_compute. repeat split; reflexivity. Qed.

(** An update of the stop-loss on the venue that refuses every order:
    the executor fails, and by then it has asked the venue for the
    pending orders, to cancel the old stop-loss orders. *)
Lemma failed_update_has_cancelled :
  let run :=
    executeUpdateStopLossWithRecord (updateStop "BTCUSDT" 59000) noAction
      (trader0, worldRefusing) in
  (exists e r',
     fst run = Ok (Some (Context "修改止损失败" e), r'))
  /\ In (OrdersPending "BTC-USDT-SWAP") (sent (snd (snd run)))
  /\ map posSide (placed (sent (snd (snd run)))) = ["LONG"%string].
Proof.
  cbv zeta. split; [| split].
  - eexists. eexists. vm_compute. reflexivity.
  - vm_compute. tauto.
  - vm_compute. reflexivity.
Qed.

(** A partial close of half of the 0.01 BTC held, where the lot is
    0.01: the record says 0.005, the order sent closes 0.01. *)
Lemma partial_close_rounds_up_to_all :
  let run :=
    executePartialCloseWithRecord (partialClose "BTCUSDT" 50) noAction
      (trader0, worldLogged) in
  (exists r', fst run = Ok (None, r') /\ (Quantity r' == 5 # 1000)%Q)
  /\ placed (sent (snd (snd run)))
     = [closeOrder true "BTCUSDT" {| unscaled := 1; scale := 2 |}].
Proof.
  cbv zeta. split.
  - eexists. split; [vm_compute; reflexivity | vm_compute; reflexivity].
  - vm_compute. reflexivity.
Qed.

(** A [close_short] of the engine on the venue that holds the short of
    0.01 BTC sends the size -0.01. *)
Lemma close_short_decision_sends_minus_one_lot :
  placed (sent (snd (snd
    (executeCloseShortWithRecord (decision "close_short" "BTCUSDT" 0 0) noAction
       (trader0, worldShort)))))
  = [closeOrder false "BTCUSDT" {| unscaled := -1; scale := 2 |}].
Proof. vm_compute. reflexivity. Qed.

End ExecWorked.

End ExecutorsFacts.

(** ** The AI client *)

Module MCPFacts.
Import GoStrings MCP.

Section Retries.
Context {C : Type} `{Provider C} `{Lowering}.
#[local] Existing Instance loggedProvider.

#[local] Abbreviation L := (C * list Event)%type.

Lemma waitTime_uncapped attempt :
  1 <= attempt <= 4 -> waitTime attempt = 2 ^ (attempt - 1) * 2 * OKX.second.
Proof.
  intros Ha. unfold waitTime. cbv zeta.
  assert (Hcases : attempt = 1 \/ attempt = 2 \/ attempt = 3 \/ attempt = 4) by lia.
  destruct Hcases as [-> | [-> | [-> | ->]]]; reflexivity.
Qed.

(** The loop with [n] attempts left, of which the first is the attempt
    [6 - n]. *)
Lemma run_callOnce sp up (c : L) :
  callOnce (Provider := loggedProvider) sp up c
  = (fst (callOnce sp up (fst c)),
     (snd (callOnce sp up (fst c)), snd c ++ [Called sp up])).
Proof.
  unfold callOnce at 1. cbn [loggedProvider].
  destruct (callOnce sp up (fst c)) as [r c1]. reflexivity.
Qed.

Lemma attemptsFrom_schedule sp up : forall (n : nat) (lastErr : string) (c : L),
  (1 <= n <= 5)%nat ->
  let attempt := 6 - Z.of_nat n in
  let run := attemptsFrom n attempt lastErr sp up c in
  exists k : nat,
    (1 <= k <= n)%nat
    /\ snd (snd run) = snd c ++ schedule k attempt sp up
    /\ (forall last, fst run = Err (GaveUp maxRetries last) ->
        k = n /\ isRetryableError last = true)
    /\ (forall err, fst run = Err (Once err) -> isRetryableError err = false)
    /\ fst run <> Err KeyMissing.
Proof.
  induction n as [| n IH]; intros lastErr c Hn; [lia |].
  cbv zeta.
  remember (attemptsFrom (S n) (6 - Z.of_nat (S n)) lastErr sp up c) as run eqn:Hrun.
  cbn [attemptsFrom] in Hrun. rewrite run_callOnce in Hrun.
  destruct (callOnce sp up (fst c)) as [[result | err] c1]; cbn [fst snd] in Hrun.
  - subst run. exists 1%nat. cbn [fst snd schedule].
    split; [lia | split; [reflexivity |]].
    repeat split; first [discriminate | intros ? Hx; discriminate Hx].
  - destruct (isRetryableError err) eqn:Hretry; cbn [negb] in Hrun.
    + destruct (Nat.eq_dec n 0%nat) as [-> | Hpos].
      * cbn [attemptsFrom] in Hrun. subst run. exists 1%nat.
        cbn [fst snd schedule].
        split; [lia | split; [reflexivity |]].
        split; [| split; [intros ? Hx; discriminate Hx | discriminate]].
        intros last Hlast. inversion Hlast; subst. split; [reflexivity | exact Hretry].
      * assert (Hlt : (6 - Z.of_nat (S n) <? maxRetries) = true).
        { apply Z.ltb_lt. unfold maxRetries. lia. }
        rewrite Hlt in Hrun.
        rewrite waitTime_uncapped in Hrun by lia.
        replace (6 - Z.of_nat (S n) + 1) with (6 - Z.of_nat n) in Hrun by lia.
        match type of Hrun with
        | _ = attemptsFrom n _ err sp up ?c2 =>
            destruct (IH err c2 ltac:(lia)) as (k & Hk & Hlog & Hlast & Honce & Hkey)
        end.
        rewrite <- Hrun in Hlog, Hlast, Honce, Hkey.
        exists (S k). split; [lia |].
        split.
        { rewrite Hlog. cbn [snd fst providerSleep loggedProvider].
          rewrite <- !app_assoc.
          destruct k as [| k']; [lia |].
          cbn [schedule app].
          replace (6 - Z.of_nat (S n) + 1) with (6 - Z.of_nat n) by lia.
          reflexivity. }
        split; [| split; [exact Honce | exact Hkey]].
        intros last Hl. destruct (Hlast last Hl) as [-> Hr].
        split; [reflexivity | exact Hr].
    + subst run. exists 1%nat. cbn [fst snd schedule].
      split; [lia | split; [reflexivity |]].
      split; [intros ? Hx; discriminate Hx | split; [| discriminate]].
      intros err0 Herr0. inversion Herr0; subst. exact Hretry.
Qed.

Lemma schedule_slept sp up (k : nat) :
  (1 <= k <= 5)%nat ->
  slept (schedule k 1 sp up) = (2 ^ Z.of_nat k - 2) * OKX.second.
Proof.
  intros Hk.
  assert (Hcases : k = 1%nat \/ k = 2%nat \/ k = 3%nat \/ k = 4%nat \/ k = 5%nat)
    by lia.
  destruct Hcases as [-> | [-> | [-> | [-> | ->]]]]; reflexivity.
Qed.

(** [CallWithMessages] fails at once without a key.  With a key it
    calls the provider between one and five times, always with the same
    two prompts, and waits 2, 4, 8 and 16 seconds between the calls: it
    never waits after the last call, the bound of 30 seconds on a wait is
    never reached, and all the waits together take at most 30 seconds.
    It gives up only after five calls that all failed with an error it
    takes for retryable; an error it does not take for retryable is
    returned at once, as it is. *)
Theorem CallWithMessages_retries
    (apiKey systemPrompt userPrompt : string) (c : L) :
  let run := CallWithMessages apiKey systemPrompt userPrompt c in
  (apiKey = EmptyString -> run = (Err KeyMissing, c))
  /\ (apiKey <> EmptyString ->
      exists k : nat,
        (1 <= k <= 5)%nat
        /\ snd (snd run) = snd c ++ schedule k 1 systemPrompt userPrompt
        /\ slept (schedule k 1 systemPrompt userPrompt)
           = (2 ^ Z.of_nat k - 2) * OKX.second
        /\ slept (schedule k 1 systemPrompt userPrompt) <= 30 * OKX.second
        /\ (forall last,
              fst run = Err (GaveUp 5 last) ->
              k = 5%nat /\ isRetryableError last = true)
        /\ (forall err, fst run = Err (Once err) -> isRetryableError err = false)
        /\ fst run <> Err KeyMissing).
Proof.
  cbv zeta. unfold CallWithMessages. split.
  - intros ->. reflexivity.
  - intros Hkey.
    replace (String.eqb apiKey EmptyString) with false
      by (symmetry; apply String.eqb_neq; exact Hkey).
    destruct (attemptsFrom_schedule systemPrompt userPrompt 5 EmptyString c
                ltac:(lia)) as (k & Hk & Hlog & Hlast & Honce & Hnokey).
    exists k. split; [exact Hk | split; [exact Hlog |]].
    split; [apply schedule_slept; exact Hk |].
    split.
    { rewrite (schedule_slept _ _ k Hk).
      assert (Hpow : 2 ^ Z.of_nat k <= 2 ^ 5)
        by (apply Z.pow_le_mono_r; lia).
      unfold OKX.second. lia. }
    split; [exact Hlast | split; [exact Honce | exact Hnokey]].
Qed.

End Retries.

(** *** The list of retryable errors *)

Lemma contains_chars_spec sub : forall s,
  contains_chars sub s = true <-> exists pre post, s = pre ++ sub ++ post.
Proof.
  induction s as [| a s IH]; simpl.
  - destruct (strip_prefix sub []) as [rest |] eqn:Hs.
    + split; [intros _ | reflexivity].
      apply StringsFacts.strip_prefix_inv in Hs. exists [], rest. exact Hs.
    + split; [discriminate |]. intros (pre & post & Heq).
      destruct pre; [| discriminate]. simpl in Heq.
      rewrite Heq, StringsFacts.strip_own_prefix in Hs. discriminate.
  - destruct (strip_prefix sub (a :: s)) as [rest |] eqn:Hs.
    + split; [intros _ | reflexivity].
      apply StringsFacts.strip_prefix_inv in Hs. exists [], rest. exact Hs.
    + rewrite IH. split.
      * intros (pre & post & ->). exists (a :: pre), post. reflexivity.
      * intros (pre & post & Heq). destruct pre as [| b pre].
        -- simpl in Heq. rewrite Heq, StringsFacts.strip_own_prefix in Hs.
           discriminate.
        -- inversion Heq; subst. exists pre, post. reflexivity.
Qed.

Lemma Contains_part (s before part after : string) :
  Contains s (before ++ part ++ after) = true -> Contains s part = true.
Proof.
  unfold Contains. rewrite !contains_chars_spec.
  intros (pre & post & Heq). rewrite !StringsFacts.chars_append in Heq.
  exists (pre ++ chars before), (chars after ++ post).
  rewrite Heq, <- !app_assoc. reflexivity.
Qed.

Section Retryable.
Context `{Lowering}.

(** Three entries of the list of retryable errors never decide:
    [i/o timeout], [read: connection reset] and [write: broken pipe]
    each contain an earlier entry, so [isRetryableError] is the same
    test on the list without them. *)
Theorem isRetryableError_has_idle_entries (err : string) :
  isRetryableError err
  = existsb (fun retryable => Contains (ToLower err) retryable)
      shortRetryableErrors.
Proof.
  unfold isRetryableError, retryableErrors, shortRetryableErrors. cbv zeta.
  cbn [existsb].
  assert (H1 : Contains (ToLower err) "i/o timeout" = true ->
               Contains (ToLower err) "timeout" = true)
    by exact (Contains_part (ToLower err) "i/o " "timeout" EmptyString).
  assert (H2 : Contains (ToLower err) "read: connection reset" = true ->
               Contains (ToLower err) "connection reset" = true)
    by exact (Contains_part (ToLower err) "read: " "connection reset" EmptyString).
  assert (H3 : Contains (ToLower err) "write: broken pipe" = true ->
               Contains (ToLower err) "broken pipe" = true)
    by exact (Contains_part (ToLower err) "write: " "broken pipe" EmptyString).
  destruct (Contains (ToLower err) "eof"); [reflexivity | cbn [orb]].
  destruct (Contains (ToLower err) "timeout") eqn:E1; [reflexivity | cbn [orb]].
  destruct (Contains (ToLower err) "connection reset") eqn:E2;
    [reflexivity | cbn [orb]].
  destruct (Contains (ToLower err) "connection refused"); [reflexivity | cbn [orb]].
  destruct (Contains (ToLower err) "connection closed"); [reflexivity | cbn [orb]].
  destruct (Contains (ToLower err) "broken pipe") eqn:E3; [reflexivity | cbn [orb]].
  destruct (Contains (ToLower err) "temporary failure"); [reflexivity | cbn [orb]].
  destruct (Contains (ToLower err) "no such host"); [reflexivity | cbn [orb]].
  destruct (Contains (ToLower err) "stream error"); [reflexivity | cbn [orb]].
  destruct (Contains (ToLower err) "internal_error"); [reflexivity | cbn [orb]].
  destruct (Contains (ToLower err) "network is unreachable");
    [reflexivity | cbn [orb]].
  destruct (Contains (ToLower err) "i/o timeout");
    [specialize (H1 eq_refl); congruence | cbn [orb]].
  destruct (Contains (ToLower err) "context deadline exceeded");
    [reflexivity | cbn [orb]].
  destruct (Contains (ToLower err) "read: connection reset");
    [specialize (H2 eq_refl); congruence | cbn [orb]].
  destruct (Contains (ToLower err) "write: broken pipe");
    [specialize (H3 eq_refl); congruence | reflexivity].
Qed.

End Retryable.

End MCPFacts.

(** ** Indicators *)

Module IndicatorsFacts.
Import Indicators.

(** *** The moving average *)





(** *** The relative strength index *)

Lemma sumChange_nonneg (l : list Q) : forall g s,
  (0 <= g)%Q -> (0 <= s)%Q ->
  (0 <= fst (fold_left sumChange l (g, s)))%Q
  /\ (0 <= snd (fold_left sumChange l (g, s)))%Q.
Proof.
  induction l as [| c l IH]; intros g s Hg Hs; [simpl; split; assumption |].
  simpl fold_left. unfold sumChange at 2.
  destruct (Qltb 0 c) eqn:Hc.
  - apply Qltb_lt in Hc. apply IH; lra.
  - apply Qltb_ge in Hc. apply IH; lra.
Qed.

Lemma smoothChange_nonneg period (l : list Q) : forall g s,
  1 <= period ->
  (0 <= g)%Q -> (0 <= s)%Q ->
  (0 <= fst (fold_left (smoothChange period) l (g, s)))%Q
  /\ (0 <= snd (fold_left (smoothChange period) l (g, s)))%Q.
Proof.
  intros g s Hp. revert g s.
  assert (Hpos : (0 < inject_Z period)%Q).
  { change 0%Q with (inject_Z 0). rewrite <- Zlt_Qlt. lia. }
  assert (Hp1 : (0 <= inject_Z (period - 1))%Q).
  { change 0%Q with (inject_Z 0). rewrite <- Zle_Qle. lia. }
  induction l as [| c l IH]; intros g s Hg Hs; [simpl; split; assumption |].
  simpl fold_left. unfold smoothChange at 2. cbv zeta.
  destruct (Qltb 0 c) eqn:Hc.
  - apply Qltb_lt in Hc.
    apply IH; apply Qle_shift_div_l; try exact Hpos; nra.
  - apply Qltb_ge in Hc.
    apply IH; apply Qle_shift_div_l; try exact Hpos; nra.
Qed.

Lemma sumChange_no_loss (l : list Q) : forall g s,
  Forall (fun c => (0 < c)%Q) l ->
  snd (fold_left sumChange l (g, s)) = s.
Proof.
  induction l as [| c l IH]; intros g s Hall; [reflexivity |].
  inversion Hall as [| ? ? Hc Hl]; subst. apply Qltb_lt in Hc.
  assert (Hstep : sumChange (g, s) c = ((g + c)%Q, s))
    by (unfold sumChange; rewrite Hc; reflexivity).
  cbn [fold_left]. rewrite Hstep. apply IH. exact Hl.
Qed.

Lemma smoothChange_no_loss period (l : list Q) : forall g s,
  Forall (fun c => (0 < c)%Q) l -> (s == 0)%Q ->
  (snd (fold_left (smoothChange period) l (g, s)) == 0)%Q.
Proof.
  induction l as [| c l IH]; intros g s Hall Hs; [exact Hs |].
  inversion Hall as [| ? ? Hc Hl]; subst. apply Qltb_lt in Hc.
  assert (Hstep : smoothChange period (g, s) c
                  = (((g * inject_Z (period - 1) + c) / inject_Z period)%Q,
                     ((s * inject_Z (period - 1)) / inject_Z period)%Q))
    by (unfold smoothChange; cbv zeta; rewrite Hc; reflexivity).
  cbn [fold_left]. rewrite Hstep. apply IH; [exact Hl |].
  rewrite Hs. unfold Qdiv. ring.
Qed.

(** [calculateRSI] with a period of at least 1 never fails, and its
    value is between 0 and 100.  It is 0 when there are not more klines
    than the period, and 100 when there are more and every close is above
    the one before. *)
Theorem calculateRSI_between_0_and_100 (klines : list Kline) (period : Z) :
  1 <= period ->
  exists rsi,
    calculateRSI klines period = Ok rsi
    /\ (0 <= rsi <= 100)%Q
    /\ (Z.of_nat (length klines) <= period -> rsi = 0%Q)
    /\ (period < Z.of_nat (length klines) ->
        Forall (fun change => (0 < change)%Q) (changes klines) ->
        rsi = 100%Q).
Proof.
  intros Hp. unfold calculateRSI.
  destruct (Z.of_nat (length klines) <=? period) eqn:Hlen.
  - exists 0%Q. apply Z.leb_le in Hlen.
    split; [reflexivity | split; [lra | split; [reflexivity | lia]]].
  - apply Z.leb_gt in Hlen.
    replace (period <? 0) with false by (symmetry; apply Z.ltb_ge; lia).
    cbn [andb].
    assert (Hpos : (0 < inject_Z period)%Q).
    { change 0%Q with (inject_Z 0). rewrite <- Zlt_Qlt. lia. }
    destruct (sumChange_nonneg (take (Z.to_nat period) (changes klines)) 0 0)
      as [Hg Hl]; try lra.
    pose proof (sumChange_no_loss (take (Z.to_nat period) (changes klines)) 0 0)
      as Hnone.
    destruct (fold_left sumChange (take (Z.to_nat period) (changes klines)) (0%Q, 0%Q))
      as [gains losses].
    simpl in Hg, Hl, Hnone. cbv zeta.
    pose proof (smoothChange_no_loss period
                  (drop (Z.to_nat period) (changes klines))
                  (gains / inject_Z period) (losses / inject_Z period)) as Hkept.
    destruct (smoothChange_nonneg period (drop (Z.to_nat period) (changes klines))
                (gains / inject_Z period) (losses / inject_Z period) Hp)
      as [Hag Hal]; try (apply Qle_shift_div_l; lra).
    destruct (fold_left (smoothChange period) (drop (Z.to_nat period) (changes klines))
                (gains / inject_Z period, losses / inject_Z period)%Q)
      as [avgGain avgLoss].
    simpl in Hag, Hal.
    destruct (Qeqb avgLoss 0) eqn:Hz.
    + exists 100%Q.
      split; [reflexivity | split; [lra | split; [lia | reflexivity]]].
    + assert (Hnz : ~ (avgLoss == 0)%Q).
      { intros Heq. apply Qeq_bool_iff in Heq. unfold Qeqb in Hz. congruence. }
      eexists. split; [reflexivity | split; [| split; [lia |]]].
      2: { intros _ Hrise. exfalso. apply Hnz. simpl in Hkept. apply Hkept.
           - apply Forall_drop. exact Hrise.
           - rewrite Hnone by (apply Forall_take; exact Hrise).
             unfold Qdiv. ring. }
      assert (Hloss : (0 < avgLoss)%Q).
      { apply Qle_lt_or_eq in Hal. destruct Hal as [Hlt | Heq]; [exact Hlt |].
        exfalso. apply Hnz. symmetry. exact Heq. }
      assert (Hrs : (0 <= avgGain / avgLoss)%Q) by (apply Qle_shift_div_l; lra).
      set (rs := (avgGain / avgLoss)%Q) in *.
      assert (Hden : (0 < 1 + rs)%Q) by lra.
      assert (Hquot : (0 <= 100 / (1 + rs) <= 100)%Q).
      { split; [apply Qle_shift_div_l | apply Qle_shift_div_r]; lra. }
      lra.
Qed.

(** The closes 1, 2, 3, 2 with period 2. *)
Lemma calculateRSI_between_0_and_100_witness :
  exists rsi,
    calculateRSI [mkKline 1 1 1 1 0; mkKline 2 2 2 2 0; mkKline 3 3 3 3 0;
                  mkKline 2 2 2 2 0] 2 = Ok rsi
    /\ (0 <= rsi <= 100)%Q.
Proof.
  destruct (calculateRSI_between_0_and_100
              [mkKline 1 1 1 1 0; mkKline 2 2 2 2 0; mkKline 3 3 3 3 0;
               mkKline 2 2 2 2 0] 2 ltac:(lia)) as (rsi & Hrun & Hb & _).
  exists rsi. split; [exact Hrun | exact Hb].
Defined.


End IndicatorsFacts.
